(** * Tiled fixed-point CNN accelerator: shallow embedding and verification

    The development embeds the HLS sources of the accelerator
    ([hw/hls/src/cnn_accel.h], [cnn_accel.cpp], [conv_layer.cpp],
    [activation.cpp], [pooling.cpp]) as Rocq functions and proves the
    properties of the design specification about them.

    Conventions of the embedding.
    - A fixed-point number is its raw two's-complement integer, a [Z]:
      a [data_t]/[weight_t] value [v] (ap_fixed<16,8,AP_RND,AP_SAT>) is the
      raw integer [v * 2^8], an [acc_t] value (ap_fixed<32,16,AP_RND,AP_SAT>)
      is [v * 2^16].  Conversions round with AP_RND (add the most significant
      dropped bit) and saturate with AP_SAT.
    - A C [int] is a [Z]; [/] on [int] is [Z.quot] (truncation).  Signed
      overflow is undefined in C and is not modelled: the platform bounds
      (MAX_INPUT_SIZE = 224, MAX_CHANNELS = 512) keep every index far below
      [2^31].  Division by zero is undefined in C and is not modelled
      either: [out_dim] is the source's quotient for a stride other than 0,
      which [valid_layer] ensures.
    - A pointer into bulk memory and an on-chip buffer are total maps
      [Z -> Z] from element index to raw value, updated functionally.  The
      static buffers have a fixed size in the source; [resource_compatible]
      states the bound under which they are never indexed beyond it, and
      the engine model stands for the C program on such runs only.  The
      input and output feature maps are distinct regions (the driver
      alternates two buffers).
    - A [for (int i = lo; i < hi; i++)] loop is [for_loop lo hi body]. *)

From Stdlib Require Import ZArith List Bool Lia Sorted.
Import ListNotations.
Local Open Scope Z_scope.

(* ================================================================== *)
(** ** Loops and memories *)

Fixpoint zseq (lo : Z) (n : nat) : list Z :=
  match n with
  | O => []
  | S n' => lo :: zseq (lo + 1) n'
  end.

(** The values taken by [i] in [for (i = lo; i < hi; i++)]. *)
Definition zrange (lo hi : Z) : list Z := zseq lo (Z.to_nat (hi - lo)).

Definition for_loop {S : Type} (lo hi : Z) (body : Z -> S -> S) (s : S) : S :=
  fold_left (fun s i => body i s) (zrange lo hi) s.

(** [for (i = lo; i < hi; i += step)] with [0 < step]. *)
Definition for_step {S : Type} (lo hi step : Z) (body : Z -> S -> S) (s : S) : S :=
  fold_left (fun s i => body i s)
            (map (fun j => lo + j * step) (zrange 0 ((hi - lo + step - 1) / step))) s.

Definition mem := Z -> Z.

Definition upd (m : mem) (i v : Z) : mem :=
  fun j => if j =? i then v else m j.

(* ================================================================== *)
(** ** Fixed-point numeric model (cnn_accel.h, lines 20-22) *)

Module Fixed.

(** AP_SAT on a signed [w]-bit raw value. *)
Definition sat (w x : Z) : Z :=
  if x >? 2 ^ (w - 1) - 1 then 2 ^ (w - 1) - 1
  else if x <? - 2 ^ (w - 1) then - 2 ^ (w - 1)
  else x.

(** AP_RND when [k] fractional bits are dropped: arithmetic shift, then
    add the most significant dropped bit. *)
Definition rnd (k x : Z) : Z :=
  Z.shiftr x k + Z.b2z (Z.testbit x (k - 1)).

Definition DATA_W := 16.
Definition DATA_F := 8.
Definition ACC_W := 32.
Definition ACC_F := 16.

Definition DATA_MAX := 2 ^ (DATA_W - 1) - 1.
Definition DATA_MIN := - 2 ^ (DATA_W - 1).

(** [data_t(x)] for [x : acc_t]. *)
Definition narrow (x : Z) : Z := sat DATA_W (rnd (ACC_F - DATA_F) x).

(** [acc_t(d)] for [d : data_t]: exact. *)
Definition widen (d : Z) : Z := Z.shiftl d (ACC_F - DATA_F).

(** [data_t(c)] for an integer constant [c]. *)
Definition data_of_int (c : Z) : Z := sat DATA_W (Z.shiftl c DATA_F).

(** [data_t(d / 10000.0)] for a four-decimal literal. *)
Definition data_of_decimal4 (d : Z) : Z :=
  sat DATA_W ((d * 2 ^ DATA_F + 5000) / 10000).

(** [data_t(1.0 / n)]. *)
Definition data_of_recip (n : Z) : Z :=
  sat DATA_W ((2 * 2 ^ DATA_F + n) / (2 * n)).

(** [sum += a * b] with [sum : acc_t], [a : data_t], [b : weight_t]:
    the product is exact in ap_fixed<32,16>, the sum is exact in
    ap_fixed<33,17>, the assignment saturates. *)
Definition mac (sum a b : Z) : Z := sat ACC_W (sum + a * b).

(** [sum += d] with [sum : acc_t], [d : data_t]. *)
Definition acc_add_data (sum d : Z) : Z := sat ACC_W (sum + widen d).

(** [acc_t r = a + b] for [a b : acc_t]. *)
Definition acc_add (a b : Z) : Z := sat ACC_W (a + b).

(** [acc_t r = acc * scale + shift] with [acc : acc_t] and
    [scale shift : weight_t]: exact in ap_fixed<49,25> with 24 fractional
    bits, then rounded and saturated into [acc_t]. *)
Definition scale_shift (acc scale shift : Z) : Z :=
  sat ACC_W (rnd DATA_F (acc * scale + Z.shiftl shift ACC_F)).

(** [data_t(sum * scale)] with [sum : acc_t], [scale : data_t]. *)
Definition narrow_prod (sum scale : Z) : Z :=
  sat DATA_W (rnd ACC_F (sum * scale)).

(** A value of [data_t]. *)
Definition is_data (x : Z) : Prop := DATA_MIN <= x <= DATA_MAX.

End Fixed.

(* ================================================================== *)
(** ** Activation functions (activation.cpp) *)

Definition leaky_relu_hw (x : Z) : Z :=
  if x >? Fixed.data_of_int 0 then x
  else Z.shiftr x 3.

(** The literals of [SIGMOID_LUT], in ten-thousandths. *)
Definition SIGMOID_LUT_decimal : list Z :=
  [ 3; 4; 4; 5; 5; 6; 7; 8;
    9; 10; 11; 12; 14; 15; 17; 19;
    21; 24; 26; 29; 33; 37; 41; 45;
    50; 56; 62; 69; 76; 84; 94; 104;
    115; 127; 141; 155; 172; 190; 210; 232;
    256; 283; 312; 345; 380; 419; 462; 509;
    560; 616; 677; 744; 817; 896; 982; 1076;
    1178; 1288; 1407; 1536; 1675; 1824; 1984; 2156;
    2340; 2536; 2744; 2964; 3196; 3440; 3695; 3962;
    4239; 4526; 4822; 5125; 5434; 5748; 6065; 6382;
    6698; 7011; 7319; 7621; 7914; 8198; 8470; 8730;
    8976; 9208; 9426; 9628; 9814; 9985; 9990; 9993;
    9995; 9997; 9997; 9998; 9998; 9999; 9999; 9999;
    9999; 9999; 10000; 10000; 10000; 10000; 10000; 10000;
    10000; 10000; 10000; 10000; 10000; 10000; 10000; 10000;
    10000; 10000; 10000; 10000; 10000; 10000; 10000; 10000;
    10000; 10000; 10000; 10000; 10000; 10000; 10000; 10000;
    10000; 10000; 10000; 10000; 10000; 10000; 10000; 10000;
    10000; 10000; 10000; 10000; 10000; 10000; 10000; 10000;
    10000; 10000; 10000; 10000; 10000; 10000; 10000; 10000;
    10000; 10000; 10000; 10000; 10000; 10000; 10000; 10000;
    10000; 10000; 10000; 10000; 10000; 10000; 10000; 10000;
    10000; 10000; 10000; 10000; 10000; 10000; 10000; 10000;
    10000; 10000; 10000; 10000; 10000; 10000; 10000; 10000;
    10000; 10000; 10000; 10000; 10000; 10000; 10000; 10000;
    10000; 10000; 10000; 10000; 10000; 10000; 10000; 10000;
    10000; 10000; 10000; 10000; 10000; 10000; 10000; 10000;
    10000; 10000; 10000; 10000; 10000; 10000; 10000; 10000;
    10000; 10000; 10000; 10000; 10000; 10000; 10000; 10000;
    10000; 10000; 10000; 10000; 10000; 10000; 10000; 10000;
    10000; 10000; 10000; 10000; 10000; 10000; 10000; 10000;
    10000; 10000; 10000; 10000; 10000; 10000; 10000; 10000 ].

Definition SIGMOID_LUT : list Z := map Fixed.data_of_decimal4 SIGMOID_LUT_decimal.

(** The clamp of [sigmoid_hw]; [data_t(7.9375)] is the raw value 2032. *)
Definition sigmoid_clamp (x : Z) : Z :=
  if x <? Fixed.data_of_int (-8) then Fixed.data_of_int (-8)
  else if x >=? Fixed.data_of_int 8 then Fixed.data_of_decimal4 79375
  else x.

(** [ap_uint<8>((clamped + data_t(8)) * data_t(16))]: the sum is exact in
    ap_fixed<17,9>, the product exact in ap_fixed<33,17> with 16 fractional
    bits; the conversion keeps the integer part (truncated towards zero)
    and its low 8 bits. *)
Definition sigmoid_index (x : Z) : Z :=
  Z.land (Z.quot ((sigmoid_clamp x + Fixed.data_of_int 8) * Fixed.data_of_int 16)
                 (2 ^ Fixed.ACC_F))
         255.

Definition sigmoid_hw (x : Z) : Z :=
  nth (Z.to_nat (sigmoid_index x)) SIGMOID_LUT 0.

(** [apply_activation_hw]'s per-element dispatch. *)
Definition apply_activation_elem (activation_type val : Z) : Z :=
  if activation_type =? 1 then leaky_relu_hw val
  else if activation_type =? 2 then sigmoid_hw val
  else val.

Definition apply_activation_hw (data : mem) (channels height width activation_type : Z) : mem :=
  for_loop 0 (channels * height * width)
    (fun i data => upd data i (apply_activation_elem activation_type (data i))) data.

(** [batchnorm_relu_hw]: the standalone (non-fused) path narrows [bn_out]
    before the activation. *)
Definition batchnorm_relu_hw (data scale shift : mem) (channels height width : Z) : mem :=
  let spatial_size := height * width in
  for_loop 0 channels (fun c data =>
    let ch_scale := scale c in
    let ch_shift := shift c in
    for_loop 0 spatial_size (fun i data =>
      let idx := c * spatial_size + i in
      let bn_out := Fixed.sat Fixed.ACC_W
                      (data idx * ch_scale + Z.shiftl ch_shift Fixed.DATA_F) in
      upd data idx (leaky_relu_hw (Fixed.narrow bn_out))) data) data.

(* ================================================================== *)
(** ** Pooling (pooling.cpp) *)

Definition max4_hw (a b c d : Z) : Z :=
  let max_ab := if a >? b then a else b in
  let max_cd := if c >? d then c else d in
  if max_ab >? max_cd then max_ab else max_cd.

Definition maxpool2d_hw (input output : mem) (channels in_h in_w : Z) : mem :=
  let out_h := Z.quot in_h 2 in
  let out_w := Z.quot in_w 2 in
  for_loop 0 channels (fun c output =>
    for_loop 0 out_h (fun oh output =>
      for_loop 0 out_w (fun ow output =>
        let ih := oh * 2 in
        let iw := ow * 2 in
        let base_idx := c * in_h * in_w in
        let v00 := input (base_idx + ih * in_w + iw) in
        let v01 := input (base_idx + ih * in_w + iw + 1) in
        let v10 := input (base_idx + (ih + 1) * in_w + iw) in
        let v11 := input (base_idx + (ih + 1) * in_w + iw + 1) in
        let max_val := max4_hw v00 v01 v10 v11 in
        let out_idx := c * out_h * out_w + oh * out_w + ow in
        upd output out_idx max_val) output) output) output.

Definition global_avgpool_hw (input output : mem) (channels height width : Z) : mem :=
  let spatial_size := height * width in
  let scale := Fixed.data_of_recip spatial_size in
  for_loop 0 channels (fun c output =>
    let sum := for_loop 0 spatial_size (fun i sum =>
                 let idx := c * spatial_size + i in
                 Fixed.acc_add_data sum (input idx)) 0 in
    upd output c (Fixed.narrow_prod sum scale)) output.

(* ================================================================== *)
(** ** Convolution core (conv_layer.cpp) *)

Definition PARALLEL_OUT_CH := 8.
Definition PARALLEL_IN_CH := 8.

Definition mac_unit (activation weight acc : Z) : Z :=
  let product := Fixed.sat Fixed.ACC_W (activation * weight) in
  Fixed.acc_add acc product.

(** [window] and [kernel] are 3x3 arrays, element [kh][kw] at [kh * 3 + kw]. *)
Definition conv_3x3_kernel (window kernel : mem) : Z :=
  for_loop 0 3 (fun kh sum =>
    for_loop 0 3 (fun kw sum =>
      mac_unit (window (kh * 3 + kw)) (kernel (kh * 3 + kw)) sum) sum) 0.

(** The static buffers of [conv2d_hw] that it uses, and the output array.
    [weight_buf[oc][ic][kh][kw]] is at [((oc * 8 + ic) * 3 + kh) * 3 + kw]. *)
Record conv_state := mkConv {
  weight_buf : mem;
  acc_buf : mem;
  conv_output : mem
}.

Definition weight_buf_idx (oc ic kh kw : Z) : Z :=
  ((oc * PARALLEL_IN_CH + ic) * 3 + kh) * 3 + kw.

(** [conv2d_hw]; [uninit] is the indeterminate content of the local array
    [local_window] at its declaration. *)
Definition conv2d_hw (uninit : mem) (input weights : mem)
    (in_ch in_h in_w out_ch kernel stride pad : Z) (st : conv_state) : conv_state :=
  let out_h := Z.quot (in_h + 2 * pad - kernel) stride + 1 in
  let out_w := Z.quot (in_w + 2 * pad - kernel) stride + 1 in
  for_step 0 out_ch PARALLEL_OUT_CH (fun oc_tile st =>
    let oc_n := Z.min PARALLEL_OUT_CH (out_ch - oc_tile) in
    for_step 0 in_ch PARALLEL_IN_CH (fun ic_tile st =>
      let ic_n := Z.min PARALLEL_IN_CH (in_ch - ic_tile) in
      (* LOAD_WEIGHTS *)
      let st :=
        for_loop 0 oc_n (fun oc st =>
          for_loop 0 ic_n (fun ic st =>
            for_loop 0 kernel (fun kh st =>
              for_loop 0 kernel (fun kw st =>
                let w_idx := (oc_tile + oc) * in_ch * kernel * kernel
                             + (ic_tile + ic) * kernel * kernel
                             + kh * kernel + kw in
                mkConv (upd (weight_buf st) (weight_buf_idx oc ic kh kw) (weights w_idx))
                       (acc_buf st) (conv_output st)) st) st) st) st in
      (* ROW_LOOP / COL_LOOP *)
      for_loop 0 out_h (fun oh st =>
        for_loop 0 out_w (fun ow st =>
          (* INIT_ACC: first input channel tile only *)
          let st :=
            if ic_tile =? 0 then
              for_loop 0 PARALLEL_OUT_CH (fun oc st =>
                mkConv (weight_buf st) (upd (acc_buf st) oc 0) (conv_output st)) st
            else st in
          (* IC_COMPUTE *)
          let st :=
            for_loop 0 ic_n (fun ic st =>
              let local_window :=
                for_loop 0 kernel (fun kh win =>
                  for_loop 0 kernel (fun kw win =>
                    let ih := oh * stride + kh - pad in
                    let iw := ow * stride + kw - pad in
                    if (0 <=? ih) && (ih <? in_h) && (0 <=? iw) && (iw <? in_w) then
                      upd win (kh * 3 + kw)
                          (input ((ic_tile + ic) * in_h * in_w + ih * in_w + iw))
                    else upd win (kh * 3 + kw) 0) win) uninit in
              (* OC_MAC *)
              for_loop 0 oc_n (fun oc st =>
                let partial :=
                  conv_3x3_kernel local_window
                    (fun j => weight_buf st (weight_buf_idx oc ic 0 0 + j)) in
                mkConv (weight_buf st)
                       (upd (acc_buf st) oc (Fixed.acc_add (acc_buf st oc) partial))
                       (conv_output st)) st) st in
          (* WRITE_OUTPUT: last input channel tile only *)
          if ic_tile + PARALLEL_IN_CH >=? in_ch then
            for_loop 0 oc_n (fun oc st =>
              let out_idx := (oc_tile + oc) * out_h * out_w + oh * out_w + ow in
              mkConv (weight_buf st) (acc_buf st)
                     (upd (conv_output st) out_idx (Fixed.narrow (acc_buf st oc)))) st
          else st) st) st) st) st.

(* ================================================================== *)
(** ** Top-level tiled engine (cnn_accel.cpp) *)

(** The tile-size macros [TILE_H], [TILE_W], [TILE_CH]. *)
Record tiling := mkTiling {
  TILE_H : Z;
  TILE_W : Z;
  TILE_CH : Z
}.

(** The values compiled into the design. *)
Definition zedboard_tiling : tiling := mkTiling 14 14 32.

Definition INPUT_TILE_SIZE (t : tiling) : Z :=
  TILE_CH t * (TILE_H t + 2) * (TILE_W t + 2).
Definition OUTPUT_TILE_SIZE (t : tiling) : Z :=
  TILE_CH t * TILE_H t * TILE_W t.
Definition WEIGHT_BUF_SIZE (t : tiling) : Z :=
  TILE_CH t * TILE_CH t * 9.

(** The scalar arguments of [cnn_accelerator_top]. *)
Record LayerConfig := mkLayer {
  layer_type : Z;      (* 0: conv+bn+relu, 1: conv+bn+relu+pool, 2: conv only *)
  in_channels : Z;
  out_channels : Z;
  in_height : Z;
  in_width : Z;
  kernel_size : Z;
  stride : Z;
  padding : Z
}.

(** What the engine does to its slave-visible ports, in program order. *)
Inductive event :=
| StatusWrite (v : Z)
| OutputWrite (idx v : Z).

(** The state the engine mutates: the status register, the static on-chip
    buffers, the output feature map in bulk memory, and the log of port
    writes.  (The static [output_tile] is declared and never used.)  The
    three buffers are arrays of [INPUT_TILE_SIZE], [WEIGHT_BUF_SIZE] and
    [OUTPUT_TILE_SIZE] elements in the source and unbounded maps here: the
    record describes the C state as long as no store goes beyond these
    sizes, which holds on the runs of a [resource_compatible] layer. *)
Record engine := mkEngine {
  status : Z;
  input_tile : mem;
  weight_tile : mem;
  acc_tile : mem;
  output_fm : mem;
  events : list event
}.

Definition set_status (v : Z) (st : engine) : engine :=
  mkEngine v (input_tile st) (weight_tile st) (acc_tile st) (output_fm st)
           (events st ++ [StatusWrite v]).

Definition store_output (idx v : Z) (st : engine) : engine :=
  mkEngine (status st) (input_tile st) (weight_tile st) (acc_tile st)
           (upd (output_fm st) idx v) (events st ++ [OutputWrite idx v]).

Definition set_buffers (it wt acc : mem) (st : engine) : engine :=
  mkEngine (status st) it wt acc (output_fm st) (events st).

(** [(in_dim + 2 * padding - kernel_size) / stride + 1], for [s <> 0]: the
    source divides by the stride before it sets the status register. *)
Definition out_dim (in_dim k s p : Z) : Z := Z.quot (in_dim + 2 * p - k) s + 1.

Definition out_height (c : LayerConfig) : Z :=
  out_dim (in_height c) (kernel_size c) (stride c) (padding c).
Definition out_width (c : LayerConfig) : Z :=
  out_dim (in_width c) (kernel_size c) (stride c) (padding c).

(** [(n + tile - 1) / tile]. *)
Definition tile_count (n tile : Z) : Z := Z.quot (n + tile - 1) tile.

(** [(start + tile > n) ? n : start + tile]. *)
Definition tile_end (start tile n : Z) : Z :=
  if start + tile >? n then n else start + tile.

Definition INIT_ACC (tile_size : Z) (acc : mem) : mem :=
  for_loop 0 tile_size (fun i acc => upd acc i 0) acc.

(** LOAD_INPUT: the window is copied densely, [tile_idx] counting up. *)
Definition LOAD_INPUT (c : LayerConfig) (input_fm : mem)
    (ic_start ic_end ih_start ih_end iw_start iw_end : Z) (tile : mem) : mem :=
  fst (for_loop ic_start ic_end (fun ic s =>
         for_loop ih_start ih_end (fun ih s =>
           for_loop iw_start iw_end (fun iw (s : mem * Z) =>
             let (tile, tile_idx) := s in
             let tile :=
               if (0 <=? ih) && (ih <? in_height c) && (0 <=? iw) && (iw <? in_width c)
               then
                 let ddr_idx := ic * in_height c * in_width c + ih * in_width c + iw in
                 upd tile tile_idx (input_fm ddr_idx)
               else upd tile tile_idx 0 in
             (tile, tile_idx + 1)) s) s) (tile, 0)).

Definition LOAD_WEIGHTS (c : LayerConfig) (weights : mem)
    (oc_start oc_end ic_start ic_end : Z) (wt : mem) : mem :=
  let ic_count := ic_end - ic_start in
  let k := kernel_size c in
  for_loop oc_start oc_end (fun oc wt =>
    for_loop ic_start ic_end (fun ic wt =>
      for_loop 0 k (fun kh wt =>
        for_loop 0 k (fun kw wt =>
          let w_ddr_idx := oc * in_channels c * k * k + ic * k * k + kh * k + kw in
          let w_tile_idx := (oc - oc_start) * ic_count * k * k
                            + (ic - ic_start) * k * k + kh * k + kw in
          upd wt w_tile_idx (weights w_ddr_idx)) wt) wt) wt) wt.

(** The innermost three loops of COMPUTE_TILE for one accumulator. *)
Definition tile_mac (c : LayerConfig) (it wt : mem)
    (ic_count tile_ih tile_iw oc oh ow : Z) (sum : Z) : Z :=
  let k := kernel_size c in
  for_loop 0 ic_count (fun ic sum =>
    for_loop 0 k (fun kh sum =>
      for_loop 0 k (fun kw sum =>
        let ih_local := oh * stride c + kh in
        let iw_local := ow * stride c + kw in
        let in_idx := ic * tile_ih * tile_iw + ih_local * tile_iw + iw_local in
        let w_idx := oc * ic_count * k * k + ic * k * k + kh * k + kw in
        Fixed.mac sum (it in_idx) (wt w_idx)) sum) sum) sum.

Definition COMPUTE_TILE (c : LayerConfig) (it wt : mem)
    (oc_count th tw ic_count tile_ih tile_iw : Z) (acc : mem) : mem :=
  for_loop 0 oc_count (fun oc acc =>
    for_loop 0 th (fun oh acc =>
      for_loop 0 tw (fun ow acc =>
        let idx := oc * th * tw + oh * tw + ow in
        let sum := acc idx in
        let sum := tile_mac c it wt ic_count tile_ih tile_iw oc oh ow sum in
        upd acc idx sum) acc) acc) acc.

(** Fused BatchNorm + LeakyReLU of one accumulator (WRITE_OUTPUT body). *)
Definition finalize (layer_type scale_val shift_val acc : Z) : Z :=
  let bn_out := Fixed.scale_shift acc scale_val shift_val in
  if negb (layer_type =? 2) then
    if bn_out >? 0 then Fixed.narrow bn_out
    else Fixed.narrow (Z.shiftr bn_out 3)
  else Fixed.narrow bn_out.

Definition bn_scale_val (c : LayerConfig) (bn_scale : mem) (ch : Z) : Z :=
  if negb (layer_type c =? 2) then bn_scale ch else Fixed.data_of_int 1.
Definition bn_shift_val (c : LayerConfig) (bn_shift : mem) (ch : Z) : Z :=
  if negb (layer_type c =? 2) then bn_shift ch else Fixed.data_of_int 0.

Definition WRITE_OUTPUT (c : LayerConfig) (bn_scale bn_shift : mem)
    (oc_start oc_count oh_start th ow_start tw : Z) (st : engine) : engine :=
  for_loop 0 oc_count (fun oc st =>
    let scale_val := bn_scale_val c bn_scale (oc_start + oc) in
    let shift_val := bn_shift_val c bn_shift (oc_start + oc) in
    for_loop 0 th (fun oh st =>
      for_loop 0 tw (fun ow st =>
        let tile_idx := oc * th * tw + oh * tw + ow in
        let result := finalize (layer_type c) scale_val shift_val (acc_tile st tile_idx) in
        let out_idx := (oc_start + oc) * out_height c * out_width c
                       + (oh_start + oh) * out_width c + (ow_start + ow) in
        store_output out_idx result st) st) st) st.

(** One iteration of IC_TILE_LOOP on the three on-chip buffers. *)
Definition ic_tile_step (t : tiling) (c : LayerConfig) (input_fm weights : mem)
    (oc_start oc_end oh_start oh_end ow_start ow_end ic_t : Z)
    (b : mem * mem * mem) : mem * mem * mem :=
  let '(it, wt, acc) := b in
  let ic_start := ic_t * TILE_CH t in
  let ic_end := tile_end ic_start (TILE_CH t) (in_channels c) in
  let ic_count := ic_end - ic_start in
  let ih_start := oh_start * stride c - padding c in
  let ih_end := (oh_end - 1) * stride c + kernel_size c - padding c in
  let iw_start := ow_start * stride c - padding c in
  let iw_end := (ow_end - 1) * stride c + kernel_size c - padding c in
  let it := LOAD_INPUT c input_fm ic_start ic_end ih_start ih_end iw_start iw_end it in
  let wt := LOAD_WEIGHTS c weights oc_start oc_end ic_start ic_end wt in
  let tile_ih := ih_end - ih_start in
  let tile_iw := iw_end - iw_start in
  let acc := COMPUTE_TILE c it wt (oc_end - oc_start) (oh_end - oh_start)
                          (ow_end - ow_start) ic_count tile_ih tile_iw acc in
  (it, wt, acc).

(** The body of OW_TILE_LOOP: one output tile, from INIT_ACC to WRITE_OUTPUT. *)
Definition process_tile (t : tiling) (c : LayerConfig)
    (input_fm weights bn_scale bn_shift : mem) (oc_t oh_t ow_t : Z)
    (st : engine) : engine :=
  let oc_start := oc_t * TILE_CH t in
  let oc_end := tile_end oc_start (TILE_CH t) (out_channels c) in
  let oc_count := oc_end - oc_start in
  let oh_start := oh_t * TILE_H t in
  let oh_end := tile_end oh_start (TILE_H t) (out_height c) in
  let ow_start := ow_t * TILE_W t in
  let ow_end := tile_end ow_start (TILE_W t) (out_width c) in
  let tile_size := oc_count * (oh_end - oh_start) * (ow_end - ow_start) in
  let acc := INIT_ACC tile_size (acc_tile st) in
  let ic_tiles := tile_count (in_channels c) (TILE_CH t) in
  let '(it, wt, acc) :=
    for_loop 0 ic_tiles
      (ic_tile_step t c input_fm weights oc_start oc_end oh_start oh_end ow_start ow_end)
      (input_tile st, weight_tile st, acc) in
  WRITE_OUTPUT c bn_scale bn_shift oc_start oc_count oh_start (oh_end - oh_start)
               ow_start (ow_end - ow_start) (set_buffers it wt acc st).

(** OC_TILE_LOOP / OH_TILE_LOOP / OW_TILE_LOOP. *)
Definition tile_loops (t : tiling) (c : LayerConfig)
    (input_fm weights bn_scale bn_shift : mem) (st : engine) : engine :=
  let oc_tiles := tile_count (out_channels c) (TILE_CH t) in
  let oh_tiles := tile_count (out_height c) (TILE_H t) in
  let ow_tiles := tile_count (out_width c) (TILE_W t) in
  for_loop 0 oc_tiles (fun oc_t st =>
    for_loop 0 oh_tiles (fun oh_t st =>
      for_loop 0 ow_tiles (fun ow_t st =>
        process_tile t c input_fm weights bn_scale bn_shift oc_t oh_t ow_t st) st) st) st.

(** POOL_LOOP: 2x2 max pooling of [output_fm], written back in place. *)
Definition POOL_LOOP (c : LayerConfig) (st : engine) : engine :=
  let pool_height := Z.quot (out_height c) 2 in
  let pool_width := Z.quot (out_width c) 2 in
  for_loop 0 (out_channels c) (fun ch st =>
    for_loop 0 pool_height (fun ph st =>
      for_loop 0 pool_width (fun pw st =>
        let base_idx := ch * out_height c * out_width c
                        + (ph * 2) * out_width c + pw * 2 in
        let v00 := output_fm st base_idx in
        let v01 := output_fm st (base_idx + 1) in
        let v10 := output_fm st (base_idx + out_width c) in
        let v11 := output_fm st (base_idx + out_width c + 1) in
        let max01 := if v00 >? v01 then v00 else v01 in
        let max23 := if v10 >? v11 then v10 else v11 in
        let max_val := if max01 >? max23 then max01 else max23 in
        let pool_idx := ch * pool_height * pool_width + ph * pool_width + pw in
        store_output pool_idx max_val st) st) st) st.

Definition cnn_accelerator_top (t : tiling) (c : LayerConfig)
    (input_fm weights bn_scale bn_shift : mem) (st : engine) : engine :=
  let st := set_status 1 st in
  let st := tile_loops t c input_fm weights bn_scale bn_shift st in
  let st := if layer_type c =? 1 then POOL_LOOP c st else st in
  set_status 0 st.

(* ================================================================== *)
(** ** Vocabulary of the statements *)

(** The index of element [(a, b, c)] of an array [..][h][w]. *)
Definition idx3 (h w a b c : Z) : Z := a * h * w + b * w + c.

(** [keys] are visited in an order along which the written index [w]
    strictly increases. *)
Definition increasing {K} (w : K -> Z) (keys : list K) : Prop :=
  StronglySorted (fun a b => w a < w b) keys.

(** The loop [for k in keys: m[w k] = val k m]. *)
Definition write_loop {K} (w : K -> Z) (val : K -> mem -> Z)
    (keys : list K) (m : mem) : mem :=
  fold_left (fun m k => upd m (w k) (val k m)) keys m.

(** The loop [for k in keys: output_fm[w k] = val k acc_tile output_fm]. *)
Definition store_loop {K} (w : K -> Z) (val : K -> mem -> mem -> Z)
    (keys : list K) (st : engine) : engine :=
  fold_left (fun st k => store_output (w k) (val k (acc_tile st) (output_fm st)) st)
            keys st.

Definition is_output_write (e : event) : Prop :=
  match e with
  | OutputWrite _ _ => True
  | StatusWrite _ => False
  end.

(** The 2x2 window of channel [c] whose top-left element is at row
    [2 * ph], column [2 * pw] of an [h] x [w] map, reduced by the
    comparator tree. *)
Definition pool_window (m : mem) (h w c ph pw : Z) : Z :=
  max4_hw (m (idx3 h w c (2 * ph) (2 * pw)))
          (m (idx3 h w c (2 * ph) (2 * pw + 1)))
          (m (idx3 h w c (2 * ph + 1) (2 * pw)))
          (m (idx3 h w c (2 * ph + 1) (2 * pw + 1))).

Definition pool_keys (channels in_h in_w : Z) : list (Z * (Z * Z)) :=
  list_prod (zrange 0 channels)
            (list_prod (zrange 0 (Z.quot in_h 2)) (zrange 0 (Z.quot in_w 2))).

Definition pool_idx (in_h in_w : Z) (p : Z * (Z * Z)) : Z :=
  idx3 (Z.quot in_h 2) (Z.quot in_w 2) (fst p) (fst (snd p)) (snd (snd p)).

(** ** Direct (non-tiled) reference convolution

    The reference follows the specification: one pass per output element
    over all input channels and kernel positions, reads in the padding
    region yielding zero, accumulation in the wide type, then the fused
    normalization and activation. *)

(** A read of the input feature map at [(ic, ih, iw)], zero outside it. *)
Definition padded_input (c : LayerConfig) (input_fm : mem) (ic ih iw : Z) : Z :=
  if (0 <=? ih) && (ih <? in_height c) && (0 <=? iw) && (iw <? in_width c)
  then input_fm (ic * in_height c * in_width c + ih * in_width c + iw)
  else 0.

(** Element [(oc, ic, kh, kw)] of the weight tensor. *)
Definition weight_at (c : LayerConfig) (weights : mem) (oc ic kh kw : Z) : Z :=
  weights (oc * in_channels c * kernel_size c * kernel_size c
           + ic * kernel_size c * kernel_size c + kh * kernel_size c + kw).

(** The products of output element [(oc, oh, ow)] for the input channels
    [ic_lo <= ic < ic_hi], added to [sum]. *)
Definition conv_mac (c : LayerConfig) (input_fm weights : mem)
    (oc oh ow ic_lo ic_hi : Z) (sum : Z) : Z :=
  for_loop ic_lo ic_hi (fun ic sum =>
    for_loop 0 (kernel_size c) (fun kh sum =>
      for_loop 0 (kernel_size c) (fun kw sum =>
        Fixed.mac sum
          (padded_input c input_fm ic (oh * stride c + kh - padding c)
                                      (ow * stride c + kw - padding c))
          (weight_at c weights oc ic kh kw)) sum) sum) sum.

Definition direct_conv (c : LayerConfig) (input_fm weights : mem) (oc oh ow : Z) : Z :=
  conv_mac c input_fm weights oc oh ow 0 (in_channels c) 0.

Definition direct_layer (c : LayerConfig) (input_fm weights bn_scale bn_shift : mem)
    (oc oh ow : Z) : Z :=
  finalize (layer_type c) (bn_scale_val c bn_scale oc) (bn_shift_val c bn_shift oc)
           (direct_conv c input_fm weights oc oh ow).

(** The output tile [(oc_t, oh_t, ow_t)] of a tiling contains [(oc, oh, ow)]. *)
Definition in_tile (t : tiling) (c : LayerConfig) (oc_t oh_t ow_t oc oh ow : Z) : Prop :=
  oc_t * TILE_CH t <= oc < tile_end (oc_t * TILE_CH t) (TILE_CH t) (out_channels c) /\
  oh_t * TILE_H t <= oh < tile_end (oh_t * TILE_H t) (TILE_H t) (out_height c) /\
  ow_t * TILE_W t <= ow < tile_end (ow_t * TILE_W t) (TILE_W t) (out_width c).

(** Tile sizes the platform can hold: positive, and the largest staged
    input window ([tile_idx] at the end of LOAD_INPUT) and weight block fit
    the static buffers [input_tile] and [weight_tile].  The accumulator tile
    fits [acc_tile] for any positive tile sizes. *)
Definition resource_compatible (t : tiling) (c : LayerConfig) : Prop :=
  0 < TILE_H t /\ 0 < TILE_W t /\ 0 < TILE_CH t /\
  Z.min (TILE_CH t) (in_channels c)
    * ((Z.min (TILE_H t) (out_height c) - 1) * stride c + kernel_size c)
    * ((Z.min (TILE_W t) (out_width c) - 1) * stride c + kernel_size c)
    <= INPUT_TILE_SIZE t /\
  Z.min (TILE_CH t) (out_channels c) * Z.min (TILE_CH t) (in_channels c)
    * kernel_size c * kernel_size c <= WEIGHT_BUF_SIZE t.

(** A layer the engine is meant for. *)
Definition valid_layer (c : LayerConfig) : Prop :=
  0 <= layer_type c <= 2 /\
  0 < in_channels c /\ 0 < out_channels c /\
  0 < in_height c /\ 0 < in_width c /\
  0 < kernel_size c /\ 0 < stride c /\ 0 <= padding c /\
  0 < out_height c /\ 0 < out_width c.


(** ** Port-level observations of a run *)

(** The output feature map obtained by performing the logged stores. *)
Definition replay (evs : list event) (m : mem) : mem :=
  fold_left (fun m e => match e with
                        | OutputWrite i v => upd m i v
                        | StatusWrite _ => m
                        end) evs m.

(** The value of the status register after the logged writes, from [s]. *)
Fixpoint status_after (s : Z) (evs : list event) : Z :=
  match evs with
  | [] => s
  | StatusWrite v :: evs' => status_after v evs'
  | OutputWrite _ _ :: evs' => status_after s evs'
  end.

(** The encoding of the status register in [cnn_accelerator_top]. *)
Definition STATUS_RUNNING := 1.
Definition STATUS_DONE := 0.

(** [st'] extends [st] by stores to the output feature map only. *)
Definition only_stores (st st' : engine) : Prop :=
  status st' = status st /\
  exists l, events st' = events st ++ l /\ Forall is_output_write l /\
            output_fm st' = replay l (output_fm st).

(** A run that is refused before it starts leaves no trace on the ports. *)
Definition run_rejected (st st' : engine) : Prop :=
  events st' = events st /\ status st' = status st.

(** ** The fused normalization and activation as the specification words it *)

(** [bn_out = accumulator * scale[oc] + shift[oc]] for every layer kind,
    then identity for conv_only and the shift-by-3 LeakyReLU otherwise. *)
Definition fused_norm_act_spec (layer_kind : Z) (bn_scale bn_shift : mem)
    (oc acc : Z) : Z :=
  let bn_out := Fixed.scale_shift acc (bn_scale oc) (bn_shift oc) in
  if layer_kind =? 2 then Fixed.narrow bn_out
  else if bn_out >? 0 then Fixed.narrow bn_out
  else Fixed.narrow (Z.shiftr bn_out 3).

(** The value WRITE_OUTPUT stores for output channel [oc] and accumulator
    [acc]. *)
Definition fused_norm_act (c : LayerConfig) (bn_scale bn_shift : mem) (oc acc : Z) : Z :=
  finalize (layer_type c) (bn_scale_val c bn_scale oc) (bn_shift_val c bn_shift oc) acc.

(** A value of [acc_t]. *)
Definition is_acc (x : Z) : Prop := - 2 ^ (Fixed.ACC_W - 1) <= x <= 2 ^ (Fixed.ACC_W - 1) - 1.

(** A memory holding the same value everywhere. *)
Definition const_mem (v : Z) : mem := fun _ => v.

(** A memory given by its first elements, zero beyond them. *)
Definition mem_of_list (l : list Z) : mem :=
  fun i => if i <? 0 then 0 else nth (Z.to_nat i) l 0.

(** The engine before its first run: status idle, buffers cleared. *)
Definition engine_reset : engine :=
  mkEngine 0 (const_mem 0) (const_mem 0) (const_mem 0) (const_mem 0) [].


(** ** Vocabulary of the further properties *)

(** A list of raw values that never decreases. *)
Fixpoint nondecreasing (l : list Z) : bool :=
  match l with
  | [] => true
  | x :: l' => match l' with
               | [] => true
               | y :: _ => (x <=? y) && nondecreasing l'
               end
  end.


(** ** Further source functions *)

(** [conv1x1_channel] (conv_layer.cpp): the sum is returned through the
    reference parameter [output]. *)
Definition conv1x1_channel (input weights : mem) (in_channels : Z) : Z :=
  for_loop 0 in_channels (fun ic sum => mac_unit (input ic) (weights ic) sum) 0.

Definition MAX_INPUT_SIZE := 224.

(** [line_buffer_3x3] (conv_layer.cpp) on the pair of its two arrays:
    [window[i][j]] is at [i * 3 + j], [line_buf[r][col]] at
    [r * MAX_INPUT_SIZE + col].  The parameter [width] is not used by the
    source. *)
Definition line_buffer_3x3 (pixel_in col width : Z) (s : mem * mem) : mem * mem :=
  let (window, line_buf) := s in
  (* SHIFT_WINDOW *)
  let window :=
    for_loop 0 3 (fun i window =>
      let window := upd window (i * 3 + 0) (window (i * 3 + 1)) in
      upd window (i * 3 + 1) (window (i * 3 + 2))) window in
  let window := upd window (0 * 3 + 2) (line_buf (0 * MAX_INPUT_SIZE + col)) in
  let window := upd window (1 * 3 + 2) (line_buf (1 * MAX_INPUT_SIZE + col)) in
  let window := upd window (2 * 3 + 2) pixel_in in
  let line_buf := upd line_buf (0 * MAX_INPUT_SIZE + col)
                      (line_buf (1 * MAX_INPUT_SIZE + col)) in
  let line_buf := upd line_buf (1 * MAX_INPUT_SIZE + col) pixel_in in
  (window, line_buf).

(** The pixels of row [r], columns [0 .. n - 1], pushed in order. *)
Definition push_row (img : Z -> Z -> Z) (width r n : Z) (s : mem * mem) : mem * mem :=
  for_loop 0 n (fun x s => line_buffer_3x3 (img r x) x width s) s.

(** Rows [0 .. r - 1] in full, then row [r] up to and including column [c]. *)
Definition push_image (img : Z -> Z -> Z) (width r c : Z) (s : mem * mem) : mem * mem :=
  push_row img width r (c + 1)
           (for_loop 0 r (fun y s => push_row img width y width s) s).

(** [pack_4x16] and [unpack_4x16] (cnn_accel.h).  [d.range(15, 0)] of a
    [data_t] is its 16-bit two's-complement pattern; assigning a range of
    an [ap_uint<64>] replaces those bits. *)
Definition bits16 (d : Z) : Z := Z.land d (Z.ones 16).

Definition data_of_bits16 (u : Z) : Z := if u <? 2 ^ 15 then u else u - 2 ^ 16.

Definition set_range16 (lo v x : Z) : Z :=
  Z.lor (Z.land x (Z.lnot (Z.shiftl (Z.ones 16) lo))) (Z.shiftl v lo).

Definition get_range16 (lo x : Z) : Z := Z.land (Z.shiftr x lo) (Z.ones 16).

(** [uninit] is the indeterminate initial value of the local [packed]. *)
Definition pack_4x16 (uninit d0 d1 d2 d3 : Z) : Z :=
  let packed := uninit in
  let packed := set_range16 0 (bits16 d0) packed in
  let packed := set_range16 16 (bits16 d1) packed in
  let packed := set_range16 32 (bits16 d2) packed in
  set_range16 48 (bits16 d3) packed.

Definition unpack_4x16 (packed : Z) : Z * Z * Z * Z :=
  let tmp0 := get_range16 0 packed in
  let tmp1 := get_range16 16 packed in
  let tmp2 := get_range16 32 packed in
  let tmp3 := get_range16 48 packed in
  (data_of_bits16 tmp0, data_of_bits16 tmp1, data_of_bits16 tmp2, data_of_bits16 tmp3).

(** ** The ARM driver (sw/common/cnn_driver.h, cnn_driver.c) *)

Module Driver.

Definition CNN_ACCEL_CONTROL_BASE := 0x40000000.
Definition CNN_ACCEL_CONTROL_R_BASE := 0x40010000.

Definition DDR_INPUT_FM_ADDR := 0x10000000.
Definition DDR_OUTPUT_FM_ADDR := 0x14000000.
Definition DDR_WEIGHTS_ADDR := 0x18000000.
Definition DDR_BN_SCALE_ADDR := 0x1C000000.
Definition DDR_BN_SHIFT_ADDR := 0x1C010000.

Definition REG_AP_CTRL := 0x00.
Definition REG_LAYER_TYPE := 0x28.
Definition REG_IN_CHANNELS := 0x30.
Definition REG_OUT_CHANNELS := 0x38.
Definition REG_IN_HEIGHT := 0x40.
Definition REG_IN_WIDTH := 0x48.
Definition REG_KERNEL_SIZE := 0x50.
Definition REG_STRIDE := 0x58.
Definition REG_PADDING := 0x60.

Definition REG_INPUT_FM_LO := 0x10.
Definition REG_INPUT_FM_HI := 0x14.
Definition REG_OUTPUT_FM_LO := 0x1C.
Definition REG_OUTPUT_FM_HI := 0x20.
Definition REG_WEIGHTS_LO := 0x28.
Definition REG_WEIGHTS_HI := 0x2C.
Definition REG_BN_SCALE_LO := 0x34.
Definition REG_BN_SCALE_HI := 0x38.
Definition REG_BN_SHIFT_LO := 0x40.
Definition REG_BN_SHIFT_HI := 0x44.

Definition AP_START := 1.

(** A value converted to [uint32_t]. *)
Definition u32 (x : Z) : Z := x mod 2 ^ 32.

(** The memory-mapped registers, by bus address; [Xil_Out32] stores a
    32-bit word. *)
Definition write_reg (base offset value : Z) (regs : mem) : mem :=
  upd regs (u32 (base + offset)) (u32 value).

Definition read_reg (base offset : Z) (regs : mem) : Z :=
  regs (u32 (base + offset)).

Definition cnn_accel_configure_layer (cfg : LayerConfig) (regs : mem) : mem :=
  let regs := write_reg CNN_ACCEL_CONTROL_BASE REG_LAYER_TYPE (layer_type cfg) regs in
  let regs := write_reg CNN_ACCEL_CONTROL_BASE REG_IN_CHANNELS (in_channels cfg) regs in
  let regs := write_reg CNN_ACCEL_CONTROL_BASE REG_OUT_CHANNELS (out_channels cfg) regs in
  let regs := write_reg CNN_ACCEL_CONTROL_BASE REG_IN_HEIGHT (in_height cfg) regs in
  let regs := write_reg CNN_ACCEL_CONTROL_BASE REG_IN_WIDTH (in_width cfg) regs in
  let regs := write_reg CNN_ACCEL_CONTROL_BASE REG_KERNEL_SIZE (kernel_size cfg) regs in
  let regs := write_reg CNN_ACCEL_CONTROL_BASE REG_STRIDE (stride cfg) regs in
  write_reg CNN_ACCEL_CONTROL_BASE REG_PADDING (padding cfg) regs.

Definition cnn_accel_set_addresses
    (input_addr output_addr weights_addr bn_scale_addr bn_shift_addr : Z)
    (regs : mem) : mem :=
  let regs := write_reg CNN_ACCEL_CONTROL_R_BASE REG_INPUT_FM_LO input_addr regs in
  let regs := write_reg CNN_ACCEL_CONTROL_R_BASE REG_INPUT_FM_HI 0 regs in
  let regs := write_reg CNN_ACCEL_CONTROL_R_BASE REG_OUTPUT_FM_LO output_addr regs in
  let regs := write_reg CNN_ACCEL_CONTROL_R_BASE REG_OUTPUT_FM_HI 0 regs in
  let regs := write_reg CNN_ACCEL_CONTROL_R_BASE REG_WEIGHTS_LO weights_addr regs in
  let regs := write_reg CNN_ACCEL_CONTROL_R_BASE REG_WEIGHTS_HI 0 regs in
  let regs := write_reg CNN_ACCEL_CONTROL_R_BASE REG_BN_SCALE_LO bn_scale_addr regs in
  let regs := write_reg CNN_ACCEL_CONTROL_R_BASE REG_BN_SCALE_HI 0 regs in
  let regs := write_reg CNN_ACCEL_CONTROL_R_BASE REG_BN_SHIFT_LO bn_shift_addr regs in
  write_reg CNN_ACCEL_CONTROL_R_BASE REG_BN_SHIFT_HI 0 regs.

Definition cnn_accel_start (regs : mem) : mem :=
  write_reg CNN_ACCEL_CONTROL_BASE REG_AP_CTRL AP_START regs.

(** The register writes of [cnn_accel_run_layer], in program order (its
    two polling loops read the hardware and write nothing). *)
Definition run_layer_writes (cfg : LayerConfig)
    (input_addr output_addr weights_addr bn_scale_addr bn_shift_addr : Z)
    (regs : mem) : mem :=
  cnn_accel_start
    (cnn_accel_set_addresses input_addr output_addr weights_addr bn_scale_addr
       bn_shift_addr (cnn_accel_configure_layer cfg regs)).

(** The table [yolo_lite_layers]. *)
Definition yolo_lite_layers : list LayerConfig :=
  [ mkLayer 1 3 16 224 224 3 1 1;
    mkLayer 1 16 32 112 112 3 1 1;
    mkLayer 1 32 64 56 56 3 1 1;
    mkLayer 1 64 128 28 28 3 1 1;
    mkLayer 0 128 256 14 14 3 1 1;
    mkLayer 1 256 512 14 14 3 1 1;
    mkLayer 2 512 125 7 7 1 1 0 ].

(** One call of [cnn_accel_run_layer]. *)
Record layer_call := mkCall {
  call_cfg : LayerConfig;
  call_input : Z;
  call_output : Z;
  call_weights : Z;
  call_bn_scale : Z;
  call_bn_shift : Z
}.

(** The local variables of [cnn_accel_run_yolo_lite], and the calls made. *)
Record yolo_state := mkYolo {
  current_input : Z;
  current_output : Z;
  weight_ptr : Z;
  bn_scale_ptr : Z;
  bn_shift_ptr : Z;
  calls : list layer_call
}.

(** The body of the layer loop. *)
Definition yolo_layer_step (s : yolo_state) (l : LayerConfig) : yolo_state :=
  let weight_size := in_channels l * out_channels l * kernel_size l * kernel_size l * 2 in
  let bn_size := out_channels l * 2 in
  let call := mkCall l (current_input s) (current_output s) (weight_ptr s)
                     (bn_scale_ptr s) (bn_shift_ptr s) in
  mkYolo (current_output s) (current_input s)
         (u32 (weight_ptr s + weight_size))
         (u32 (bn_scale_ptr s + bn_size))
         (u32 (bn_shift_ptr s + bn_size))
         (calls s ++ [call]).

(** [cnn_accel_run_yolo_lite] over a layer table ([yolo_lite_layers] in
    the source); [output_addr] is not used by the source. *)
Definition cnn_accel_run_yolo_lite (layers : list LayerConfig)
    (image_addr output_addr : Z) : yolo_state :=
  fold_left yolo_layer_step layers
    (mkYolo (u32 image_addr) DDR_OUTPUT_FM_ADDR DDR_WEIGHTS_ADDR
            DDR_BN_SCALE_ADDR DDR_BN_SHIFT_ADDR []).

(** The values of the locals [weight_size] and [bn_size] for a layer. *)
Definition weight_size (l : LayerConfig) : Z :=
  in_channels l * out_channels l * kernel_size l * kernel_size l * 2.

Definition bn_size (l : LayerConfig) : Z := out_channels l * 2.

(** The bytes taken by the first [n] layers of a table. *)
Definition bytes_before (size : LayerConfig -> Z) (layers : list LayerConfig)
    (n : nat) : Z :=
  fold_right Z.add 0 (map size (firstn n layers)).

(** The register addresses written by [cnn_accel_run_layer]. *)
Definition run_layer_registers : list Z :=
  map (fun offset => u32 (CNN_ACCEL_CONTROL_BASE + offset))
      [REG_AP_CTRL; REG_LAYER_TYPE; REG_IN_CHANNELS; REG_OUT_CHANNELS; REG_IN_HEIGHT;
       REG_IN_WIDTH; REG_KERNEL_SIZE; REG_STRIDE; REG_PADDING]
  ++ map (fun offset => u32 (CNN_ACCEL_CONTROL_R_BASE + offset))
      [REG_INPUT_FM_LO; REG_INPUT_FM_HI; REG_OUTPUT_FM_LO; REG_OUTPUT_FM_HI;
       REG_WEIGHTS_LO; REG_WEIGHTS_HI; REG_BN_SCALE_LO; REG_BN_SCALE_HI;
       REG_BN_SHIFT_LO; REG_BN_SHIFT_HI].

(** The feature map a layer leaves for the next one: channels, height,
    width, after pooling if the layer pools. *)
Definition layer_output_shape (l : LayerConfig) : Z * Z * Z :=
  if layer_type l =? 1
  then (out_channels l, Z.quot (out_height l) 2, Z.quot (out_width l) 2)
  else (out_channels l, out_height l, out_width l).

Definition layer_input_shape (l : LayerConfig) : Z * Z * Z :=
  (in_channels l, in_height l, in_width l).

End Driver.


(** The exact sum of the [n] elements of channel [c]. *)
Definition channel_sum (input : mem) (c n : Z) : Z :=
  for_loop 0 n (fun i s => s + input (c * n + i)) 0.


(** The buffers after the first [c] pixels [P] of a row, from a state
    whose line buffers hold the rows [A] (newer) and [B] (older). *)
Definition row_state (P A B : Z -> Z) (width c : Z) (s : mem * mem) : Prop :=
  (forall x, 0 <= x < width ->
     snd s (MAX_INPUT_SIZE + x) = (if x <? c then P x else A x) /\
     snd s x = (if x <? c then A x else B x)) /\
  (forall k, 1 <= k <= 3 -> k <= c ->
     fst s (3 - k) = B (c - k) /\ fst s (6 - k) = A (c - k) /\ fst s (9 - k) = P (c - k)).


(** The exact dot product of the first [n] elements of two arrays, and
    the sum of the absolute values of the first [n] elements of one. *)
Definition dot (n : Z) (a b : mem) : Z :=
  for_loop 0 n (fun k s => s + a k * b k) 0.

Definition abs_sum (n : Z) (a : mem) : Z :=
  for_loop 0 n (fun k s => s + Z.abs (a k)) 0.


(** ** The parts of [conv2d_hw] *)

(** LOAD_WEIGHTS of one pair of tiles. *)
Definition conv2d_load_weights (weights : mem)
    (in_ch kernel oc_tile ic_tile oc_n ic_n : Z) (st : conv_state) : conv_state :=
  for_loop 0 oc_n (fun oc st =>
    for_loop 0 ic_n (fun ic st =>
      for_loop 0 kernel (fun kh st =>
        for_loop 0 kernel (fun kw st =>
          let w_idx := (oc_tile + oc) * in_ch * kernel * kernel
                       + (ic_tile + ic) * kernel * kernel
                       + kh * kernel + kw in
          mkConv (upd (weight_buf st) (weight_buf_idx oc ic kh kw) (weights w_idx))
                 (acc_buf st) (conv_output st)) st) st) st) st.

(** LOAD_WINDOW at output pixel [(oh, ow)] for input channel [ch]. *)
Definition conv2d_load_window (uninit input : mem)
    (in_h in_w kernel stride pad ch oh ow : Z) : mem :=
  for_loop 0 kernel (fun kh win =>
    for_loop 0 kernel (fun kw win =>
      let ih := oh * stride + kh - pad in
      let iw := ow * stride + kw - pad in
      if (0 <=? ih) && (ih <? in_h) && (0 <=? iw) && (iw <? in_w) then
        upd win (kh * 3 + kw) (input (ch * in_h * in_w + ih * in_w + iw))
      else upd win (kh * 3 + kw) 0) win) uninit.

(** The body of COL_LOOP: INIT_ACC, IC_COMPUTE and WRITE_OUTPUT at one
    output pixel. *)
Definition conv2d_pixel (uninit input : mem)
    (in_ch in_h in_w kernel stride pad out_h out_w oc_tile ic_tile oc_n ic_n oh ow : Z)
    (st : conv_state) : conv_state :=
  let st :=
    if ic_tile =? 0 then
      for_loop 0 PARALLEL_OUT_CH (fun oc st =>
        mkConv (weight_buf st) (upd (acc_buf st) oc 0) (conv_output st)) st
    else st in
  let st :=
    for_loop 0 ic_n (fun ic st =>
      let local_window :=
        conv2d_load_window uninit input in_h in_w kernel stride pad (ic_tile + ic) oh ow in
      for_loop 0 oc_n (fun oc st =>
        let partial :=
          conv_3x3_kernel local_window
            (fun j => weight_buf st (weight_buf_idx oc ic 0 0 + j)) in
        mkConv (weight_buf st)
               (upd (acc_buf st) oc (Fixed.acc_add (acc_buf st oc) partial))
               (conv_output st)) st) st in
  if ic_tile + PARALLEL_IN_CH >=? in_ch then
    for_loop 0 oc_n (fun oc st =>
      let out_idx := (oc_tile + oc) * out_h * out_w + oh * out_w + ow in
      mkConv (weight_buf st) (acc_buf st)
             (upd (conv_output st) out_idx (Fixed.narrow (acc_buf st oc)))) st
  else st.

(** The 3x3 window of input channel [ic] around output pixel [(oh, ow)],
    zero outside the feature map, and the 3x3 kernel of the pair
    [(oc, ic)]. *)
Definition conv_window (input : mem) (in_h in_w stride pad ic oh ow : Z) : mem :=
  fun j =>
    let ih := oh * stride + j / 3 - pad in
    let iw := ow * stride + j mod 3 - pad in
    if (0 <=? ih) && (ih <? in_h) && (0 <=? iw) && (iw <? in_w)
    then input (ic * in_h * in_w + ih * in_w + iw)
    else 0.

Definition conv_kernel_at (weights : mem) (in_ch oc ic : Z) : mem :=
  fun j => weights (oc * in_ch * 3 * 3 + ic * 3 * 3 + j).

(** The sum of the per-channel 3x3 results of output element
    [(oc, oh, ow)], narrowed. *)
Definition conv2d_element (input weights : mem)
    (in_ch in_h in_w stride pad oc oh ow : Z) : Z :=
  Fixed.narrow
    (for_loop 0 in_ch (fun ic acc =>
       Fixed.acc_add acc
         (conv_3x3_kernel (conv_window input in_h in_w stride pad ic oh ow)
                          (conv_kernel_at weights in_ch oc ic))) 0).


(** The exact convolution sum of output element [(oc, oh, ow)] of a 3x3
    layer, and the sum of the absolute weights of output channel [oc]. *)
Definition conv_exact (input weights : mem)
    (in_ch in_h in_w stride pad oc oh ow : Z) : Z :=
  for_loop 0 in_ch (fun ic s =>
    s + dot 9 (conv_window input in_h in_w stride pad ic oh ow)
              (conv_kernel_at weights in_ch oc ic)) 0.

Definition kernel_abs_sum (weights : mem) (in_ch oc : Z) : Z :=
  for_loop 0 in_ch (fun ic s => s + abs_sum 9 (conv_kernel_at weights in_ch oc ic)) 0.


(** The three on-chip buffers of [st'] differ from those of [st] only
    inside their declared sizes. *)
Definition buffers_within (t : tiling) (st st' : engine) : Prop :=
  (forall j, ~ 0 <= j < INPUT_TILE_SIZE t -> input_tile st' j = input_tile st j) /\
  (forall j, ~ 0 <= j < WEIGHT_BUF_SIZE t -> weight_tile st' j = weight_tile st j) /\
  (forall j, ~ 0 <= j < OUTPUT_TILE_SIZE t -> acc_tile st' j = acc_tile st j).

(* ================================================================== *)
(** * Reasoning about loops *)

Section LoopFacts.

Lemma in_zseq (n : nat) : forall lo x,
  In x (zseq lo n) <-> lo <= x < lo + Z.of_nat n.
Proof.
  induction n as [|n IH]; intros lo x; simpl.
  - lia.
  - rewrite IH. lia.
Qed.

Lemma in_zrange lo hi x : In x (zrange lo hi) <-> lo <= x < hi.
Proof. unfold zrange. rewrite in_zseq. lia. Qed.

Lemma length_zseq (n : nat) : forall lo, length (zseq lo n) = n.
Proof. induction n; intros; simpl; auto. Qed.

Lemma length_zrange lo hi : length (zrange lo hi) = Z.to_nat (hi - lo).
Proof. apply length_zseq. Qed.

Lemma zseq_snoc (n : nat) : forall lo,
  zseq lo (S n) = zseq lo n ++ [lo + Z.of_nat n].
Proof.
  induction n as [|n IH]; intros lo.
  - simpl. f_equal. lia.
  - change (zseq lo (S (S n))) with (lo :: zseq (lo + 1) (S n)).
    rewrite IH. simpl. do 3 f_equal. lia.
Qed.

Lemma zseq_app (n m : nat) : forall lo,
  zseq lo (n + m) = zseq lo n ++ zseq (lo + Z.of_nat n) m.
Proof.
  induction n as [|n IH]; intros lo.
  - simpl. f_equal. lia.
  - simpl zseq at 1. change (S n + m)%nat with (S (n + m)). simpl.
    rewrite IH. do 3 f_equal. lia.
Qed.

Lemma zrange_empty lo hi : hi <= lo -> zrange lo hi = [].
Proof.
  intros H. unfold zrange. replace (Z.to_nat (hi - lo)) with O by lia. reflexivity.
Qed.

Lemma zrange_split lo mid hi :
  lo <= mid <= hi -> zrange lo hi = zrange lo mid ++ zrange mid hi.
Proof.
  intros H. unfold zrange.
  replace (Z.to_nat (hi - lo)) with (Z.to_nat (mid - lo) + Z.to_nat (hi - mid))%nat by lia.
  rewrite zseq_app. do 2 f_equal. lia.
Qed.

Lemma zrange_snoc lo hi : lo <= hi -> zrange lo (hi + 1) = zrange lo hi ++ [hi].
Proof.
  intros H. rewrite (zrange_split lo hi (hi + 1)) by lia. f_equal.
  unfold zrange. replace (Z.to_nat (hi + 1 - hi)) with 1%nat by lia. reflexivity.
Qed.

Lemma nth_error_zseq (n : nat) : forall lo (i : nat),
  (i < n)%nat -> nth_error (zseq lo n) i = Some (lo + Z.of_nat i).
Proof.
  induction n as [|n IH]; intros lo i Hi; [lia|].
  destruct i as [|i]; simpl.
  - f_equal. lia.
  - rewrite IH by lia. f_equal. lia.
Qed.

Context {S : Type}.

Lemma for_loop_empty lo hi (body : Z -> S -> S) s :
  hi <= lo -> for_loop lo hi body s = s.
Proof. intros H. unfold for_loop. rewrite zrange_empty by assumption. reflexivity. Qed.

Lemma for_loop_split lo mid hi (body : Z -> S -> S) s :
  lo <= mid <= hi ->
  for_loop lo hi body s = for_loop mid hi body (for_loop lo mid body s).
Proof.
  intros H. unfold for_loop. rewrite (zrange_split lo mid hi H).
  apply fold_left_app.
Qed.

Lemma for_loop_snoc lo hi (body : Z -> S -> S) s :
  lo <= hi -> for_loop lo (hi + 1) body s = body hi (for_loop lo hi body s).
Proof.
  intros H. unfold for_loop. rewrite zrange_snoc by assumption.
  rewrite fold_left_app. reflexivity.
Qed.

Lemma fold_left_ext_in {K} (f g : S -> K -> S) (l : list K) : forall s,
  (forall k s, In k l -> f s k = g s k) -> fold_left f l s = fold_left g l s.
Proof.
  induction l as [|k l IH]; intros s H; simpl; [reflexivity|].
  rewrite (H k s) by (left; reflexivity).
  apply IH. intros; apply H; right; assumption.
Qed.

Lemma for_loop_ext lo hi (body body' : Z -> S -> S) s :
  (forall i s, lo <= i < hi -> body i s = body' i s) ->
  for_loop lo hi body s = for_loop lo hi body' s.
Proof.
  intros H. unfold for_loop. apply fold_left_ext_in.
  intros k s' Hk. apply H. apply in_zrange. assumption.
Qed.

Lemma zseq_shift (n : nat) : forall lo d,
  zseq (lo + d) n = map (fun i => i + d) (zseq lo n).
Proof.
  induction n as [|n IH]; intros lo d; simpl; [reflexivity|].
  f_equal. replace (lo + d + 1) with (lo + 1 + d) by lia. apply IH.
Qed.

Lemma fold_left_map {K K'} (f : S -> K' -> S) (g : K -> K') (l : list K) : forall s,
  fold_left f (map g l) s = fold_left (fun s k => f s (g k)) l s.
Proof. induction l; intros; simpl; auto. Qed.

Lemma for_loop_shift lo hi d (body : Z -> S -> S) s :
  for_loop (lo + d) (hi + d) body s = for_loop lo hi (fun i => body (i + d)) s.
Proof.
  unfold for_loop, zrange.
  replace (hi + d - (lo + d)) with (hi - lo) by lia.
  rewrite zseq_shift, fold_left_map. reflexivity.
Qed.

(** Two nested loops with independent bounds run over the product of
    their ranges, in lexicographic order. *)
Lemma fold_left_list_prod {A B} (body : A -> B -> S -> S) (l1 : list A) (l2 : list B) :
  forall s,
  fold_left (fun s a => fold_left (fun s b => body a b s) l2 s) l1 s
  = fold_left (fun s p => body (fst p) (snd p) s) (list_prod l1 l2) s.
Proof.
  induction l1 as [|a l1 IH]; intros s; simpl; [reflexivity|].
  rewrite fold_left_app, fold_left_map. simpl. apply IH.
Qed.

Lemma for_loop_nest2 a1 b1 a2 b2 (body : Z -> Z -> S -> S) s :
  for_loop a1 b1 (fun i s => for_loop a2 b2 (fun j s => body i j s) s) s
  = fold_left (fun s p => body (fst p) (snd p) s)
              (list_prod (zrange a1 b1) (zrange a2 b2)) s.
Proof. unfold for_loop. apply fold_left_list_prod. Qed.

Lemma for_loop_nest3 a1 b1 a2 b2 a3 b3 (body : Z -> Z -> Z -> S -> S) s :
  for_loop a1 b1 (fun i s =>
    for_loop a2 b2 (fun j s => for_loop a3 b3 (fun k s => body i j k s) s) s) s
  = fold_left (fun s p => body (fst p) (fst (snd p)) (snd (snd p)) s)
      (list_prod (zrange a1 b1) (list_prod (zrange a2 b2) (zrange a3 b3))) s.
Proof.
  unfold for_loop.
  rewrite <- (fold_left_list_prod
                (fun i (p : Z * Z) s => body i (fst p) (snd p) s)).
  apply fold_left_ext_in. intros i s' _.
  apply (fold_left_list_prod (fun j k s => body i j k s)).
Qed.

End LoopFacts.

(* ================================================================== *)
(** * Reasoning about array writes *)

Lemma upd_same m i v : upd m i v i = v.
Proof. unfold upd. rewrite Z.eqb_refl. reflexivity. Qed.

Lemma upd_other m i v j : j <> i -> upd m i v j = m j.
Proof. intros H. unfold upd. apply Z.eqb_neq in H. rewrite H. reflexivity. Qed.


Section WriteLoops.

Context {K : Type}.
Variable w : K -> Z.
Variable val : K -> mem -> Z.

Lemma write_loop_cons k keys m :
  write_loop w val (k :: keys) m = write_loop w val keys (upd m (w k) (val k m)).
Proof. reflexivity. Qed.

Lemma write_loop_frame keys : forall m j,
  (forall k, In k keys -> w k <> j) -> write_loop w val keys m j = m j.
Proof.
  induction keys as [|k keys IH]; intros m j H; [reflexivity|].
  rewrite write_loop_cons, IH by (intros; apply H; right; assumption).
  apply upd_other. intros E. apply (H k); [left; reflexivity | symmetry; assumption].
Qed.

(** When the written index increases and the value written at [w k] reads
    the array only at indices [>= w k], every write sees the initial
    array: the loop may safely run in place. *)
Lemma write_loop_increasing keys : forall m,
  increasing w keys ->
  (forall k m1 m2, In k keys ->
     (forall j, w k <= j -> m1 j = m2 j) -> val k m1 = val k m2) ->
  forall k, In k keys -> write_loop w val keys m (w k) = val k m.
Proof.
  induction keys as [|k0 keys IH]; intros m Hs Hv k Hin; [destruct Hin|].
  apply StronglySorted_inv in Hs. destruct Hs as [Hs Hall].
  rewrite Forall_forall in Hall.
  rewrite write_loop_cons. destruct Hin as [->|Hin].
  - rewrite write_loop_frame.
    + apply upd_same.
    + intros k' Hk'. specialize (Hall k' Hk'). lia.
  - rewrite IH; auto.
    + apply Hv; [right; assumption|].
      intros j Hj. apply upd_other. specialize (Hall k Hin). lia.
    + intros; apply Hv; auto. right; assumption.
Qed.

End WriteLoops.

Section Sortedness.

Lemma StronglySorted_app {A} (R : A -> A -> Prop) (l1 l2 : list A) :
  StronglySorted R l1 -> StronglySorted R l2 ->
  (forall x y, In x l1 -> In y l2 -> R x y) ->
  StronglySorted R (l1 ++ l2).
Proof.
  induction l1 as [|a l1 IH]; intros H1 H2 H; simpl; [assumption|].
  apply StronglySorted_inv in H1. destruct H1 as [H1 Ha].
  constructor.
  - apply IH; auto. intros; apply H; auto. right; assumption.
  - rewrite Forall_forall in *. intros x Hx. apply in_app_or in Hx.
    destruct Hx; [auto | apply H; auto; left; reflexivity].
Qed.

Lemma StronglySorted_map {A B} (R : B -> B -> Prop) (f : A -> B) (l : list A) :
  StronglySorted (fun x y => R (f x) (f y)) l -> StronglySorted R (map f l).
Proof.
  induction 1; simpl; constructor; auto.
  rewrite Forall_forall in *. intros y Hy. apply in_map_iff in Hy.
  destruct Hy as (x & <- & Hx). auto.
Qed.

Lemma StronglySorted_zseq (R : Z -> Z -> Prop) (n : nat) : forall lo,
  (forall i j, lo <= i -> i < j -> j < lo + Z.of_nat n -> R i j) ->
  StronglySorted R (zseq lo n).
Proof.
  induction n as [|n IH]; intros lo H; simpl; constructor.
  - apply IH. intros; apply H; lia.
  - rewrite Forall_forall. intros j Hj. apply in_zseq in Hj. apply H; lia.
Qed.

Lemma increasing_zrange (w : Z -> Z) lo hi :
  (forall i j, lo <= i -> i < j -> j < hi -> w i < w j) ->
  increasing w (zrange lo hi).
Proof.
  intros H. apply StronglySorted_zseq. intros; apply H; lia.
Qed.

(** Lexicographic order on a product of ranges. *)
Lemma increasing_list_prod {A B} (w : A * B -> Z) (l1 : list A) (l2 : list B) :
  (forall a, In a l1 -> increasing (fun b => w (a, b)) l2) ->
  StronglySorted (fun a a' => forall b b', In b l2 -> In b' l2 -> w (a, b) < w (a', b')) l1 ->
  increasing w (list_prod l1 l2).
Proof.
  induction l1 as [|a l1 IH]; intros Hin Hs; simpl; [constructor|].
  apply StronglySorted_inv in Hs. destruct Hs as [Hs Ha].
  apply StronglySorted_app.
  - apply StronglySorted_map. apply (Hin a). left; reflexivity.
  - apply IH; auto. intros; apply Hin; right; assumption.
  - intros x y Hx Hy. apply in_map_iff in Hx. destruct Hx as (b & <- & Hb).
    destruct y as [a' b']. apply in_prod_iff in Hy. destruct Hy as [Ha' Hb'].
    rewrite Forall_forall in Ha. apply Ha; assumption.
Qed.

End Sortedness.

(** ** Row-major indices *)

Section RowMajor.

(** [q * n + r] orders pairs lexicographically when [0 <= r < n]. *)
Lemma radix_lt n q r q' r' :
  0 < n -> 0 <= r -> r' < n -> q < q' -> q * n + r' < q' * n + r.
Proof.
  intros Hn Hr Hr' Hq.
  assert (0 <= (q' - q - 1) * n) by (apply Z.mul_nonneg_nonneg; lia).
  lia.
Qed.

Lemma radix_inj n q r q' r' :
  0 <= r < n -> 0 <= r' < n -> q * n + r = q' * n + r' -> q = q' /\ r = r'.
Proof.
  intros Hr Hr' H.
  assert (q = q').
  { destruct (Z.lt_total q q') as [L | [E | L]]; [exfalso | exact E | exfalso].
    - pose proof (radix_lt n q r' q' r). lia.
    - pose proof (radix_lt n q' r q r'). lia. }
  subst. lia.
Qed.

Lemma idx3_radix h w a b c : idx3 h w a b c = (a * h + b) * w + c.
Proof. unfold idx3. ring. Qed.

Lemma idx3_lt h w a b c a' b' c' :
  0 <= b < h -> 0 <= b' < h -> 0 <= c < w -> 0 <= c' < w ->
  a < a' \/ (a = a' /\ (b < b' \/ (b = b' /\ c < c'))) ->
  idx3 h w a b c < idx3 h w a' b' c'.
Proof.
  intros Hb Hb' Hc Hc' H. rewrite !idx3_radix.
  destruct H as [H | [-> [H | [-> H]]]].
  - apply radix_lt; try lia.
    pose proof (radix_lt h a b' a' b). lia.
  - apply radix_lt; lia.
  - lia.
Qed.

Lemma idx3_inj h w a b c a' b' c' :
  0 <= b < h -> 0 <= b' < h -> 0 <= c < w -> 0 <= c' < w ->
  idx3 h w a b c = idx3 h w a' b' c' -> a = a' /\ b = b' /\ c = c'.
Proof.
  intros Hb Hb' Hc Hc' H. rewrite !idx3_radix in H.
  apply radix_inj in H; try lia. destruct H as [H ->].
  apply radix_inj in H; try lia.
Qed.

Lemma idx3_bounds h w n a b c :
  0 <= a < n -> 0 <= b < h -> 0 <= c < w -> 0 <= idx3 h w a b c < n * h * w.
Proof.
  intros Ha Hb Hc. rewrite idx3_radix.
  assert (0 <= a * h) by (apply Z.mul_nonneg_nonneg; lia).
  assert (a * h + b < n * h).
  { pose proof (radix_lt h a 0 n b). lia. }
  assert (0 <= (a * h + b) * w) by (apply Z.mul_nonneg_nonneg; lia).
  pose proof (radix_lt w (a * h + b) 0 (n * h) c). lia.
Qed.

(** Three nested loops over [zrange]s visit row-major indices in
    increasing order (offsets [o1 o2 o3] shift a tile into the tensor). *)
Lemma increasing_idx3 h w o1 o2 o3 a1 b1 a2 b2 a3 b3 :
  0 <= o2 + a2 -> o2 + b2 <= h -> 0 <= o3 + a3 -> o3 + b3 <= w ->
  increasing (fun p : Z * (Z * Z) =>
                idx3 h w (o1 + fst p) (o2 + fst (snd p)) (o3 + snd (snd p)))
             (list_prod (zrange a1 b1) (list_prod (zrange a2 b2) (zrange a3 b3))).
Proof.
  intros H2 H2' H3 H3'.
  apply increasing_list_prod.
  - intros a _. apply increasing_list_prod.
    + intros b Hb. apply in_zrange in Hb. apply increasing_zrange.
      intros i j Hi Hij Hj. simpl. apply idx3_lt; lia.
    + apply StronglySorted_zseq. intros i j Hi Hij Hj c c' Hc Hc'.
      apply in_zrange in Hc, Hc'. simpl. apply idx3_lt; lia.
  - apply StronglySorted_zseq. intros i j Hi Hij Hj p p' Hp Hp'.
    destruct p as [b c], p' as [b' c'].
    apply in_prod_iff in Hp, Hp'. rewrite !in_zrange in Hp, Hp'.
    simpl. apply idx3_lt; lia.
Qed.

End RowMajor.

(* ================================================================== *)
(** * Stores of the engine to the output feature map *)


Section StoreLoops.

Context {K : Type}.
Variable w : K -> Z.
(** The stored value may read the accumulator tile and the output map. *)
Variable val : K -> mem -> mem -> Z.

Lemma store_loop_cons k keys st :
  store_loop w val (k :: keys) st
  = store_loop w val keys (store_output (w k) (val k (acc_tile st) (output_fm st)) st).
Proof. reflexivity. Qed.

Lemma store_loop_spec keys : forall st,
  status (store_loop w val keys st) = status st /\
  input_tile (store_loop w val keys st) = input_tile st /\
  weight_tile (store_loop w val keys st) = weight_tile st /\
  acc_tile (store_loop w val keys st) = acc_tile st /\
  output_fm (store_loop w val keys st)
    = write_loop w (fun k m => val k (acc_tile st) m) keys (output_fm st) /\
  exists l, events (store_loop w val keys st) = events st ++ l /\
            Forall is_output_write l /\ length l = length keys.
Proof.
  induction keys as [|k keys IH]; intros st.
  - simpl. repeat split. exists []. rewrite app_nil_r. auto.
  - rewrite store_loop_cons.
    destruct (IH (store_output (w k) (val k (acc_tile st) (output_fm st)) st))
      as (H1 & H2 & H3 & H4 & H5 & l & H6 & H7 & H8).
    rewrite H1, H2, H3, H4, H5, H6. simpl. repeat split.
    exists (OutputWrite (w k) (val k (acc_tile st) (output_fm st)) :: l).
    rewrite <- app_assoc. simpl. repeat split; auto.
    constructor; simpl; auto.
Qed.

End StoreLoops.

(* ================================================================== *)
(** * Max pooling *)

Section MaxPool.

Lemma max4_hw_max a b c d : max4_hw a b c d = Z.max (Z.max a b) (Z.max c d).
Proof.
  unfold max4_hw.
  destruct (Z.gtb_spec a b), (Z.gtb_spec c d);
    match goal with |- context [?x >? ?y] => destruct (Z.gtb_spec x y) end; lia.
Qed.


Lemma in_pool_keys channels in_h in_w c ph pw :
  In (c, (ph, pw)) (pool_keys channels in_h in_w) <->
  0 <= c < channels /\ 0 <= ph < Z.quot in_h 2 /\ 0 <= pw < Z.quot in_w 2.
Proof.
  unfold pool_keys. rewrite !in_prod_iff, !in_zrange. tauto.
Qed.

Lemma pool_keys_increasing channels in_h in_w :
  increasing (pool_idx in_h in_w) (pool_keys channels in_h in_w).
Proof.
  unfold pool_idx, pool_keys.
  pose proof (increasing_idx3 (Z.quot in_h 2) (Z.quot in_w 2) 0 0 0
                0 channels 0 (Z.quot in_h 2) 0 (Z.quot in_w 2)) as H.
  simpl in H. apply H; lia.
Qed.

Lemma maxpool2d_hw_write_loop input output channels in_h in_w :
  maxpool2d_hw input output channels in_h in_w
  = write_loop (pool_idx in_h in_w)
      (fun p _ => pool_window input in_h in_w (fst p) (fst (snd p)) (snd (snd p)))
      (pool_keys channels in_h in_w) output.
Proof.
  unfold maxpool2d_hw. cbv zeta. rewrite for_loop_nest3.
  unfold write_loop, pool_keys. apply fold_left_ext_in.
  intros [c [oh ow]] m _. unfold pool_idx, pool_window, idx3. cbn [fst snd].
  f_equal. f_equal; f_equal; ring.
Qed.

Lemma POOL_LOOP_store_loop c st :
  POOL_LOOP c st
  = store_loop (pool_idx (out_height c) (out_width c))
      (fun p _ m => pool_window m (out_height c) (out_width c)
                      (fst p) (fst (snd p)) (snd (snd p)))
      (pool_keys (out_channels c) (out_height c) (out_width c)) st.
Proof.
  unfold POOL_LOOP. cbv zeta. rewrite for_loop_nest3.
  unfold store_loop, pool_keys. apply fold_left_ext_in.
  intros [ch [ph pw]] s _. unfold pool_idx, pool_window, idx3, max4_hw.
  cbn [fst snd acc_tile output_fm]. f_equal.
  replace (ch * out_height c * out_width c + 2 * ph * out_width c + 2 * pw)
    with (ch * out_height c * out_width c + ph * 2 * out_width c + pw * 2) by ring.
  replace (ch * out_height c * out_width c + 2 * ph * out_width c + (2 * pw + 1))
    with (ch * out_height c * out_width c + ph * 2 * out_width c + pw * 2 + 1) by ring.
  replace (ch * out_height c * out_width c + (2 * ph + 1) * out_width c + 2 * pw)
    with (ch * out_height c * out_width c + ph * 2 * out_width c + pw * 2
          + out_width c) by ring.
  replace (ch * out_height c * out_width c + (2 * ph + 1) * out_width c + (2 * pw + 1))
    with (ch * out_height c * out_width c + ph * 2 * out_width c + pw * 2
          + out_width c + 1) by ring.
  reflexivity.
Qed.

(** C division by two, for a quotient that lets a loop body run. *)
Lemma quot2_bounds h : 0 < Z.quot h 2 -> 0 <= 2 * Z.quot h 2 <= h.
Proof.
  intros H.
  assert (0 <= h).
  { destruct (Z.lt_ge_cases h 0) as [L|L]; [|lia].
    assert (E : Z.quot (- h) 2 = - Z.quot h 2) by (apply Z.quot_opp_l; lia).
    assert (0 <= Z.quot (- h) 2) by (apply Z.quot_pos; lia). lia. }
  rewrite Z.quot_div_nonneg in * by lia.
  pose proof (Z.mul_div_le h 2 ltac:(lia)). lia.
Qed.

(** A pooling window lies at or above the index its maximum is written to. *)
Lemma pool_window_above h w c ph pw :
  0 <= c -> 0 <= ph < Z.quot h 2 -> 0 <= pw < Z.quot w 2 ->
  idx3 (Z.quot h 2) (Z.quot w 2) c ph pw <= idx3 h w c (2 * ph) (2 * pw).
Proof.
  intros Hc Hph Hpw.
  assert (Hh : 0 <= 2 * Z.quot h 2 <= h) by (apply quot2_bounds; lia).
  assert (Hw : 0 <= 2 * Z.quot w 2 <= w) by (apply quot2_bounds; lia).
  unfold idx3.
  set (H2 := Z.quot h 2) in *. set (W2 := Z.quot w 2) in *.
  assert (E1 : H2 * W2 <= h * w) by (apply Z.mul_le_mono_nonneg; lia).
  assert (E2 : c * (H2 * W2) <= c * (h * w)) by (apply Z.mul_le_mono_nonneg_l; lia).
  assert (E3 : ph * W2 <= ph * w) by (apply Z.mul_le_mono_nonneg_l; lia).
  assert (E4 : 0 <= ph * w) by (apply Z.mul_nonneg_nonneg; lia).
  rewrite <- !Z.mul_assoc. rewrite (Z.mul_assoc 2 ph w).
  replace (2 * ph * w) with (ph * w + ph * w) by ring.
  lia.
Qed.

End MaxPool.

Section MaxPoolResults.

Variables (channels in_h in_w : Z).

Lemma pool_idx_bounds p :
  In p (pool_keys channels in_h in_w) ->
  0 <= pool_idx in_h in_w p < channels * Z.quot in_h 2 * Z.quot in_w 2.
Proof.
  destruct p as [c [ph pw]]. rewrite in_pool_keys. intros (Hc & Hh & Hw).
  unfold pool_idx. cbn [fst snd]. apply idx3_bounds; assumption.
Qed.

Lemma maxpool2d_hw_pointwise input output c oh ow :
  0 <= c < channels -> 0 <= oh < Z.quot in_h 2 -> 0 <= ow < Z.quot in_w 2 ->
  maxpool2d_hw input output channels in_h in_w
     (idx3 (Z.quot in_h 2) (Z.quot in_w 2) c oh ow)
  = pool_window input in_h in_w c oh ow.
Proof.
  intros Hc Hh Hw. rewrite maxpool2d_hw_write_loop.
  apply (write_loop_increasing (pool_idx in_h in_w)
           (fun p _ => pool_window input in_h in_w (fst p) (fst (snd p)) (snd (snd p)))
           (pool_keys channels in_h in_w) output
           (pool_keys_increasing channels in_h in_w)
           (fun _ _ _ _ _ => eq_refl) (c, (oh, ow))).
  apply in_pool_keys. auto.
Qed.

Lemma maxpool2d_hw_frame input output j :
  ~ (0 <= j < channels * Z.quot in_h 2 * Z.quot in_w 2) ->
  maxpool2d_hw input output channels in_h in_w j = output j.
Proof.
  intros Hj. rewrite maxpool2d_hw_write_loop. apply write_loop_frame.
  intros p Hp E. apply pool_idx_bounds in Hp. lia.
Qed.

End MaxPoolResults.

Section PoolLoopResults.

Variable c : LayerConfig.

Let PH := Z.quot (out_height c) 2.
Let PW := Z.quot (out_width c) 2.

Lemma POOL_LOOP_output st :
  output_fm (POOL_LOOP c st)
  = write_loop (pool_idx (out_height c) (out_width c))
      (fun p m => pool_window m (out_height c) (out_width c)
                    (fst p) (fst (snd p)) (snd (snd p)))
      (pool_keys (out_channels c) (out_height c) (out_width c)) (output_fm st).
Proof.
  rewrite POOL_LOOP_store_loop.
  apply (store_loop_spec (pool_idx (out_height c) (out_width c))
           (fun p _ m => pool_window m (out_height c) (out_width c)
                           (fst p) (fst (snd p)) (snd (snd p)))).
Qed.

(** The in-place pass reads every window before any write reaches it. *)
Lemma POOL_LOOP_pointwise st ch ph pw :
  0 <= ch < out_channels c -> 0 <= ph < PH -> 0 <= pw < PW ->
  output_fm (POOL_LOOP c st) (idx3 PH PW ch ph pw)
  = pool_window (output_fm st) (out_height c) (out_width c) ch ph pw.
Proof.
  intros Hc Hh Hw. rewrite POOL_LOOP_output.
  apply (write_loop_increasing (pool_idx (out_height c) (out_width c))
           (fun p m => pool_window m (out_height c) (out_width c)
                         (fst p) (fst (snd p)) (snd (snd p)))
           (pool_keys (out_channels c) (out_height c) (out_width c)) (output_fm st)
           (pool_keys_increasing _ _ _)) with (k := (ch, (ph, pw))).
  - intros [a [b d]] m1 m2 Hin Hagree. apply in_pool_keys in Hin.
    destruct Hin as (Ha & Hb & Hd). cbn [fst snd].
    pose proof (pool_window_above (out_height c) (out_width c) a b d
                  ltac:(lia) Hb Hd) as Habove.
    pose proof (quot2_bounds (out_width c) ltac:(lia)) as Hwb.
    unfold pool_idx in Hagree. cbn [fst snd] in Hagree.
    unfold pool_window. unfold idx3 in *.
    f_equal; apply Hagree; lia.
  - apply in_pool_keys. auto.
Qed.

Lemma POOL_LOOP_frame st j :
  ~ (0 <= j < out_channels c * PH * PW) ->
  output_fm (POOL_LOOP c st) j = output_fm st j.
Proof.
  intros Hj. rewrite POOL_LOOP_output. apply write_loop_frame.
  intros p Hp E. apply pool_idx_bounds in Hp. subst PH PW. lia.
Qed.

Lemma POOL_LOOP_events st :
  status (POOL_LOOP c st) = status st /\
  exists l, events (POOL_LOOP c st) = events st ++ l /\ Forall is_output_write l.
Proof.
  rewrite POOL_LOOP_store_loop.
  destruct (store_loop_spec (pool_idx (out_height c) (out_width c))
           (fun p _ m => pool_window m (out_height c) (out_width c)
                           (fst p) (fst (snd p)) (snd (snd p)))
           (pool_keys (out_channels c) (out_height c) (out_width c)) st)
    as (H1 & _ & _ & _ & _ & l & H6 & H7 & _).
  split; [assumption|]. exists l. auto.
Qed.

End PoolLoopResults.

(* ================================================================== *)
(** * The stagers and the MAC kernel of one tile *)

Section Fill.

Context {K : Type}.
Variable v : K -> Z.

(** A loop that stores [v k] at a running index. *)
Lemma fill_fold keys : forall (m : mem) (c : Z),
  let r := fold_left (fun (s : mem * Z) k => (upd (fst s) (snd s) (v k), snd s + 1))
                     keys (m, c) in
  snd r = c + Z.of_nat (length keys) /\
  (forall n k, nth_error keys n = Some k -> fst r (c + Z.of_nat n) = v k) /\
  (forall j, j < c \/ c + Z.of_nat (length keys) <= j -> fst r j = m j).
Proof.
  induction keys as [|k0 keys IH]; intros m c; cbn zeta.
  - simpl. split; [lia | split; [intros [|n] k H; discriminate H | auto]].
  - cbn [fold_left fst snd length].
    destruct (IH (upd m c (v k0)) (c + 1)) as (H1 & H2 & H3).
    split; [|split].
    + rewrite H1. lia.
    + intros [|n] k Hn.
      * injection Hn as <-. replace (c + Z.of_nat 0) with c by lia.
        rewrite H3 by lia. apply upd_same.
      * cbn [nth_error] in Hn.
        replace (c + Z.of_nat (S n)) with (c + 1 + Z.of_nat n) by lia. auto.
    + intros j Hj. rewrite H3 by lia. apply upd_other. lia.
Qed.

End Fill.

Lemma nth_error_list_prod {A B} (l1 : list A) (l2 : list B) : forall i j a b,
  nth_error l1 i = Some a -> nth_error l2 j = Some b ->
  nth_error (list_prod l1 l2) (i * length l2 + j) = Some (a, b).
Proof.
  induction l1 as [|x l1 IH]; intros i j a b Hi Hj.
  - destruct i; discriminate Hi.
  - assert (Hlt : (j < length l2)%nat) by (apply nth_error_Some; congruence).
    destruct i as [|i]; cbn [list_prod].
    + injection Hi as <-. cbn [Nat.mul Nat.add].
      rewrite nth_error_app1 by (rewrite length_map; assumption).
      rewrite nth_error_map, Hj. reflexivity.
    + cbn [nth_error] in Hi.
      rewrite nth_error_app2 by (rewrite length_map; lia).
      rewrite length_map.
      replace (S i * length l2 + j - length l2)%nat with (i * length l2 + j)%nat by lia.
      apply IH; assumption.
Qed.

Lemma nth_error_zrange lo hi i :
  lo <= i < hi -> nth_error (zrange lo hi) (Z.to_nat (i - lo)) = Some i.
Proof.
  intros H. unfold zrange. rewrite nth_error_zseq by lia. f_equal. lia.
Qed.

Lemma INIT_ACC_spec n acc j :
  INIT_ACC n acc j = if (0 <=? j) && (j <? n) then 0 else acc j.
Proof.
  unfold INIT_ACC, for_loop.
  change (fold_left (fun s i => upd s i 0) (zrange 0 n) acc)
    with (write_loop (fun i => i) (fun _ _ => 0) (zrange 0 n) acc).
  destruct (Z.leb_spec 0 j); destruct (Z.ltb_spec j n); cbn [andb].
  - apply (write_loop_increasing (fun i => i) (fun _ _ => 0)).
    + apply increasing_zrange. intros; lia.
    + reflexivity.
    + apply in_zrange. lia.
  - apply write_loop_frame. intros k Hk. apply in_zrange in Hk. lia.
  - apply write_loop_frame. intros k Hk. apply in_zrange in Hk. lia.
  - apply write_loop_frame. intros k Hk. apply in_zrange in Hk. lia.
Qed.

Section Stagers.

Variable c : LayerConfig.
Variables input_fm weights : mem.

Lemma LOAD_INPUT_spec ic_start ic_end ih_start ih_end iw_start iw_end tile ic ih iw :
  ic_start <= ic < ic_end -> ih_start <= ih < ih_end -> iw_start <= iw < iw_end ->
  LOAD_INPUT c input_fm ic_start ic_end ih_start ih_end iw_start iw_end tile
    (idx3 (ih_end - ih_start) (iw_end - iw_start)
          (ic - ic_start) (ih - ih_start) (iw - iw_start))
  = padded_input c input_fm ic ih iw.
Proof.
  intros Hc Hh Hw. unfold LOAD_INPUT. rewrite for_loop_nest3.
  rewrite fold_left_ext_in
    with (g := fun (s : mem * Z) p =>
                 (upd (fst s) (snd s)
                      (padded_input c input_fm (fst p) (fst (snd p)) (snd (snd p))),
                  snd s + 1)).
  2:{ intros [a [b d]] [m n] _. cbn [fst snd]. unfold padded_input.
      destruct ((0 <=? b) && (b <? in_height c) && (0 <=? d) && (d <? in_width c));
        reflexivity. }
  pose proof (fill_fold
                (fun p => padded_input c input_fm (fst p) (fst (snd p)) (snd (snd p)))
                (list_prod (zrange ic_start ic_end)
                           (list_prod (zrange ih_start ih_end) (zrange iw_start iw_end)))
                tile 0) as (_ & Hnth & _).
  specialize (Hnth (Z.to_nat (ic - ic_start)
                    * length (list_prod (zrange ih_start ih_end) (zrange iw_start iw_end))
                    + (Z.to_nat (ih - ih_start) * length (zrange iw_start iw_end)
                       + Z.to_nat (iw - iw_start)))%nat
                   (ic, (ih, iw))).
  cbn [fst snd] in Hnth. rewrite <- Hnth.
  - f_equal. rewrite length_prod, !length_zrange. unfold idx3.
    rewrite !Nat2Z.inj_add, !Nat2Z.inj_mul, !Z2Nat.id by lia. ring.
  - apply nth_error_list_prod; [apply nth_error_zrange; assumption|].
    apply nth_error_list_prod; apply nth_error_zrange; assumption.
Qed.

End Stagers.

Lemma for_loop_nest4 {S} a1 b1 a2 b2 a3 b3 a4 b4 (body : Z -> Z -> Z -> Z -> S -> S) s :
  for_loop a1 b1 (fun i s =>
    for_loop a2 b2 (fun j s =>
      for_loop a3 b3 (fun k s => for_loop a4 b4 (fun l s => body i j k l s) s) s) s) s
  = fold_left (fun s p => body (fst p) (fst (snd p)) (fst (snd (snd p)))
                               (snd (snd (snd p))) s)
      (list_prod (zrange a1 b1)
         (list_prod (zrange a2 b2) (list_prod (zrange a3 b3) (zrange a4 b4)))) s.
Proof.
  unfold for_loop at 1.
  rewrite <- (fold_left_list_prod
                (fun i (q : Z * (Z * Z)) s =>
                   body i (fst q) (fst (snd q)) (snd (snd q)) s)).
  apply fold_left_ext_in. intros i s' _.
  apply (for_loop_nest3 a2 b2 a3 b3 a4 b4 (fun j k l s => body i j k l s)).
Qed.

Lemma for_loop_from_zero {S} lo n (body : Z -> S -> S) s :
  for_loop lo (lo + n) body s = for_loop 0 n (fun i => body (lo + i)) s.
Proof.
  replace lo with (0 + lo) at 1 by lia. rewrite (Z.add_comm lo n).
  rewrite for_loop_shift. apply for_loop_ext. intros i s' _.
  f_equal. lia.
Qed.

(** Stores of values that do not depend on the array: the last write to an
    index wins, so consistent writes give the written value. *)
Lemma write_loop_const {K} (w v : K -> Z) (keys : list K) :
  (forall k k', In k keys -> In k' keys -> w k = w k' -> v k = v k') ->
  forall m k, In k keys -> write_loop w (fun k _ => v k) keys m (w k) = v k.
Proof.
  induction keys as [|k0 keys IH]; intros Hinj m k Hin; [destruct Hin|].
  rewrite write_loop_cons.
  destruct (in_dec Z.eq_dec (w k) (map w keys)) as [Hmem | Hnot].
  - apply in_map_iff in Hmem. destruct Hmem as (k' & Ek' & Hk').
    rewrite <- Ek'. rewrite IH; auto.
    + apply Hinj; auto. right; assumption.
    + intros a b Ha Hb. apply Hinj; right; assumption.
  - destruct Hin as [-> | Hin].
    + rewrite write_loop_frame; [apply upd_same|].
      intros k' Hk' E. apply Hnot. rewrite <- E. apply in_map. assumption.
    + exfalso. apply Hnot. apply in_map. assumption.
Qed.

Lemma increasing_idx3_local h w n :
  increasing (fun p : Z * (Z * Z) => idx3 h w (fst p) (fst (snd p)) (snd (snd p)))
             (list_prod (zrange 0 n) (list_prod (zrange 0 h) (zrange 0 w))).
Proof.
  pose proof (increasing_idx3 h w 0 0 0 0 n 0 h 0 w) as H.
  cbn [Z.add] in H. apply H; lia.
Qed.

Lemma in_keys3 a1 b1 a2 b2 a3 b3 i j k :
  In (i, (j, k)) (list_prod (zrange a1 b1) (list_prod (zrange a2 b2) (zrange a3 b3)))
  <-> a1 <= i < b1 /\ a2 <= j < b2 /\ a3 <= k < b3.
Proof. rewrite !in_prod_iff, !in_zrange. tauto. Qed.

Section TileKernel.

Variable c : LayerConfig.
Variables input_fm weights : mem.

Lemma LOAD_WEIGHTS_spec oc_start oc_end ic_start ic_end wt oc ic kh kw :
  oc_start <= oc < oc_end -> ic_start <= ic < ic_end ->
  0 <= kh < kernel_size c -> 0 <= kw < kernel_size c ->
  LOAD_WEIGHTS c weights oc_start oc_end ic_start ic_end wt
    ((oc - oc_start) * (ic_end - ic_start) * kernel_size c * kernel_size c
     + (ic - ic_start) * kernel_size c * kernel_size c + kh * kernel_size c + kw)
  = weight_at c weights oc ic kh kw.
Proof.
  intros Hoc Hic Hkh Hkw. unfold LOAD_WEIGHTS. cbv zeta. rewrite for_loop_nest4.
  set (keys := list_prod _ _).
  set (w := fun p : Z * (Z * (Z * Z)) =>
              (fst p - oc_start) * (ic_end - ic_start) * kernel_size c * kernel_size c
              + (fst (snd p) - ic_start) * kernel_size c * kernel_size c
              + fst (snd (snd p)) * kernel_size c + snd (snd (snd p))).
  set (v := fun p : Z * (Z * (Z * Z)) =>
              weight_at c weights (fst p) (fst (snd p)) (fst (snd (snd p)))
                        (snd (snd (snd p)))).
  change (write_loop w (fun p _ => v p) keys wt (w (oc, (ic, (kh, kw))))
          = v (oc, (ic, (kh, kw)))).
  assert (Hkeys : forall p, In p keys ->
            oc_start <= fst p < oc_end /\ ic_start <= fst (snd p) < ic_end /\
            0 <= fst (snd (snd p)) < kernel_size c /\
            0 <= snd (snd (snd p)) < kernel_size c).
  { intros [a [b [d e]]] Hp. subst keys.
    rewrite !in_prod_iff, !in_zrange in Hp. cbn [fst snd]. tauto. }
  apply write_loop_const.
  - intros p p' Hp Hp' E. apply Hkeys in Hp, Hp'.
    destruct p as [a [b [d e]]], p' as [a' [b' [d' e']]].
    subst w v. cbn [fst snd] in *.
    assert (E' : (((a - oc_start) * (ic_end - ic_start) + (b - ic_start))
                  * kernel_size c + d) * kernel_size c + e
                 = (((a' - oc_start) * (ic_end - ic_start) + (b' - ic_start))
                    * kernel_size c + d') * kernel_size c + e')
    by (ring_simplify; ring_simplify in E; lia).
    apply radix_inj in E'; try lia. destruct E' as [E' ->].
    apply radix_inj in E'; try lia. destruct E' as [E' ->].
    apply radix_inj in E'; try lia. destruct E' as [E1 E2].
    replace a' with a by lia. replace b' with b by lia. reflexivity.
  - subst keys. rewrite !in_prod_iff, !in_zrange. tauto.
Qed.

Lemma COMPUTE_TILE_spec it wt oc_count th tw ic_count tile_ih tile_iw acc oc oh ow :
  0 <= oc < oc_count -> 0 <= oh < th -> 0 <= ow < tw ->
  COMPUTE_TILE c it wt oc_count th tw ic_count tile_ih tile_iw acc (idx3 th tw oc oh ow)
  = tile_mac c it wt ic_count tile_ih tile_iw oc oh ow (acc (idx3 th tw oc oh ow)).
Proof.
  intros Hoc Hoh How. unfold COMPUTE_TILE. cbv zeta. rewrite for_loop_nest3.
  apply (write_loop_increasing
           (fun p : Z * (Z * Z) => idx3 th tw (fst p) (fst (snd p)) (snd (snd p)))
           (fun p m => tile_mac c it wt ic_count tile_ih tile_iw
                         (fst p) (fst (snd p)) (snd (snd p))
                         (m (idx3 th tw (fst p) (fst (snd p)) (snd (snd p)))))
           _ acc (increasing_idx3_local th tw oc_count)) with (k := (oc, (oh, ow))).
  - intros p m1 m2 _ H. rewrite (H _ (Z.le_refl _)). reflexivity.
  - apply in_keys3. auto.
Qed.

(** On a staged tile the MAC loops compute the products of the tile's
    input channels for the output element the accumulator belongs to. *)
Lemma tile_mac_conv_mac it wt ic_start ic_count ih_start iw_start tile_ih tile_iw
      oc_g oh_g ow_g ocl ohl owl sum :
  (forall icl l1 l2, 0 <= icl < ic_count -> 0 <= l1 < tile_ih -> 0 <= l2 < tile_iw ->
     it (idx3 tile_ih tile_iw icl l1 l2)
     = padded_input c input_fm (ic_start + icl) (ih_start + l1) (iw_start + l2)) ->
  (forall icl kh kw, 0 <= icl < ic_count ->
     0 <= kh < kernel_size c -> 0 <= kw < kernel_size c ->
     wt (ocl * ic_count * kernel_size c * kernel_size c
         + icl * kernel_size c * kernel_size c + kh * kernel_size c + kw)
     = weight_at c weights oc_g (ic_start + icl) kh kw) ->
  0 <= ohl * stride c -> ohl * stride c + kernel_size c <= tile_ih ->
  0 <= owl * stride c -> owl * stride c + kernel_size c <= tile_iw ->
  ih_start + ohl * stride c = oh_g * stride c - padding c ->
  iw_start + owl * stride c = ow_g * stride c - padding c ->
  tile_mac c it wt ic_count tile_ih tile_iw ocl ohl owl sum
  = conv_mac c input_fm weights oc_g oh_g ow_g ic_start (ic_start + ic_count) sum.
Proof.
  intros Hit Hwt Hh0 Hh1 Hw0 Hw1 Eh Ew. unfold tile_mac, conv_mac. cbv zeta.
  rewrite for_loop_from_zero.
  apply for_loop_ext. intros ic s1 Hic.
  apply for_loop_ext. intros kh s2 Hkh.
  apply for_loop_ext. intros kw s3 Hkw.
  change (ic * tile_ih * tile_iw + (ohl * stride c + kh) * tile_iw + (owl * stride c + kw))
    with (idx3 tile_ih tile_iw ic (ohl * stride c + kh) (owl * stride c + kw)).
  rewrite Hit, Hwt by lia.
  f_equal; f_equal; lia.
Qed.

End TileKernel.

(* ================================================================== *)
(** * Tile scheduling arithmetic *)

Lemma tile_end_min start tile n : tile_end start tile n = Z.min (start + tile) n.
Proof. unfold tile_end. destruct (Z.gtb_spec (start + tile) n); lia. Qed.

Lemma tile_count_div n tile :
  0 < tile -> 0 <= n -> tile_count n tile = (n + tile - 1) / tile.
Proof. intros. unfold tile_count. apply Z.quot_div_nonneg; lia. Qed.

(** Every tile the loops visit starts inside the tensor. *)
Lemma tile_start_lt n tile i :
  0 < tile -> 0 <= n -> 0 <= i < tile_count n tile -> i * tile < n.
Proof.
  intros Ht Hn Hi. rewrite tile_count_div in Hi by assumption.
  assert (H : (i + 1) * tile <= n + tile - 1).
  { pose proof (Z.mul_div_le (n + tile - 1) tile Ht).
    assert ((i + 1) * tile <= (n + tile - 1) / tile * tile)
      by (apply Z.mul_le_mono_nonneg_r; lia).
    lia. }
  lia.
Qed.

(** The tiles cover the tensor. *)
Lemma tile_count_cover n tile :
  0 < tile -> 0 <= n -> n <= tile_count n tile * tile.
Proof.
  intros Ht Hn. rewrite tile_count_div by assumption.
  pose proof (Z.div_mod (n + tile - 1) tile ltac:(lia)).
  pose proof (Z.mod_pos_bound (n + tile - 1) tile Ht). lia.
Qed.

Lemma tile_of_index n tile x :
  0 < tile -> 0 <= x < n ->
  0 <= x / tile < tile_count n tile /\
  x / tile * tile <= x < tile_end (x / tile * tile) tile n.
Proof.
  intros Ht Hx. rewrite tile_count_div, tile_end_min by lia.
  pose proof (Z.div_mod x tile ltac:(lia)).
  pose proof (Z.mod_pos_bound x tile Ht).
  assert (0 <= x / tile) by (apply Z.div_pos; lia).
  assert (x / tile <= (n + tile - 1) / tile) by (apply Z.div_le_mono; lia).
  assert (x / tile < (n + tile - 1) / tile).
  { apply Z.div_lt_upper_bound; [lia|].
    pose proof (Z.div_mod (n + tile - 1) tile ltac:(lia)).
    pose proof (Z.mod_pos_bound (n + tile - 1) tile Ht). lia. }
  lia.
Qed.

(* ================================================================== *)
(** * One output tile *)

Section OutputTile.

Variable t : tiling.
Variable c : LayerConfig.
Variables input_fm weights bn_scale bn_shift : mem.

Hypothesis Htile_ch : 0 < TILE_CH t.
Hypothesis Hin_ch : 0 <= in_channels c.
Hypothesis Hstride : 0 <= stride c.

(** The bounds of the tile being processed. *)
Variables oc_start oc_end oh_start oh_end ow_start ow_end : Z.

Let th := oh_end - oh_start.
Let tw := ow_end - ow_start.

Let step := ic_tile_step t c input_fm weights
                         oc_start oc_end oh_start oh_end ow_start ow_end.

(** The input channels summed after [n] iterations of IC_TILE_LOOP. *)
Let summed (n : Z) : Z := Z.min (n * TILE_CH t) (in_channels c).

Lemma ic_tile_step_acc n b ocl ohl owl :
  0 <= n < tile_count (in_channels c) (TILE_CH t) ->
  0 <= ocl < oc_end - oc_start -> 0 <= ohl < th -> 0 <= owl < tw ->
  snd (step n b) (idx3 th tw ocl ohl owl)
  = conv_mac c input_fm weights (oc_start + ocl) (oh_start + ohl) (ow_start + owl)
             (summed n) (summed (n + 1)) (snd b (idx3 th tw ocl ohl owl)).
Proof.
  intros Hn Hoc Hoh How. destruct b as [[it wt] acc].
  pose proof (tile_start_lt (in_channels c) (TILE_CH t) n Htile_ch Hin_ch Hn) as Hlt.
  unfold step, ic_tile_step. cbv zeta. cbn [snd].
  rewrite tile_end_min.
  fold th. fold tw.
  rewrite COMPUTE_TILE_spec by assumption.
  assert (E1 : summed n = n * TILE_CH t) by (unfold summed; lia).
  assert (E2 : summed (n + 1) = Z.min (n * TILE_CH t + TILE_CH t) (in_channels c))
    by (unfold summed; f_equal; ring).
  rewrite E1, E2.
  set (ic_start := n * TILE_CH t).
  set (ic_end := Z.min (ic_start + TILE_CH t) (in_channels c)).
  replace ic_end with (ic_start + (ic_end - ic_start)) at 4 by ring.
  assert (Hs1 : 0 <= ohl * stride c) by (apply Z.mul_nonneg_nonneg; lia).
  assert (Hs2 : 0 <= owl * stride c) by (apply Z.mul_nonneg_nonneg; lia).
  assert (Hs3 : ohl * stride c <= (th - 1) * stride c)
    by (apply Z.mul_le_mono_nonneg_r; lia).
  assert (Hs4 : owl * stride c <= (tw - 1) * stride c)
    by (apply Z.mul_le_mono_nonneg_r; lia).
  apply tile_mac_conv_mac with (ih_start := oh_start * stride c - padding c)
                               (iw_start := ow_start * stride c - padding c).
  - intros icl l1 l2 Hicl Hl1 Hl2.
    pose proof (LOAD_INPUT_spec c input_fm ic_start ic_end
                  (oh_start * stride c - padding c)
                  ((oh_end - 1) * stride c + kernel_size c - padding c)
                  (ow_start * stride c - padding c)
                  ((ow_end - 1) * stride c + kernel_size c - padding c)
                  it (ic_start + icl)
                  (oh_start * stride c - padding c + l1)
                  (ow_start * stride c - padding c + l2)) as H.
    replace (ic_start + icl - ic_start) with icl in H by ring.
    replace (oh_start * stride c - padding c + l1 - (oh_start * stride c - padding c))
      with l1 in H by ring.
    replace (ow_start * stride c - padding c + l2 - (ow_start * stride c - padding c))
      with l2 in H by ring.
    apply H; lia.
  - intros icl kh kw Hicl Hkh Hkw.
    pose proof (LOAD_WEIGHTS_spec c weights oc_start oc_end ic_start ic_end wt
                  (oc_start + ocl) (ic_start + icl) kh kw) as H.
    replace (oc_start + ocl - oc_start) with ocl in H by ring.
    replace (ic_start + icl - ic_start) with icl in H by ring.
    apply H; lia.
  - assumption.
  - subst th. replace ((oh_end - 1) * stride c + kernel_size c - padding c
                       - (oh_start * stride c - padding c))
      with ((oh_end - oh_start - 1) * stride c + kernel_size c) by ring. lia.
  - assumption.
  - subst tw. replace ((ow_end - 1) * stride c + kernel_size c - padding c
                       - (ow_start * stride c - padding c))
      with ((ow_end - ow_start - 1) * stride c + kernel_size c) by ring. lia.
  - ring.
  - ring.
Qed.

(** Accumulate-before-finalize: after [n] input-channel tiles an
    accumulator holds the products of the first [summed n] channels, added
    to what it held when the loop was entered. *)
Lemma ic_tile_loop_acc (n : nat) : forall b ocl ohl owl,
  Z.of_nat n <= tile_count (in_channels c) (TILE_CH t) ->
  0 <= ocl < oc_end - oc_start -> 0 <= ohl < th -> 0 <= owl < tw ->
  snd (for_loop 0 (Z.of_nat n) step b) (idx3 th tw ocl ohl owl)
  = conv_mac c input_fm weights (oc_start + ocl) (oh_start + ohl) (ow_start + owl)
             0 (summed (Z.of_nat n)) (snd b (idx3 th tw ocl ohl owl)).
Proof.
  induction n as [|n IH]; intros b ocl ohl owl Hn Hoc Hoh How.
  - rewrite for_loop_empty by lia. unfold conv_mac.
    rewrite for_loop_empty; [reflexivity | unfold summed; lia].
  - replace (Z.of_nat (S n)) with (Z.of_nat n + 1) by lia.
    rewrite for_loop_snoc by lia.
    rewrite ic_tile_step_acc by lia.
    rewrite IH by lia.
    unfold conv_mac. symmetry. apply for_loop_split.
    pose proof (tile_start_lt (in_channels c) (TILE_CH t) (Z.of_nat n)
                  Htile_ch Hin_ch ltac:(lia)).
    unfold summed. lia.
Qed.

End OutputTile.

Section WriteOutput.

Variable c : LayerConfig.
Variables bn_scale bn_shift : mem.
Variables oc_start oc_count oh_start th ow_start tw : Z.

Hypothesis Hoh : 0 <= oh_start /\ oh_start + th <= out_height c.
Hypothesis How : 0 <= ow_start /\ ow_start + tw <= out_width c.

Let keys := list_prod (zrange 0 oc_count) (list_prod (zrange 0 th) (zrange 0 tw)).

Let out_idx (p : Z * (Z * Z)) : Z :=
  idx3 (out_height c) (out_width c)
       (oc_start + fst p) (oh_start + fst (snd p)) (ow_start + snd (snd p)).

Let result (p : Z * (Z * Z)) (acc : mem) (_ : mem) : Z :=
  finalize (layer_type c) (bn_scale_val c bn_scale (oc_start + fst p))
           (bn_shift_val c bn_shift (oc_start + fst p))
           (acc (idx3 th tw (fst p) (fst (snd p)) (snd (snd p)))).

Lemma WRITE_OUTPUT_store_loop st :
  WRITE_OUTPUT c bn_scale bn_shift oc_start oc_count oh_start th ow_start tw st
  = store_loop out_idx result keys st.
Proof.
  unfold WRITE_OUTPUT. cbv zeta. rewrite for_loop_nest3. reflexivity.
Qed.

Lemma WRITE_OUTPUT_spec st :
  let st' := WRITE_OUTPUT c bn_scale bn_shift oc_start oc_count oh_start th
                          ow_start tw st in
  (forall ocl ohl owl,
     0 <= ocl < oc_count -> 0 <= ohl < th -> 0 <= owl < tw ->
     output_fm st' (idx3 (out_height c) (out_width c)
                         (oc_start + ocl) (oh_start + ohl) (ow_start + owl))
     = finalize (layer_type c) (bn_scale_val c bn_scale (oc_start + ocl))
                (bn_shift_val c bn_shift (oc_start + ocl))
                (acc_tile st (idx3 th tw ocl ohl owl))) /\
  (forall j,
     (forall ocl ohl owl,
        0 <= ocl < oc_count -> 0 <= ohl < th -> 0 <= owl < tw ->
        idx3 (out_height c) (out_width c)
             (oc_start + ocl) (oh_start + ohl) (ow_start + owl) <> j) ->
     output_fm st' j = output_fm st j) /\
  status st' = status st /\
  exists l, events st' = events st ++ l /\ Forall is_output_write l.
Proof.
  cbv zeta. rewrite WRITE_OUTPUT_store_loop.
  destruct (store_loop_spec out_idx result keys st)
    as (H1 & _ & _ & _ & H5 & l & H6 & H7 & _).
  rewrite H5. split; [|split; [|split]].
  - intros ocl ohl owl Hc Hh Hw.
    apply (write_loop_increasing out_idx (fun k m => result k (acc_tile st) m) keys
             (output_fm st)) with (k := (ocl, (ohl, owl))).
    + apply increasing_idx3; lia.
    + reflexivity.
    + apply in_keys3. auto.
  - intros j Hj. apply write_loop_frame. intros [a [b d]] Hk.
    apply in_keys3 in Hk. apply Hj; tauto.
  - assumption.
  - exists l. auto.
Qed.

End WriteOutput.

Section ProcessTile.

Variable t : tiling.
Variable c : LayerConfig.
Variables input_fm weights bn_scale bn_shift : mem.

Hypothesis Htile : 0 < TILE_H t /\ 0 < TILE_W t /\ 0 < TILE_CH t.
Hypothesis Hin_ch : 0 <= in_channels c.
Hypothesis Hstride : 0 <= stride c.

Lemma process_tile_spec oc_t oh_t ow_t st :
  0 <= oh_t -> 0 <= ow_t ->
  let st' := process_tile t c input_fm weights bn_scale bn_shift oc_t oh_t ow_t st in
  (forall oc oh ow, in_tile t c oc_t oh_t ow_t oc oh ow ->
     output_fm st' (idx3 (out_height c) (out_width c) oc oh ow)
     = direct_layer c input_fm weights bn_scale bn_shift oc oh ow) /\
  (forall j,
     (forall oc oh ow, in_tile t c oc_t oh_t ow_t oc oh ow ->
        idx3 (out_height c) (out_width c) oc oh ow <> j) ->
     output_fm st' j = output_fm st j) /\
  status st' = status st /\
  exists l, events st' = events st ++ l /\ Forall is_output_write l.
Proof.
  intros Hoh_t How_t. cbv zeta. unfold process_tile. cbv zeta.
  set (oc_start := oc_t * TILE_CH t).
  set (oc_end := tile_end oc_start (TILE_CH t) (out_channels c)).
  set (oh_start := oh_t * TILE_H t).
  set (oh_end := tile_end oh_start (TILE_H t) (out_height c)).
  set (ow_start := ow_t * TILE_W t).
  set (ow_end := tile_end ow_start (TILE_W t) (out_width c)).
  set (acc0 := INIT_ACC _ (acc_tile st)).
  set (ic_tiles := tile_count (in_channels c) (TILE_CH t)).
  set (step := ic_tile_step t c input_fm weights oc_start oc_end oh_start oh_end
                            ow_start ow_end).
  destruct (for_loop 0 ic_tiles step (input_tile st, weight_tile st, acc0))
    as [[it wt] acc] eqn:Eloop.
  assert (Hoh0 : 0 <= oh_start) by (subst oh_start; apply Z.mul_nonneg_nonneg; lia).
  assert (How0 : 0 <= ow_start) by (subst ow_start; apply Z.mul_nonneg_nonneg; lia).
  assert (Hoh1 : oh_start + (oh_end - oh_start) <= out_height c)
    by (subst oh_end; rewrite tile_end_min; lia).
  assert (How1 : ow_start + (ow_end - ow_start) <= out_width c)
    by (subst ow_end; rewrite tile_end_min; lia).
  destruct (WRITE_OUTPUT_spec c bn_scale bn_shift oc_start (oc_end - oc_start)
              oh_start (oh_end - oh_start) ow_start (ow_end - ow_start)
              (conj Hoh0 Hoh1) (conj How0 How1) (set_buffers it wt acc st))
    as (Hval & Hframe & Hstatus & Hev).
  split; [|split; [|split]].
  - intros oc oh ow (Hoc & Hoh & How). fold oc_start oc_end in Hoc.
    fold oh_start oh_end in Hoh. fold ow_start ow_end in How.
    specialize (Hval (oc - oc_start) (oh - oh_start) (ow - ow_start)
                  ltac:(lia) ltac:(lia) ltac:(lia)).
    replace (oc_start + (oc - oc_start)) with oc in Hval by ring.
    replace (oh_start + (oh - oh_start)) with oh in Hval by ring.
    replace (ow_start + (ow - ow_start)) with ow in Hval by ring.
    rewrite Hval. unfold direct_layer. f_equal.
    cbn [acc_tile set_buffers].
    assert (Eacc : acc = snd (for_loop 0 ic_tiles step
                                (input_tile st, weight_tile st, acc0)))
      by (rewrite Eloop; reflexivity).
    assert (Hic : 0 <= ic_tiles).
    { subst ic_tiles. rewrite tile_count_div by lia. apply Z.div_pos; lia. }
    rewrite Eacc. rewrite <- (Z2Nat.id ic_tiles Hic).
    subst step. rewrite ic_tile_loop_acc; try lia.
    rewrite Z2Nat.id by assumption. cbn [snd].
    replace (oc_start + (oc - oc_start)) with oc by ring.
    replace (oh_start + (oh - oh_start)) with oh by ring.
    replace (ow_start + (ow - ow_start)) with ow by ring.
    unfold direct_conv. f_equal.
    + pose proof (tile_count_cover (in_channels c) (TILE_CH t) ltac:(lia) Hin_ch).
      fold ic_tiles in H. lia.
    + subst acc0. rewrite INIT_ACC_spec.
      pose proof (idx3_bounds (oh_end - oh_start) (ow_end - ow_start)
                    (oc_end - oc_start) (oc - oc_start) (oh - oh_start) (ow - ow_start)
                    ltac:(lia) ltac:(lia) ltac:(lia)) as Hb.
      destruct (Z.leb_spec 0 (idx3 (oh_end - oh_start) (ow_end - ow_start)
                                   (oc - oc_start) (oh - oh_start) (ow - ow_start)));
        [|lia].
      destruct (Z.ltb_spec (idx3 (oh_end - oh_start) (ow_end - ow_start)
                                 (oc - oc_start) (oh - oh_start) (ow - ow_start))
                           ((oc_end - oc_start) * (oh_end - oh_start)
                            * (ow_end - ow_start))); [reflexivity | lia].
  - intros j Hj. rewrite Hframe; [reflexivity|].
    intros ocl ohl owl Hc Hh Hw. apply Hj. unfold in_tile.
    fold oc_start oc_end oh_start oh_end ow_start ow_end. lia.
  - rewrite Hstatus. reflexivity.
  - destruct Hev as (l & Hl & Hf). exists l. split; assumption.
Qed.

End ProcessTile.

(* ================================================================== *)
(** * All output tiles of a layer *)

Section TileLoops.

Variable t : tiling.
Variable c : LayerConfig.
Variables input_fm weights bn_scale bn_shift : mem.

Hypothesis Htile : 0 < TILE_H t /\ 0 < TILE_W t /\ 0 < TILE_CH t.
Hypothesis Hin_ch : 0 <= in_channels c.
Hypothesis Hstride : 0 <= stride c.

Let F (st : engine) (p : Z * (Z * Z)) : engine :=
  process_tile t c input_fm weights bn_scale bn_shift
               (fst p) (fst (snd p)) (snd (snd p)) st.

Let covered (tiles : list (Z * (Z * Z))) (oc oh ow : Z) : Prop :=
  exists p, In p tiles /\ in_tile t c (fst p) (fst (snd p)) (snd (snd p)) oc oh ow.

Lemma in_tile_bounds oc_t oh_t ow_t oc oh ow :
  0 <= oc_t -> 0 <= oh_t -> 0 <= ow_t ->
  in_tile t c oc_t oh_t ow_t oc oh ow ->
  0 <= oc < out_channels c /\ 0 <= oh < out_height c /\ 0 <= ow < out_width c.
Proof.
  unfold in_tile. rewrite !tile_end_min. intros H1 H2 H3 H.
  assert (0 <= oc_t * TILE_CH t) by (apply Z.mul_nonneg_nonneg; lia).
  assert (0 <= oh_t * TILE_H t) by (apply Z.mul_nonneg_nonneg; lia).
  assert (0 <= ow_t * TILE_W t) by (apply Z.mul_nonneg_nonneg; lia).
  lia.
Qed.

Lemma in_tile_decide oc_t oh_t ow_t oc oh ow :
  in_tile t c oc_t oh_t ow_t oc oh ow \/ ~ in_tile t c oc_t oh_t ow_t oc oh ow.
Proof.
  unfold in_tile.
  generalize (tile_end (oc_t * TILE_CH t) (TILE_CH t) (out_channels c)).
  generalize (tile_end (oh_t * TILE_H t) (TILE_H t) (out_height c)).
  generalize (tile_end (ow_t * TILE_W t) (TILE_W t) (out_width c)).
  generalize (oc_t * TILE_CH t), (oh_t * TILE_H t), (ow_t * TILE_W t).
  intros. lia.
Qed.

Lemma tiles_fold (tiles : list (Z * (Z * Z))) :
  (forall p, In p tiles -> 0 <= fst p /\ 0 <= fst (snd p) /\ 0 <= snd (snd p)) ->
  forall st,
  (forall oc oh ow, covered tiles oc oh ow ->
     output_fm (fold_left F tiles st) (idx3 (out_height c) (out_width c) oc oh ow)
     = direct_layer c input_fm weights bn_scale bn_shift oc oh ow) /\
  (forall j,
     (forall oc oh ow, covered tiles oc oh ow ->
        idx3 (out_height c) (out_width c) oc oh ow <> j) ->
     output_fm (fold_left F tiles st) j = output_fm st j) /\
  status (fold_left F tiles st) = status st /\
  exists l, events (fold_left F tiles st) = events st ++ l /\ Forall is_output_write l.
Proof.
  induction tiles as [|p ts IH] using rev_ind; intros Hpos st.
  - cbn [fold_left]. split; [|split; [|split]].
    + intros oc oh ow (p & [] & _).
    + reflexivity.
    + reflexivity.
    + exists []. rewrite app_nil_r. auto.
  - rewrite fold_left_app. cbn [fold_left].
    assert (Hpos' : forall q, In q ts ->
              0 <= fst q /\ 0 <= fst (snd q) /\ 0 <= snd (snd q))
      by (intros q Hq; apply Hpos, in_or_app; left; assumption).
    destruct (Hpos p ltac:(apply in_or_app; right; left; reflexivity))
      as (Hp1 & Hp2 & Hp3).
    destruct (IH Hpos' st) as (IHv & IHf & IHs & l1 & IHe & IHl).
    destruct (process_tile_spec t c input_fm weights bn_scale bn_shift
                Htile Hin_ch Hstride (fst p) (fst (snd p)) (snd (snd p))
                (fold_left F ts st) Hp2 Hp3) as (Pv & Pf & Ps & l2 & Pe & Pl).
    unfold F at 1 3 5 7. split; [|split; [|split]].
    + intros oc oh ow (q & Hq & Hin).
      destruct (in_tile_decide (fst p) (fst (snd p)) (snd (snd p)) oc oh ow)
        as [Hy | Hn].
      * apply Pv. assumption.
      * apply in_app_or in Hq. destruct Hq as [Hq | [<- | []]]; [|contradiction].
        rewrite Pf.
        -- apply IHv. exists q. auto.
        -- intros oc' oh' ow' Hin' E.
           destruct (Hpos' q Hq) as (Hq1 & Hq2 & Hq3).
           pose proof (in_tile_bounds _ _ _ _ _ _ Hq1 Hq2 Hq3 Hin).
           pose proof (in_tile_bounds _ _ _ _ _ _ Hp1 Hp2 Hp3 Hin').
           apply idx3_inj in E; try lia.
           destruct E as (-> & -> & ->). contradiction.
    + intros j Hj. rewrite Pf.
      * apply IHf. intros oc oh ow (q & Hq & Hin). apply Hj.
        exists q. split; [apply in_or_app; left|]; assumption.
      * intros oc oh ow Hin. apply Hj. exists p.
        split; [apply in_or_app; right; left; reflexivity | assumption].
    + rewrite Ps. assumption.
    + exists (l1 ++ l2). rewrite Pe, IHe, app_assoc. split; [reflexivity|].
      apply Forall_app. auto.
Qed.

Lemma tile_loops_spec st :
  let st' := tile_loops t c input_fm weights bn_scale bn_shift st in
  (forall oc oh ow,
     0 <= oc < out_channels c -> 0 <= oh < out_height c -> 0 <= ow < out_width c ->
     output_fm st' (idx3 (out_height c) (out_width c) oc oh ow)
     = direct_layer c input_fm weights bn_scale bn_shift oc oh ow) /\
  (forall j, ~ (0 <= j < out_channels c * out_height c * out_width c) ->
     output_fm st' j = output_fm st j) /\
  status st' = status st /\
  exists l, events st' = events st ++ l /\ Forall is_output_write l.
Proof.
  cbv zeta. unfold tile_loops. cbv zeta. rewrite for_loop_nest3.
  set (tiles := list_prod _ _).
  assert (Hpos : forall p, In p tiles ->
            0 <= fst p /\ 0 <= fst (snd p) /\ 0 <= snd (snd p)).
  { intros [a [b d]] Hp. subst tiles. apply in_keys3 in Hp. cbn [fst snd]. lia. }
  destruct (tiles_fold tiles Hpos st) as (Hv & Hf & Hs & He).
  split; [|split; [|split]]; try assumption.
  - intros oc oh ow Hoc Hoh How. apply Hv.
    exists (oc / TILE_CH t, (oh / TILE_H t, ow / TILE_W t)). cbn [fst snd].
    pose proof (tile_of_index (out_channels c) (TILE_CH t) oc ltac:(lia) Hoc).
    pose proof (tile_of_index (out_height c) (TILE_H t) oh ltac:(lia) Hoh).
    pose proof (tile_of_index (out_width c) (TILE_W t) ow ltac:(lia) How).
    split; [subst tiles; apply in_keys3 | unfold in_tile]; tauto.
  - intros j Hj. apply Hf. intros oc oh ow (p & Hp & Hin) E.
    destruct (Hpos p Hp) as (H1 & H2 & H3).
    pose proof (in_tile_bounds _ _ _ _ _ _ H1 H2 H3 Hin) as (B1 & B2 & B3).
    pose proof (idx3_bounds (out_height c) (out_width c) (out_channels c)
                  oc oh ow B1 B2 B3). lia.
Qed.

End TileLoops.

(* ================================================================== *)
(** * The port trace of a run *)

Lemma for_loop_invariant {S} (P : S -> Prop) lo hi (body : Z -> S -> S) s :
  (forall i s, lo <= i < hi -> P s -> P (body i s)) ->
  P s -> P (for_loop lo hi body s).
Proof.
  intros Hbody. unfold for_loop.
  assert (H : forall l s, (forall i, In i l -> lo <= i < hi) -> P s ->
                          P (fold_left (fun s i => body i s) l s)).
  { induction l as [|i l IH]; intros s' Hl Hs; cbn [fold_left]; [assumption|].
    apply IH; [intros; apply Hl; right; assumption|].
    apply Hbody; [apply Hl; left; reflexivity | assumption]. }
  apply H. intros i Hi. apply in_zrange. assumption.
Qed.

Lemma for_loop_id {S} lo hi (body : Z -> S -> S) s :
  (forall i s, lo <= i < hi -> body i s = s) -> for_loop lo hi body s = s.
Proof.
  intros H. apply (for_loop_invariant (fun s' => s' = s)); [|reflexivity].
  intros i s' Hi ->. apply H. assumption.
Qed.

Lemma replay_app l1 l2 m : replay (l1 ++ l2) m = replay l2 (replay l1 m).
Proof. apply fold_left_app. Qed.

Lemma only_stores_refl st : only_stores st st.
Proof.
  split; [reflexivity|]. exists []. rewrite app_nil_r. repeat split. constructor.
Qed.

Lemma only_stores_store st0 st i v :
  only_stores st0 st -> only_stores st0 (store_output i v st).
Proof.
  intros (Hs & l & He & Hl & Ho). split; [assumption|].
  exists (l ++ [OutputWrite i v]). cbn [store_output events output_fm].
  rewrite He, Ho, replay_app, app_assoc. repeat split.
  apply Forall_app. split; [assumption|]. repeat constructor.
Qed.

Lemma only_stores_buffers st0 st it wt acc :
  only_stores st0 st -> only_stores st0 (set_buffers it wt acc st).
Proof. intros H. exact H. Qed.

Section RunTrace.

Variable t : tiling.
Variable c : LayerConfig.
Variables input_fm weights bn_scale bn_shift : mem.

Lemma WRITE_OUTPUT_only_stores st0 oc_start oc_count oh_start th ow_start tw st :
  only_stores st0 st ->
  only_stores st0 (WRITE_OUTPUT c bn_scale bn_shift oc_start oc_count oh_start th
                                ow_start tw st).
Proof.
  intros H. unfold WRITE_OUTPUT.
  repeat (apply for_loop_invariant; [intros ? ? _ ?; cbv zeta | assumption]).
  apply only_stores_store. assumption.
Qed.

Lemma process_tile_only_stores st0 oc_t oh_t ow_t st :
  only_stores st0 st ->
  only_stores st0 (process_tile t c input_fm weights bn_scale bn_shift oc_t oh_t ow_t st).
Proof.
  intros H. unfold process_tile. cbv zeta.
  destruct (for_loop _ _ _ _) as [[it wt] acc].
  apply WRITE_OUTPUT_only_stores, only_stores_buffers, H.
Qed.

Lemma tile_loops_only_stores st0 st :
  only_stores st0 st ->
  only_stores st0 (tile_loops t c input_fm weights bn_scale bn_shift st).
Proof.
  intros H. unfold tile_loops. cbv zeta.
  repeat (apply for_loop_invariant; [intros ? ? _ ? | assumption]).
  apply process_tile_only_stores. assumption.
Qed.

Lemma POOL_LOOP_only_stores st0 st :
  only_stores st0 st -> only_stores st0 (POOL_LOOP c st).
Proof.
  intros H. unfold POOL_LOOP. cbv zeta.
  repeat (apply for_loop_invariant; [intros ? ? _ ? | assumption]).
  apply only_stores_store. assumption.
Qed.

(** Between the two status writes the engine only stores output elements. *)
Lemma run_only_stores st :
  only_stores (set_status STATUS_RUNNING st)
    (if layer_type c =? 1
     then POOL_LOOP c (tile_loops t c input_fm weights bn_scale bn_shift
                                  (set_status STATUS_RUNNING st))
     else tile_loops t c input_fm weights bn_scale bn_shift
                     (set_status STATUS_RUNNING st)).
Proof.
  destruct (layer_type c =? 1).
  - apply POOL_LOOP_only_stores, tile_loops_only_stores, only_stores_refl.
  - apply tile_loops_only_stores, only_stores_refl.
Qed.

End RunTrace.

Lemma status_after_stores l : forall s,
  Forall is_output_write l -> status_after s l = s.
Proof.
  induction l as [|e l IH]; intros s H; [reflexivity|].
  apply Forall_cons_iff in H. destruct H as [He Hl].
  destruct e; [destruct He | apply IH; assumption].
Qed.

Lemma proper_prefix_snoc {A} (l p s : list A) (x : A) :
  l ++ [x] = p ++ s -> s <> [] -> exists s', l = p ++ s'.
Proof.
  intros E Hs. destruct (exists_last Hs) as (s' & y & ->).
  rewrite app_assoc in E. apply app_inj_tail in E. destruct E as [E _].
  exists s'. assumption.
Qed.

(** Tile and pooling loops are empty when an output dimension is not
    positive. *)
Lemma tile_count_nonpos n tile : 0 < tile -> n <= 0 -> tile_count n tile <= 0.
Proof.
  intros Ht Hn. unfold tile_count.
  destruct (Z.lt_ge_cases (n + tile - 1) 0) as [L | L].
  - assert (E : Z.quot (- (n + tile - 1)) tile = - Z.quot (n + tile - 1) tile)
      by (apply Z.quot_opp_l; lia).
    assert (0 <= Z.quot (- (n + tile - 1)) tile) by (apply Z.quot_pos; lia). lia.
  - rewrite Z.quot_small; lia.
Qed.

Lemma quot2_nonpos h : h <= 0 -> Z.quot h 2 <= 0.
Proof.
  intros H. destruct (Z.lt_ge_cases 0 (Z.quot h 2)) as [L | L]; [|assumption].
  apply quot2_bounds in L. lia.
Qed.

Lemma tile_loops_degenerate t c input_fm weights bn_scale bn_shift st :
  0 < TILE_H t -> 0 < TILE_W t ->
  out_height c <= 0 \/ out_width c <= 0 ->
  tile_loops t c input_fm weights bn_scale bn_shift st = st.
Proof.
  intros Hth Htw Hdim. unfold tile_loops. cbv zeta.
  apply for_loop_id. intros oc_t s1 _.
  destruct Hdim as [Hh | Hw].
  - apply for_loop_empty. apply tile_count_nonpos; assumption.
  - apply for_loop_id. intros oh_t s2 _.
    apply for_loop_empty. apply tile_count_nonpos; assumption.
Qed.

Lemma POOL_LOOP_degenerate c st :
  out_height c <= 0 \/ out_width c <= 0 -> POOL_LOOP c st = st.
Proof.
  intros Hdim. unfold POOL_LOOP. cbv zeta.
  apply for_loop_id. intros ch s1 _.
  destruct Hdim as [Hh | Hw].
  - apply for_loop_empty. apply quot2_nonpos; assumption.
  - apply for_loop_id. intros ph s2 _.
    apply for_loop_empty. apply quot2_nonpos; assumption.
Qed.

(* ================================================================== *)
(** * Fixed-point arithmetic *)

Section FixedFacts.

Import Fixed.

(** AP_RND is rounding to nearest, ties towards plus infinity. *)
Lemma rnd_div k x : 0 < k -> rnd k x = (x + 2 ^ (k - 1)) / 2 ^ k.
Proof.
  intros Hk. unfold rnd.
  rewrite Z.shiftr_div_pow2, Z.testbit_spec' by lia.
  assert (E : 2 ^ k = 2 ^ (k - 1) * 2).
  { replace k with (Z.succ (k - 1)) at 1 by lia. rewrite Z.pow_succ_r by lia. ring. }
  assert (Hp : 0 < 2 ^ (k - 1)) by (apply Z.pow_pos_nonneg; lia).
  rewrite E, <- !Z.div_div by lia.
  replace (x + 2 ^ (k - 1)) with (x + 1 * 2 ^ (k - 1)) by ring.
  rewrite Z.div_add by lia.
  generalize (x / 2 ^ (k - 1)). intros q.
  pose proof (Z.div_mod q 2 ltac:(lia)). pose proof (Z.mod_pos_bound q 2 ltac:(lia)).
  pose proof (Z.div_mod (q + 1) 2 ltac:(lia)).
  pose proof (Z.mod_pos_bound (q + 1) 2 ltac:(lia)). lia.
Qed.

Lemma sat_bounds w x : 0 < w -> - 2 ^ (w - 1) <= sat w x <= 2 ^ (w - 1) - 1.
Proof.
  intros Hw. assert (0 < 2 ^ (w - 1)) by (apply Z.pow_pos_nonneg; lia).
  unfold sat. destruct (Z.gtb_spec x (2 ^ (w - 1) - 1)); [lia|].
  destruct (Z.ltb_spec x (- 2 ^ (w - 1))); lia.
Qed.

Lemma sat_cases w x :
  (2 ^ (w - 1) - 1 < x -> sat w x = 2 ^ (w - 1) - 1) /\
  (x < - 2 ^ (w - 1) -> sat w x = - 2 ^ (w - 1)) /\
  (- 2 ^ (w - 1) <= x <= 2 ^ (w - 1) - 1 -> sat w x = x).
Proof.
  unfold sat. destruct (Z.gtb_spec x (2 ^ (w - 1) - 1));
    destruct (Z.ltb_spec x (- 2 ^ (w - 1))); lia.
Qed.

Lemma narrow_is_data x : is_data (narrow x).
Proof. unfold is_data, narrow, DATA_MIN, DATA_MAX. apply sat_bounds. reflexivity. Qed.


Lemma finalize_is_data lt scale shift acc : is_data (finalize lt scale shift acc).
Proof.
  unfold finalize. cbv zeta. destruct (negb (lt =? 2)); [|apply narrow_is_data].
  destruct (_ >? 0); apply narrow_is_data.
Qed.

(** With scale one and shift zero the normalization is the identity. *)
Lemma scale_shift_identity acc :
  is_acc acc -> scale_shift acc (data_of_int 1) (data_of_int 0) = acc.
Proof.
  intros Hacc. unfold scale_shift. rewrite rnd_div by reflexivity.
  change (data_of_int 1) with 256. change (data_of_int 0) with 0.
  change (Z.shiftl 0 ACC_F) with 0. change (2 ^ (DATA_F - 1)) with 128.
  change (2 ^ DATA_F) with 256.
  replace ((acc * 256 + 0 + 128) / 256) with acc.
  - apply sat_cases. exact Hacc.
  - apply Z.div_unique with (r := 128); lia.
Qed.

End FixedFacts.

(* ================================================================== *)
(** * Properties of the design specification *)

(** ** Sigmoid lookup *)

Lemma sigmoid_constants :
  Fixed.data_of_int (-8) = -2048 /\ Fixed.data_of_int 8 = 2048 /\
  Fixed.data_of_int 16 = 4096 /\ Fixed.data_of_decimal4 79375 = 2032 /\
  Fixed.DATA_MIN = -32768 /\ Fixed.DATA_MAX = 32767.
Proof. repeat split. Qed.

Lemma sigmoid_clamp_range x :
  Fixed.data_of_int (-8) <= sigmoid_clamp x < Fixed.data_of_int 8.
Proof.
  unfold sigmoid_clamp.
  destruct sigmoid_constants as (E1 & E2 & _ & E4 & _). rewrite E1, E2, E4.
  destruct (Z.ltb_spec x (-2048)); [lia|].
  destruct (Z.geb_spec x 2048); lia.
Qed.

Lemma sigmoid_index_formula x :
  sigmoid_index x = (sigmoid_clamp x + Fixed.data_of_int 8) * 16 / 2 ^ Fixed.DATA_F.
Proof.
  pose proof (sigmoid_clamp_range x) as Hc. unfold sigmoid_index.
  destruct sigmoid_constants as (E1 & E2 & E3 & _). rewrite E1, E2 in Hc.
  rewrite E2, E3. set (y := sigmoid_clamp x + 2048) in *.
  change (2 ^ Fixed.ACC_F) with (16 * 4096). change (2 ^ Fixed.DATA_F) with (16 * 16).
  rewrite Z.quot_div_nonneg by lia.
  rewrite !Z.div_mul_cancel_r by lia.
  change 255 with (Z.ones 8). rewrite Z.land_ones by lia.
  apply Z.mod_small. change (2 ^ 8) with 256.
  split; [apply Z.div_pos; lia | apply Z.div_lt_upper_bound; lia].
Qed.



(** ** Fused normalization and activation *)

Lemma shiftr3_div8 x : Z.shiftr x 3 = x / 8.
Proof. rewrite Z.shiftr_div_pow2 by lia. reflexivity. Qed.

(** The slope of the negative branch is one eighth, and it is not 0.1. *)
Lemma leaky_relu_hw_slope x :
  leaky_relu_hw x = (if x >? 0 then x else x / 8) /\
  leaky_relu_hw (-2560) = -320 /\ leaky_relu_hw (-2560) <> -256.
Proof.
  split; [|split; [reflexivity | discriminate]].
  unfold leaky_relu_hw. change (Fixed.data_of_int 0) with 0.
  destruct (x >? 0); [reflexivity | apply shiftr3_div8].
Qed.

(** C2, as the specification states it, fails on a conv_only layer: the
    engine does not read the normalization arrays there.  One input
    element 1.0, one weight 1.0, scale 2.0: the engine stores 1.0, the
    stated formula gives 2.0. *)
Lemma fused_norm_act_conv_only_counterexample :
  let c := mkLayer 2 1 1 1 1 1 1 0 in
  let input_fm := const_mem 256 in
  let weights := const_mem 256 in
  let bn_scale := const_mem 512 in
  let bn_shift := const_mem 0 in
  let r := cnn_accelerator_top zedboard_tiling c input_fm weights bn_scale bn_shift
                               engine_reset in
  direct_conv c input_fm weights 0 0 0 = 65536 /\
  output_fm r 0 = 256 /\
  fused_norm_act_spec (layer_type c) bn_scale bn_shift 0
                      (direct_conv c input_fm weights 0 0 0) = 512 /\
  output_fm r 0 <> fused_norm_act_spec (layer_type c) bn_scale bn_shift 0
                     (direct_conv c input_fm weights 0 0 0).
Proof.
  cbv zeta. repeat split; try (vm_compute; reflexivity).
  vm_compute. discriminate.
Qed.

(** C2 (amended). Every element WRITE_OUTPUT finalizes is computed in the
    wide type and narrowed once.  On a conv_bn_act or conv_bn_act_pool layer
    [bn_out = accumulator * scale[oc] + shift[oc]], and the stored value is
    [narrow bn_out] when [bn_out > 0] and [narrow (bn_out >> 3)], which is
    [bn_out / 8] rounded down, when [bn_out <= 0].  On a conv_only layer the
    normalization arrays are not read: scale is 1 and shift is 0, so the
    stored value is the narrowed accumulator. *)
Theorem fused_norm_act_amended (c : LayerConfig) (bn_scale bn_shift : mem)
    (oc_start oc_count oh_start th ow_start tw : Z) (st : engine) (ocl ohl owl : Z) :
  0 <= oh_start /\ oh_start + th <= out_height c ->
  0 <= ow_start /\ ow_start + tw <= out_width c ->
  0 <= ocl < oc_count -> 0 <= ohl < th -> 0 <= owl < tw ->
  let acc := acc_tile st (idx3 th tw ocl ohl owl) in
  let oc := oc_start + ocl in
  let stored :=
    output_fm (WRITE_OUTPUT c bn_scale bn_shift oc_start oc_count oh_start th
                            ow_start tw st)
              (idx3 (out_height c) (out_width c) oc (oh_start + ohl) (ow_start + owl)) in
  let bn_out := Fixed.scale_shift acc (bn_scale oc) (bn_shift oc) in
  stored = fused_norm_act c bn_scale bn_shift oc acc /\
  (layer_type c <> 2 ->
     bn_out = Fixed.sat Fixed.ACC_W
                ((acc * bn_scale oc + bn_shift oc * 2 ^ Fixed.ACC_F + 2 ^ 7) / 2 ^ 8) /\
     (0 < bn_out -> stored = Fixed.narrow bn_out) /\
     (bn_out <= 0 -> stored = Fixed.narrow (Z.shiftr bn_out 3)) /\
     Z.shiftr bn_out 3 = bn_out / 8) /\
  (layer_type c = 2 ->
     stored = Fixed.narrow (Fixed.scale_shift acc (Fixed.data_of_int 1)
                                              (Fixed.data_of_int 0)) /\
     (is_acc acc -> stored = Fixed.narrow acc)).
Proof.
  intros Hoh How Hc Hh Hw. cbv zeta.
  destruct (WRITE_OUTPUT_spec c bn_scale bn_shift oc_start oc_count oh_start th
              ow_start tw Hoh How st) as (Hval & _).
  rewrite (Hval ocl ohl owl Hc Hh Hw).
  unfold fused_norm_act, finalize, bn_scale_val, bn_shift_val. cbv zeta.
  split; [reflexivity|]. split.
  - intros Hlt. apply Z.eqb_neq in Hlt. rewrite Hlt. cbn [negb].
    split; [|split; [|split]].
    + unfold Fixed.scale_shift. rewrite rnd_div by reflexivity.
      rewrite Z.shiftl_mul_pow2 by (unfold Fixed.ACC_F; lia). reflexivity.
    + intros Hpos. apply Z.gtb_lt in Hpos. rewrite Hpos. reflexivity.
    + intros Hneg.
      destruct (Z.gtb_spec (Fixed.scale_shift (acc_tile st (idx3 th tw ocl ohl owl))
                              (bn_scale (oc_start + ocl)) (bn_shift (oc_start + ocl))) 0);
        [lia | reflexivity].
    + apply shiftr3_div8.
  - intros Hlt. rewrite Hlt. cbn [Z.eqb Pos.eqb negb].
    split; [reflexivity|]. intros Hacc. rewrite scale_shift_identity by assumption.
    reflexivity.
Qed.

Lemma fused_norm_act_amended_witness :
  let c := mkLayer 0 1 1 4 4 3 1 1 in
  let st := mkEngine 1 (const_mem 0) (const_mem 0) (const_mem (-65536)) (const_mem 0) [] in
  output_fm (WRITE_OUTPUT c (const_mem 256) (const_mem 0) 0 1 0 4 0 4 st)
            (idx3 (out_height c) (out_width c) (0 + 0) (0 + 1) (0 + 2))
  = Fixed.narrow (Z.shiftr (-65536) 3).
Proof.
  cbv zeta.
  pose proof (fused_norm_act_amended (mkLayer 0 1 1 4 4 3 1 1) (const_mem 256)
                (const_mem 0) 0 1 0 4 0 4
                (mkEngine 1 (const_mem 0) (const_mem 0) (const_mem (-65536))
                          (const_mem 0) [])
                0 1 2) as H.
  cbv zeta in H.
  destruct H as (_ & Hbn & _).
  - split; [lia | vm_compute; discriminate].
  - split; [lia | vm_compute; discriminate].
  - lia.
  - lia.
  - lia.
  - destruct Hbn as (_ & _ & Hneg & _); [discriminate|].
    apply Hneg. vm_compute. discriminate.
Defined.

(** ** Fixed-point boundary rules *)



(** ** Max pooling *)

(** C5. [maxpool2d_hw] writes, for every channel and every 2x2-aligned
    block, the maximum of the four elements, computed by the two-level
    comparator tree; the pooled tensor has [in_h / 2] rows and [in_w / 2]
    columns (rounded down), nothing is written outside it, and an odd
    trailing row or column is never read.  The pooling pass of the engine
    computes the same maximum for every block of its output map. *)
Theorem maxpool_2x2 (input output : mem) (channels in_h in_w : Z) :
  0 <= in_h -> 0 <= in_w ->
  let out_h := in_h / 2 in
  let out_w := in_w / 2 in
  let pooled := maxpool2d_hw input output channels in_h in_w in
  (forall c oh ow, 0 <= c < channels -> 0 <= oh < out_h -> 0 <= ow < out_w ->
     let v00 := input (idx3 in_h in_w c (2 * oh) (2 * ow)) in
     let v01 := input (idx3 in_h in_w c (2 * oh) (2 * ow + 1)) in
     let v10 := input (idx3 in_h in_w c (2 * oh + 1) (2 * ow)) in
     let v11 := input (idx3 in_h in_w c (2 * oh + 1) (2 * ow + 1)) in
     pooled (idx3 out_h out_w c oh ow) = Z.max (Z.max v00 v01) (Z.max v10 v11) /\
     2 * oh + 1 < 2 * out_h /\ 2 * out_h <= in_h /\
     2 * ow + 1 < 2 * out_w /\ 2 * out_w <= in_w) /\
  (forall j, ~ (0 <= j < channels * out_h * out_w) -> pooled j = output j) /\
  (forall input',
     (forall c row col, 0 <= c < channels -> 0 <= row < 2 * out_h ->
                        0 <= col < 2 * out_w ->
        input' (idx3 in_h in_w c row col) = input (idx3 in_h in_w c row col)) ->
     forall c oh ow, 0 <= c < channels -> 0 <= oh < out_h -> 0 <= ow < out_w ->
       maxpool2d_hw input' output channels in_h in_w (idx3 out_h out_w c oh ow)
       = pooled (idx3 out_h out_w c oh ow)) /\
  (forall (cfg : LayerConfig) (st : engine) ch ph pw,
     0 <= ch < out_channels cfg ->
     0 <= ph < Z.quot (out_height cfg) 2 -> 0 <= pw < Z.quot (out_width cfg) 2 ->
     let m := output_fm st in
     let h := out_height cfg in
     let w := out_width cfg in
     output_fm (POOL_LOOP cfg st) (idx3 (Z.quot h 2) (Z.quot w 2) ch ph pw)
     = Z.max (Z.max (m (idx3 h w ch (2 * ph) (2 * pw)))
                    (m (idx3 h w ch (2 * ph) (2 * pw + 1))))
             (Z.max (m (idx3 h w ch (2 * ph + 1) (2 * pw)))
                    (m (idx3 h w ch (2 * ph + 1) (2 * pw + 1))))).
Proof.
  intros Hh Hw. cbv zeta.
  rewrite <- (Z.quot_div_nonneg in_h 2), <- (Z.quot_div_nonneg in_w 2) by lia.
  split; [|split; [|split]].
  - intros c oh ow Hc Hoh How.
    rewrite maxpool2d_hw_pointwise by assumption.
    unfold pool_window. rewrite max4_hw_max. split; [reflexivity|].
    pose proof (quot2_bounds in_h ltac:(lia)). pose proof (quot2_bounds in_w ltac:(lia)).
    lia.
  - intros j Hj. apply maxpool2d_hw_frame. assumption.
  - intros input' Hagree c oh ow Hc Hoh How.
    rewrite !maxpool2d_hw_pointwise by assumption.
    unfold pool_window. rewrite !Hagree by lia. reflexivity.
  - intros cfg st ch ph pw Hc Hph Hpw.
    rewrite POOL_LOOP_pointwise by assumption.
    unfold pool_window. apply max4_hw_max.
Qed.

Lemma maxpool_2x2_witness :
  maxpool2d_hw (mem_of_list [1; 5; 2; 7; 3; 4; 9; 8; 6]) (const_mem 0) 1 3 3
               (idx3 (3 / 2) (3 / 2) 0 0 0) = 7.
Proof.
  pose proof (maxpool_2x2 (mem_of_list [1; 5; 2; 7; 3; 4; 9; 8; 6]) (const_mem 0) 1 3 3
                ltac:(lia) ltac:(lia)) as (H & _).
  cbv zeta in H.
  destruct (H 0 0 0 ltac:(lia) ltac:(vm_compute; split; [discriminate | reflexivity])
              ltac:(vm_compute; split; [discriminate | reflexivity])) as (E & _).
  rewrite E. reflexivity.
Defined.

(** C10. The pooling pass of [cnn_accelerator_top] reads and writes the
    same [output_fm]; for every channel count and every output height and
    width, even or odd, each pooled element it leaves in [output_fm] is the
    one [maxpool2d_hw] writes into a separate buffer from the same
    pre-pooling map: every window is read before a write of the pass
    reaches it.  Beyond the pooled tensor the map keeps its pre-pooling
    content. *)
Theorem pool_pass_in_place (t : tiling) (c : LayerConfig)
    (input_fm weights bn_scale bn_shift : mem) (st : engine) (separate : mem)
    (ch ph pw : Z) :
  layer_type c = 1 ->
  0 <= ch < out_channels c ->
  0 <= ph < Z.quot (out_height c) 2 -> 0 <= pw < Z.quot (out_width c) 2 ->
  let pre := tile_loops t c input_fm weights bn_scale bn_shift
                        (set_status STATUS_RUNNING st) in
  let pool_idx := idx3 (Z.quot (out_height c) 2) (Z.quot (out_width c) 2) ch ph pw in
  output_fm (POOL_LOOP c pre) pool_idx
  = maxpool2d_hw (output_fm pre) separate
                 (out_channels c) (out_height c) (out_width c) pool_idx /\
  output_fm (cnn_accelerator_top t c input_fm weights bn_scale bn_shift st) pool_idx
  = maxpool2d_hw (output_fm pre) separate
                 (out_channels c) (out_height c) (out_width c) pool_idx /\
  (forall j, ~ (0 <= j < out_channels c * Z.quot (out_height c) 2
                         * Z.quot (out_width c) 2) ->
     output_fm (POOL_LOOP c pre) j = output_fm pre j).
Proof.
  intros Hlt Hc Hph Hpw. cbv zeta.
  assert (E : forall s,
            output_fm (POOL_LOOP c s)
              (idx3 (Z.quot (out_height c) 2) (Z.quot (out_width c) 2) ch ph pw)
            = maxpool2d_hw (output_fm s) separate (out_channels c) (out_height c)
                (out_width c)
                (idx3 (Z.quot (out_height c) 2) (Z.quot (out_width c) 2) ch ph pw)).
  { intros s. rewrite POOL_LOOP_pointwise, maxpool2d_hw_pointwise by assumption.
    reflexivity. }
  split; [apply E|]. split.
  - unfold cnn_accelerator_top. cbv zeta. rewrite Hlt. cbn [Z.eqb Pos.eqb].
    cbn [set_status output_fm]. apply E.
  - intros j Hj. apply POOL_LOOP_frame. assumption.
Qed.

Lemma pool_pass_in_place_witness :
  let c := mkLayer 1 1 2 5 5 3 1 1 in
  let pre := tile_loops zedboard_tiling c (const_mem 256) (const_mem 64)
                        (const_mem 256) (const_mem 0)
                        (set_status STATUS_RUNNING engine_reset) in
  output_fm (POOL_LOOP c pre) (idx3 (Z.quot (out_height c) 2) (Z.quot (out_width c) 2) 1 1 1)
  = maxpool2d_hw (output_fm pre) (const_mem 0) (out_channels c) (out_height c)
                 (out_width c)
                 (idx3 (Z.quot (out_height c) 2) (Z.quot (out_width c) 2) 1 1 1).
Proof.
  cbv zeta.
  assert (Hq : 0 <= 1 < Z.quot 5 2) by (vm_compute; split; [discriminate | reflexivity]).
  exact (proj1 (pool_pass_in_place zedboard_tiling (mkLayer 1 1 2 5 5 3 1 1)
                  (const_mem 256) (const_mem 64) (const_mem 256) (const_mem 0)
                  engine_reset (const_mem 0) 1 1 1
                  eq_refl ltac:(cbn [out_channels]; lia) Hq Hq)).
Defined.

(** ** Engine state machine *)

(** *** The stores a run logs *)

Section StoreEvents.

Context {K : Type}.
Variable w : K -> Z.
Variable val : K -> mem -> mem -> Z.

(** A store loop whose values do not read the output map logs one store
    per key, in key order. *)
Lemma store_loop_events_acc keys : forall st,
  (forall k m1 m2, val k (acc_tile st) m1 = val k (acc_tile st) m2) ->
  events (store_loop w val keys st)
  = events st ++ map (fun k => OutputWrite (w k) (val k (acc_tile st) (output_fm st))) keys.
Proof.
  induction keys as [|k keys IH]; intros st Hv.
  - simpl. rewrite app_nil_r. reflexivity.
  - rewrite store_loop_cons, IH by exact Hv.
    cbn [store_output events acc_tile output_fm map].
    rewrite <- app_assoc. cbn [app]. do 2 f_equal.
    apply map_ext. intros k'. f_equal. apply Hv.
Qed.

(** An in-place store loop along increasing indices logs, for every key,
    the value computed from the output map as it was before the loop. *)
Lemma store_loop_events_increasing keys : forall st,
  increasing w keys ->
  (forall k m1 m2, In k keys ->
     (forall j, w k <= j -> m1 j = m2 j) ->
     val k (acc_tile st) m1 = val k (acc_tile st) m2) ->
  events (store_loop w val keys st)
  = events st ++ map (fun k => OutputWrite (w k) (val k (acc_tile st) (output_fm st))) keys.
Proof.
  induction keys as [|k keys IH]; intros st Hs Hv.
  - simpl. rewrite app_nil_r. reflexivity.
  - apply StronglySorted_inv in Hs. destruct Hs as [Hs Hall].
    rewrite Forall_forall in Hall.
    rewrite store_loop_cons, IH.
    + cbn [store_output events acc_tile output_fm map].
      rewrite <- app_assoc. cbn [app]. do 2 f_equal.
      apply map_ext_in. intros k' Hk'. f_equal.
      apply Hv; [right; assumption|].
      intros j Hj. apply upd_other. specialize (Hall k' Hk'). lia.
    + assumption.
    + cbn [store_output acc_tile]. intros k' m1 m2 Hk'. apply Hv. right. assumption.
Qed.

End StoreEvents.

Lemma list_sum_scale {B} (g : B -> nat) (a : nat) (l : list B) :
  list_sum (map (fun y => a * g y)%nat l) = (a * list_sum (map g l))%nat.
Proof. induction l as [|y l IH]; simpl; [lia | rewrite IH; lia]. Qed.

Lemma list_sum_prod {A B} (f : A -> nat) (g : B -> nat) (l1 : list A) (l2 : list B) :
  list_sum (map (fun p => f (fst p) * g (snd p))%nat (list_prod l1 l2))
  = (list_sum (map f l1) * list_sum (map g l2))%nat.
Proof.
  induction l1 as [|a l1 IH]; [reflexivity|].
  cbn [list_prod map list_sum]. rewrite map_app, list_sum_app, IH, map_map.
  cbn [fst snd]. rewrite list_sum_scale. simpl. lia.
Qed.

(** The extents of the tiles along one dimension add up to the dimension. *)
Lemma tile_extent_sum (n tile : Z) :
  0 < tile -> 0 <= n ->
  list_sum (map (fun i => Z.to_nat (tile_end (i * tile) tile n - i * tile))
                (zrange 0 (tile_count n tile)))
  = Z.to_nat n.
Proof.
  intros Ht Hn.
  assert (H : forall k : nat, Z.of_nat k <= tile_count n tile ->
            list_sum (map (fun i => Z.to_nat (tile_end (i * tile) tile n - i * tile))
                          (zrange 0 (Z.of_nat k)))
            = Z.to_nat (Z.min (Z.of_nat k * tile) n)).
  { induction k as [|k IH]; intros Hk.
    - rewrite zrange_empty by lia. simpl. lia.
    - replace (Z.of_nat (S k)) with (Z.of_nat k + 1) by lia.
      rewrite zrange_snoc, map_app, list_sum_app, IH by lia.
      simpl map. simpl list_sum. rewrite tile_end_min.
      pose proof (tile_start_lt n tile (Z.of_nat k) Ht Hn ltac:(lia)) as Hlt.
      assert (0 <= Z.of_nat k * tile) by (apply Z.mul_nonneg_nonneg; lia).
      replace ((Z.of_nat k + 1) * tile) with (Z.of_nat k * tile + tile) by ring.
      lia. }
  assert (Hc : 0 <= tile_count n tile).
  { rewrite tile_count_div by lia. apply Z.div_pos; lia. }
  specialize (H (Z.to_nat (tile_count n tile))).
  rewrite Z2Nat.id in H by assumption. rewrite H by lia.
  pose proof (tile_count_cover n tile Ht Hn). f_equal. lia.
Qed.

Section TileStores.

Variable t : tiling.
Variable c : LayerConfig.
Variables input_fm weights bn_scale bn_shift : mem.

Hypothesis Htile : 0 < TILE_H t /\ 0 < TILE_W t /\ 0 < TILE_CH t.
Hypothesis Hin_ch : 0 <= in_channels c.
Hypothesis Hstride : 0 <= stride c.

(** The store of output element [(oc, oh, ow)]. *)
Let element_store (oc oh ow : Z) : event :=
  OutputWrite (idx3 (out_height c) (out_width c) oc oh ow)
              (direct_layer c input_fm weights bn_scale bn_shift oc oh ow).

(** The stores of one output tile, in the order of WRITE_OUTPUT. *)
Let tile_stores (p : Z * (Z * Z)) : list event :=
  let oc_start := fst p * TILE_CH t in
  let oh_start := fst (snd p) * TILE_H t in
  let ow_start := snd (snd p) * TILE_W t in
  map (fun k => element_store (oc_start + fst k) (oh_start + fst (snd k))
                              (ow_start + snd (snd k)))
      (list_prod
         (zrange 0 (tile_end oc_start (TILE_CH t) (out_channels c) - oc_start))
         (list_prod
            (zrange 0 (tile_end oh_start (TILE_H t) (out_height c) - oh_start))
            (zrange 0 (tile_end ow_start (TILE_W t) (out_width c) - ow_start)))).

Lemma process_tile_events oc_t oh_t ow_t st :
  0 <= oh_t -> 0 <= ow_t ->
  events (process_tile t c input_fm weights bn_scale bn_shift oc_t oh_t ow_t st)
  = events st ++ tile_stores (oc_t, (oh_t, ow_t)).
Proof.
  intros Hoh_t How_t.
  destruct (process_tile_spec t c input_fm weights bn_scale bn_shift
              Htile Hin_ch Hstride oc_t oh_t ow_t st Hoh_t How_t) as (Pv & _).
  unfold tile_stores. cbn [fst snd]. cbv zeta.
  unfold process_tile in *. cbv zeta in *.
  set (oc_start := oc_t * TILE_CH t) in *.
  set (oc_end := tile_end oc_start (TILE_CH t) (out_channels c)) in *.
  set (oh_start := oh_t * TILE_H t) in *.
  set (oh_end := tile_end oh_start (TILE_H t) (out_height c)) in *.
  set (ow_start := ow_t * TILE_W t) in *.
  set (ow_end := tile_end ow_start (TILE_W t) (out_width c)) in *.
  destruct (for_loop _ _ _ _) as [[it wt] acc].
  assert (Hoh0 : 0 <= oh_start) by (subst oh_start; apply Z.mul_nonneg_nonneg; lia).
  assert (How0 : 0 <= ow_start) by (subst ow_start; apply Z.mul_nonneg_nonneg; lia).
  assert (Hoh1 : oh_start + (oh_end - oh_start) <= out_height c)
    by (subst oh_end; rewrite tile_end_min; lia).
  assert (How1 : ow_start + (ow_end - ow_start) <= out_width c)
    by (subst ow_end; rewrite tile_end_min; lia).
  destruct (WRITE_OUTPUT_spec c bn_scale bn_shift oc_start (oc_end - oc_start)
              oh_start (oh_end - oh_start) ow_start (ow_end - ow_start)
              (conj Hoh0 Hoh1) (conj How0 How1) (set_buffers it wt acc st))
    as (Wv & _).
  rewrite WRITE_OUTPUT_store_loop, store_loop_events_acc by reflexivity.
  cbn [set_buffers events]. f_equal.
  apply map_ext_in. intros [a [b d]] Hk. apply in_keys3 in Hk.
  destruct Hk as (Ha & Hb & Hd). cbn [fst snd]. unfold element_store. f_equal.
  rewrite <- Wv by assumption.
  apply Pv. unfold in_tile. fold oc_start oc_end oh_start oh_end ow_start ow_end. lia.
Qed.

Lemma tiles_fold_events (tiles : list (Z * (Z * Z))) : forall st,
  (forall p, In p tiles -> 0 <= fst p /\ 0 <= fst (snd p) /\ 0 <= snd (snd p)) ->
  events (fold_left (fun s p => process_tile t c input_fm weights bn_scale bn_shift
                                  (fst p) (fst (snd p)) (snd (snd p)) s) tiles st)
  = events st ++ flat_map tile_stores tiles.
Proof.
  induction tiles as [|p ts IH]; intros st Hpos.
  - simpl. rewrite app_nil_r. reflexivity.
  - cbn [fold_left flat_map].
    rewrite IH by (intros q Hq; apply Hpos; right; assumption).
    destruct (Hpos p (or_introl eq_refl)) as (_ & H2 & H3).
    rewrite process_tile_events by assumption.
    rewrite <- app_assoc. destruct p as [a [b d]]. reflexivity.
Qed.

Lemma length_tile_stores p :
  length (tile_stores p)
  = (Z.to_nat (tile_end (fst p * TILE_CH t) (TILE_CH t) (out_channels c)
               - fst p * TILE_CH t)
     * (Z.to_nat (tile_end (fst (snd p) * TILE_H t) (TILE_H t) (out_height c)
                  - fst (snd p) * TILE_H t)
        * Z.to_nat (tile_end (snd (snd p) * TILE_W t) (TILE_W t) (out_width c)
                    - snd (snd p) * TILE_W t)))%nat.
Proof.
  unfold tile_stores. cbv zeta.
  rewrite length_map, !length_prod, !length_zrange, !Z.sub_0_r. reflexivity.
Qed.

(** The tile loops log the store of every output element, and as many
    stores as there are output elements: each element is stored once. *)
Lemma tile_loops_events st :
  0 <= out_channels c -> 0 <= out_height c -> 0 <= out_width c ->
  exists l,
    events (tile_loops t c input_fm weights bn_scale bn_shift st) = events st ++ l /\
    (forall oc oh ow,
       0 <= oc < out_channels c -> 0 <= oh < out_height c -> 0 <= ow < out_width c ->
       In (OutputWrite (idx3 (out_height c) (out_width c) oc oh ow)
                       (direct_layer c input_fm weights bn_scale bn_shift oc oh ow)) l) /\
    Z.of_nat (length l) = out_channels c * out_height c * out_width c.
Proof.
  intros Hoc Hoh How. unfold tile_loops. cbv zeta. rewrite for_loop_nest3.
  set (tiles := list_prod _ _).
  assert (Hpos : forall p, In p tiles ->
            0 <= fst p /\ 0 <= fst (snd p) /\ 0 <= snd (snd p)).
  { intros [a [b d]] Hp. subst tiles. apply in_keys3 in Hp. cbn [fst snd]. lia. }
  exists (flat_map tile_stores tiles). split; [|split].
  - apply tiles_fold_events. assumption.
  - intros oc oh ow Boc Boh Bow. apply in_flat_map.
    pose proof (tile_of_index (out_channels c) (TILE_CH t) oc ltac:(lia) Boc) as (T1 & T1').
    pose proof (tile_of_index (out_height c) (TILE_H t) oh ltac:(lia) Boh) as (T2 & T2').
    pose proof (tile_of_index (out_width c) (TILE_W t) ow ltac:(lia) Bow) as (T3 & T3').
    exists (oc / TILE_CH t, (oh / TILE_H t, ow / TILE_W t)). split.
    + subst tiles. apply in_keys3. auto.
    + unfold tile_stores. cbn [fst snd]. cbv zeta.
      apply in_map_iff.
      exists (oc - oc / TILE_CH t * TILE_CH t,
              (oh - oh / TILE_H t * TILE_H t, ow - ow / TILE_W t * TILE_W t)).
      cbn [fst snd]. split.
      * unfold element_store. f_equal; f_equal; ring.
      * apply in_keys3. lia.
  - rewrite length_flat_map.
    rewrite (map_ext _ _ length_tile_stores).
    subst tiles.
    rewrite (list_sum_prod
               (fun a => Z.to_nat (tile_end (a * TILE_CH t) (TILE_CH t) (out_channels c)
                                   - a * TILE_CH t))
               (fun q => (Z.to_nat (tile_end (fst q * TILE_H t) (TILE_H t) (out_height c)
                                    - fst q * TILE_H t)
                          * Z.to_nat (tile_end (snd q * TILE_W t) (TILE_W t) (out_width c)
                                      - snd q * TILE_W t))%nat)).
    rewrite (list_sum_prod
               (fun b => Z.to_nat (tile_end (b * TILE_H t) (TILE_H t) (out_height c)
                                   - b * TILE_H t))
               (fun d => Z.to_nat (tile_end (d * TILE_W t) (TILE_W t) (out_width c)
                                   - d * TILE_W t))).
    rewrite !tile_extent_sum by lia.
    rewrite !Nat2Z.inj_mul, !Z2Nat.id by assumption. ring.
Qed.

End TileStores.

(** The pooling pass logs one store per pooled position, each with the
    maximum of its window in the map as it was before the pass. *)
Lemma POOL_LOOP_stores (c : LayerConfig) (st : engine) :
  events (POOL_LOOP c st)
  = events st
    ++ map (fun p => OutputWrite (pool_idx (out_height c) (out_width c) p)
                       (pool_window (output_fm st) (out_height c) (out_width c)
                                    (fst p) (fst (snd p)) (snd (snd p))))
           (pool_keys (out_channels c) (out_height c) (out_width c)).
Proof.
  rewrite POOL_LOOP_store_loop.
  apply (store_loop_events_increasing (pool_idx (out_height c) (out_width c))
           (fun p _ m => pool_window m (out_height c) (out_width c)
                           (fst p) (fst (snd p)) (snd (snd p)))).
  - apply pool_keys_increasing.
  - intros [a [b d]] m1 m2 Hin Hagree. apply in_pool_keys in Hin.
    destruct Hin as (Ha & Hb & Hd). cbn [fst snd].
    pose proof (pool_window_above (out_height c) (out_width c) a b d
                  ltac:(lia) Hb Hd) as Habove.
    pose proof (quot2_bounds (out_width c) ltac:(lia)) as Hwb.
    unfold pool_idx in Hagree. cbn [fst snd] in Hagree.
    unfold pool_window. unfold idx3 in *.
    f_equal; apply Hagree; lia.
Qed.

(** C9. On a valid layer whose tiles fit the static buffers, the port trace
    of a run of [cnn_accelerator_top] is: the status register is set to
    running; then the stores of the output tiles, which contain the store
    of every output element with the value of the direct convolution and
    are as many as the layer has output elements; then, for a
    conv_bn_relu_pool layer only, the stores of the pooling pass, one per
    pooled position with the maximum of its window in the map the tiles
    left; and only then the single write that clears the status register
    to done.  Nothing else is logged: the output map at the end is the
    replay of these stores, and at every point strictly inside the trace,
    so whenever an output element or a pooled position is still unwritten,
    the status register reads running.  The run has no exit other than its
    end: every loop of the engine is a counted loop. *)
Theorem engine_state_machine (t : tiling) (c : LayerConfig)
    (input_fm weights bn_scale bn_shift : mem) (st : engine) :
  valid_layer c -> resource_compatible t c ->
  let r := cnn_accelerator_top t c input_fm weights bn_scale bn_shift st in
  exists tile_stores pool_stores,
    events r = events st ++ StatusWrite STATUS_RUNNING :: tile_stores ++ pool_stores
                         ++ [StatusWrite STATUS_DONE] /\
    (forall oc oh ow,
       0 <= oc < out_channels c -> 0 <= oh < out_height c -> 0 <= ow < out_width c ->
       In (OutputWrite (idx3 (out_height c) (out_width c) oc oh ow)
                       (direct_layer c input_fm weights bn_scale bn_shift oc oh ow))
          tile_stores) /\
    Z.of_nat (length tile_stores) = out_channels c * out_height c * out_width c /\
    pool_stores
    = (if layer_type c =? 1
       then map (fun p => OutputWrite (pool_idx (out_height c) (out_width c) p)
                            (pool_window (replay tile_stores (output_fm st))
                                         (out_height c) (out_width c)
                                         (fst p) (fst (snd p)) (snd (snd p))))
                (pool_keys (out_channels c) (out_height c) (out_width c))
       else []) /\
    Forall is_output_write (tile_stores ++ pool_stores) /\
    output_fm r = replay (tile_stores ++ pool_stores) (output_fm st) /\
    status r = STATUS_DONE /\
    status_after (status st)
                 (StatusWrite STATUS_RUNNING :: tile_stores ++ pool_stores
                                             ++ [StatusWrite STATUS_DONE])
    = STATUS_DONE /\
    forall pre suf,
      StatusWrite STATUS_RUNNING :: tile_stores ++ pool_stores
                                 ++ [StatusWrite STATUS_DONE] = pre ++ suf ->
      pre <> [] -> suf <> [] ->
      status_after (status st) pre = STATUS_RUNNING.
Proof.
  intros Hv Hf. cbv zeta.
  destruct Hv as (_ & Hic & Hoc & _ & _ & _ & Hs & _ & Hoh & How).
  destruct Hf as (Ht1 & Ht2 & Ht3 & _).
  set (st1 := set_status STATUS_RUNNING st).
  destruct (tile_loops_events t c input_fm weights bn_scale bn_shift
              (conj Ht1 (conj Ht2 Ht3)) ltac:(lia) ltac:(lia) st1
              ltac:(lia) ltac:(lia) ltac:(lia)) as (tl & Et & Hin & Hlen).
  destruct (tile_loops_only_stores t c input_fm weights bn_scale bn_shift st1 st1
              (only_stores_refl st1)) as (_ & tl' & Et' & _ & Ot).
  assert (tl' = tl) by (apply (app_inv_head (events st1)); congruence). subst tl'.
  destruct (run_only_stores t c input_fm weights bn_scale bn_shift st)
    as (Hst & l & He & Hl & Ho).
  fold st1 in Hst, He, Ho.
  set (pl := if layer_type c =? 1
             then map (fun p => OutputWrite (pool_idx (out_height c) (out_width c) p)
                            (pool_window (replay tl (output_fm st))
                                         (out_height c) (out_width c)
                                         (fst p) (fst (snd p)) (snd (snd p))))
                      (pool_keys (out_channels c) (out_height c) (out_width c))
             else []).
  assert (El : l = tl ++ pl).
  { apply (app_inv_head (events st1)). rewrite <- He. subst pl.
    destruct (layer_type c =? 1).
    - rewrite POOL_LOOP_stores, Et, Ot, <- app_assoc. reflexivity.
    - rewrite app_nil_r. exact Et. }
  subst l.
  exists tl, pl. clear Et Et' Ot.
  unfold cnn_accelerator_top. cbv zeta.
  subst st1. unfold STATUS_RUNNING, STATUS_DONE in *.
  cbn [set_status events output_fm status] in *.
  rewrite He, <- !app_assoc. cbn [app].
  split; [reflexivity|]. split; [exact Hin|]. split; [exact Hlen|].
  split; [reflexivity|]. split; [assumption|]. split; [assumption|].
  split; [reflexivity|]. rewrite app_assoc. split.
  - cbn [status_after].
    assert (H : forall s l', Forall is_output_write l' ->
                  status_after s (l' ++ [StatusWrite 0]) = 0).
    { intros s l'. revert s. induction l' as [|e l' IH]; intros s H; [reflexivity|].
      apply Forall_cons_iff in H. destruct H as [He' Hl'].
      destruct e; [destruct He' | apply IH; assumption]. }
    apply H. assumption.
  - intros pre suf E Hpre Hsuf.
    destruct pre as [|e pre]; [contradiction|].
    cbn [app] in E. injection E as <- E.
    apply proper_prefix_snoc in E; [|assumption].
    destruct E as (s' & E). rewrite E in Hl.
    cbn [status_after]. apply status_after_stores.
    apply Forall_app in Hl. tauto.
Qed.

Lemma engine_state_machine_witness :
  let c := mkLayer 1 1 2 5 5 3 1 1 in
  let r := cnn_accelerator_top zedboard_tiling c (const_mem 256) (const_mem 64)
                               (const_mem 256) (const_mem 0) engine_reset in
  exists tile_stores pool_stores,
    events r = StatusWrite STATUS_RUNNING :: tile_stores ++ pool_stores
                 ++ [StatusWrite STATUS_DONE] /\
    length tile_stores = 50%nat /\ length pool_stores = 8%nat /\
    In (OutputWrite 49 (direct_layer c (const_mem 256) (const_mem 64) (const_mem 256)
                                     (const_mem 0) 1 4 4)) tile_stores.
Proof.
  cbv zeta.
  destruct (engine_state_machine zedboard_tiling (mkLayer 1 1 2 5 5 3 1 1)
              (const_mem 256) (const_mem 64) (const_mem 256) (const_mem 0) engine_reset)
    as (ts & ps & E & Hin & Hlen & Hp & _).
  - unfold valid_layer; cbn; repeat split; discriminate.
  - unfold resource_compatible; cbn; repeat split; discriminate.
  - exists ts, ps. split; [exact E|]. split; [|split].
    + apply Nat2Z.inj. exact Hlen.
    + rewrite Hp. reflexivity.
    + apply (Hin 1 4 4); cbn; lia.
Defined.

(** ** Output geometry and degenerate layers *)

(** C3, as the specification states it, fails: the engine has no
    rejection path.  A 1x1 input with a 3x3 kernel and no padding has
    output height -1, and the run starts and completes as any other. *)
Lemma invalid_layer_not_rejected :
  let c := mkLayer 0 1 1 1 1 3 1 0 in
  let r := cnn_accelerator_top zedboard_tiling c (const_mem 0) (const_mem 0)
                               (const_mem 0) (const_mem 0) engine_reset in
  out_height c = -1 /\
  events r = [StatusWrite STATUS_RUNNING; StatusWrite STATUS_DONE] /\
  ~ run_rejected engine_reset r.
Proof.
  cbv zeta. split; [reflexivity|]. split; [reflexivity|].
  intros [H _]. vm_compute in H. discriminate H.
Qed.

(** C3 (amended). The engine computes
    [out_h = (in_h + 2 * padding - kernel_size) / stride + 1] with C integer
    division, and [out_w] likewise; on a valid geometry this is the floor
    of the quotient.  A configuration with [out_h <= 0] or [out_w <= 0] is
    not rejected: the run sets the status register to running, executes no
    tile and no pooling iteration, leaves the output feature map untouched,
    and clears the status register. *)
Theorem degenerate_layer_runs_empty (t : tiling) (c : LayerConfig)
    (input_fm weights bn_scale bn_shift : mem) (st : engine) :
  0 < TILE_H t -> 0 < TILE_W t -> stride c <> 0 ->
  out_height c = Z.quot (in_height c + 2 * padding c - kernel_size c) (stride c) + 1 /\
  out_width c = Z.quot (in_width c + 2 * padding c - kernel_size c) (stride c) + 1 /\
  (0 < stride c -> 0 <= in_height c + 2 * padding c - kernel_size c ->
     out_height c = (in_height c + 2 * padding c - kernel_size c) / stride c + 1) /\
  (0 < stride c -> 0 <= in_width c + 2 * padding c - kernel_size c ->
     out_width c = (in_width c + 2 * padding c - kernel_size c) / stride c + 1) /\
  (out_height c <= 0 \/ out_width c <= 0 ->
     let r := cnn_accelerator_top t c input_fm weights bn_scale bn_shift st in
     events r = events st ++ [StatusWrite STATUS_RUNNING; StatusWrite STATUS_DONE] /\
     output_fm r = output_fm st /\
     status r = STATUS_DONE).
Proof.
  intros Hth Htw Hs.
  split; [reflexivity|]. split; [reflexivity|]. split; [|split].
  - intros Hpos Hnum. unfold out_height, out_dim.
    rewrite Z.quot_div_nonneg by lia. reflexivity.
  - intros Hpos Hnum. unfold out_width, out_dim.
    rewrite Z.quot_div_nonneg by lia. reflexivity.
  - intros Hdim. cbv zeta. unfold cnn_accelerator_top. cbv zeta.
    rewrite tile_loops_degenerate by assumption.
    assert (E : (if layer_type c =? 1 then POOL_LOOP c (set_status 1 st)
                 else set_status 1 st) = set_status 1 st).
    { destruct (layer_type c =? 1); [apply POOL_LOOP_degenerate; assumption
                                    | reflexivity]. }
    rewrite E. cbn [set_status events output_fm status].
    rewrite <- app_assoc. repeat split.
Qed.

Lemma degenerate_layer_runs_empty_witness :
  let c := mkLayer 1 1 1 1 1 3 1 0 in
  out_height c <= 0 /\
  events (cnn_accelerator_top zedboard_tiling c (const_mem 5) (const_mem 5)
                              (const_mem 256) (const_mem 0) engine_reset)
  = events engine_reset ++ [StatusWrite STATUS_RUNNING; StatusWrite STATUS_DONE].
Proof.
  cbv zeta.
  assert (H : out_height (mkLayer 1 1 1 1 1 3 1 0) <= 0) by (vm_compute; discriminate).
  split; [exact H|].
  pose proof (degenerate_layer_runs_empty zedboard_tiling (mkLayer 1 1 1 1 1 3 1 0)
                (const_mem 5) (const_mem 5) (const_mem 256) (const_mem 0) engine_reset
                ltac:(cbn; lia) ltac:(cbn; lia) ltac:(cbn; lia))
    as (_ & _ & _ & _ & Hrun).
  apply Hrun. left. exact H.
Defined.

(** ** Tiling invariance *)

Lemma idx3_surj h w n j :
  0 < h -> 0 < w -> 0 <= j < n * h * w ->
  exists a b d, 0 <= a < n /\ 0 <= b < h /\ 0 <= d < w /\ j = idx3 h w a b d.
Proof.
  intros Hh Hw Hj.
  exists (j / w / h), ((j / w) mod h), (j mod w).
  pose proof (Z.div_mod j w ltac:(lia)) as E1.
  pose proof (Z.mod_pos_bound j w Hw) as B1.
  pose proof (Z.div_mod (j / w) h ltac:(lia)) as E2.
  pose proof (Z.mod_pos_bound (j / w) h Hh) as B2.
  assert (0 <= j / w) by (apply Z.div_pos; lia).
  assert (0 <= j / w / h) by (apply Z.div_pos; lia).
  assert (j / w < n * h) by (apply Z.div_lt_upper_bound; lia).
  assert (j / w / h < n) by (apply Z.div_lt_upper_bound; lia).
  repeat split; try lia.
  rewrite idx3_radix. lia.
Qed.

Lemma write_loop_ext_mem {K} (w : K -> Z) (val : K -> mem -> Z) (keys : list K) :
  (forall k m m', (forall j, m j = m' j) -> val k m = val k m') ->
  forall m m', (forall j, m j = m' j) ->
  forall j, write_loop w val keys m j = write_loop w val keys m' j.
Proof.
  intros Hval. induction keys as [|k keys IH]; intros m m' Hm j; [apply Hm|].
  rewrite !write_loop_cons. apply IH. intros i. unfold upd.
  rewrite (Hval k m m' Hm), Hm. reflexivity.
Qed.

Lemma POOL_LOOP_ext c st st' :
  (forall j, output_fm st j = output_fm st' j) ->
  forall j, output_fm (POOL_LOOP c st) j = output_fm (POOL_LOOP c st') j.
Proof.
  intros H j. rewrite !POOL_LOOP_output. apply write_loop_ext_mem; [|assumption].
  intros k m m' Hm. unfold pool_window. rewrite !Hm. reflexivity.
Qed.

Section TilingInvariance.

Variable c : LayerConfig.
Variables input_fm weights bn_scale bn_shift : mem.

Hypothesis Hvalid : valid_layer c.

(** The reassembled tiles, at every index of the output feature map. *)
Lemma tile_loops_all_indices t st j :
  resource_compatible t c ->
  output_fm (tile_loops t c input_fm weights bn_scale bn_shift st) j
  = if (0 <=? j) && (j <? out_channels c * out_height c * out_width c)
    then direct_layer c input_fm weights bn_scale bn_shift
           (j / out_width c / out_height c) ((j / out_width c) mod out_height c)
           (j mod out_width c)
    else output_fm st j.
Proof.
  intros (Hth & Htw & Htc & _).
  destruct Hvalid as (_ & Hic & _ & _ & _ & _ & Hs & _ & Hoh & How).
  destruct (tile_loops_spec t c input_fm weights bn_scale bn_shift
              (conj Hth (conj Htw Htc)) ltac:(lia) ltac:(lia) st) as (Hv & Hf & _).
  destruct (Z.leb_spec 0 j); destruct (Z.ltb_spec j
    (out_channels c * out_height c * out_width c)); cbn [andb];
    try (apply Hf; lia).
  destruct (idx3_surj (out_height c) (out_width c) (out_channels c) j Hoh How
              ltac:(lia)) as (a & b & d & Ha & Hb & Hd & E).
  assert (Ed : j mod out_width c = d).
  { symmetry. apply Z.mod_unique with (q := a * out_height c + b); [lia|].
    rewrite E, idx3_radix. ring. }
  assert (Eq : j / out_width c = a * out_height c + b).
  { symmetry. apply Z.div_unique with (r := d); [lia|].
    rewrite E, idx3_radix. ring. }
  assert (Eb : (j / out_width c) mod out_height c = b).
  { rewrite Eq. symmetry. apply Z.mod_unique with (q := a); [lia | ring]. }
  assert (Ea : j / out_width c / out_height c = a).
  { rewrite Eq. symmetry. apply Z.div_unique with (r := b); [lia | ring]. }
  rewrite Ed, Eb, Ea, E. apply Hv; assumption.
Qed.

Lemma top_output_tiling_independent t t' st j :
  resource_compatible t c -> resource_compatible t' c ->
  output_fm (cnn_accelerator_top t c input_fm weights bn_scale bn_shift st) j
  = output_fm (cnn_accelerator_top t' c input_fm weights bn_scale bn_shift st) j.
Proof.
  intros Ht Ht'. unfold cnn_accelerator_top. cbv zeta.
  cbn [set_status output_fm].
  destruct (layer_type c =? 1).
  - apply POOL_LOOP_ext. intros i. rewrite !tile_loops_all_indices by assumption.
    reflexivity.
  - rewrite !tile_loops_all_indices by assumption. reflexivity.
Qed.

End TilingInvariance.

(** C1. For a valid layer and tile sizes the platform can hold, the output
    feature map reassembled from the tiles equals, element for element, the
    direct non-tiled fixed-point convolution (with the fused normalization
    and activation) of the same inputs and weights; with pooling requested,
    the pooled map is the 2x2 maximum of the direct result.  Hence the
    output does not depend on the tiling: splitting the input channels over
    several input-channel tiles gives the output of one tile covering all
    channels. *)
Theorem tiling_invariance (t : tiling) (c : LayerConfig)
    (input_fm weights bn_scale bn_shift : mem) (st : engine) :
  valid_layer c -> resource_compatible t c ->
  let r := cnn_accelerator_top t c input_fm weights bn_scale bn_shift st in
  let direct := direct_layer c input_fm weights bn_scale bn_shift in
  (layer_type c <> 1 ->
     forall oc oh ow,
       0 <= oc < out_channels c -> 0 <= oh < out_height c -> 0 <= ow < out_width c ->
       output_fm r (idx3 (out_height c) (out_width c) oc oh ow) = direct oc oh ow) /\
  (layer_type c = 1 ->
     forall ch ph pw,
       0 <= ch < out_channels c ->
       0 <= ph < Z.quot (out_height c) 2 -> 0 <= pw < Z.quot (out_width c) 2 ->
       output_fm r (idx3 (Z.quot (out_height c) 2) (Z.quot (out_width c) 2) ch ph pw)
       = max4_hw (direct ch (2 * ph) (2 * pw)) (direct ch (2 * ph) (2 * pw + 1))
                 (direct ch (2 * ph + 1) (2 * pw))
                 (direct ch (2 * ph + 1) (2 * pw + 1))) /\
  (forall t' : tiling,
     resource_compatible t' c ->
     1 < tile_count (in_channels c) (TILE_CH t) ->
     tile_count (in_channels c) (TILE_CH t') = 1 ->
     forall j,
       output_fm r j
       = output_fm (cnn_accelerator_top t' c input_fm weights bn_scale bn_shift st) j) /\
  (forall t' : tiling,
     resource_compatible t' c ->
     forall j,
       output_fm r j
       = output_fm (cnn_accelerator_top t' c input_fm weights bn_scale bn_shift st) j).
Proof.
  intros Hvalid Ht. cbv zeta.
  pose proof Ht as (Hth & Htw & Htc & _).
  pose proof Hvalid as (_ & Hic & _ & _ & _ & _ & Hs & _ & Hoh & How).
  assert (Hpre : forall s oc oh ow,
            0 <= oc < out_channels c -> 0 <= oh < out_height c ->
            0 <= ow < out_width c ->
            output_fm (tile_loops t c input_fm weights bn_scale bn_shift s)
                      (idx3 (out_height c) (out_width c) oc oh ow)
            = direct_layer c input_fm weights bn_scale bn_shift oc oh ow).
  { intros s. apply (tile_loops_spec t c input_fm weights bn_scale bn_shift
                       (conj Hth (conj Htw Htc)) ltac:(lia) ltac:(lia) s). }
  split; [|split; [|split]].
  - intros Hlt oc oh ow Hoc Hoh' How'. unfold cnn_accelerator_top. cbv zeta.
    apply Z.eqb_neq in Hlt. rewrite Hlt. cbn [set_status output_fm].
    apply Hpre; assumption.
  - intros Hlt ch ph pw Hch Hph Hpw. unfold cnn_accelerator_top. cbv zeta.
    rewrite Hlt. cbn [Z.eqb Pos.eqb set_status output_fm].
    rewrite POOL_LOOP_pointwise by assumption. unfold pool_window.
    pose proof (quot2_bounds (out_height c) ltac:(lia)).
    pose proof (quot2_bounds (out_width c) ltac:(lia)).
    rewrite !Hpre by lia. reflexivity.
  - intros t' Ht' _ _ j. apply top_output_tiling_independent; assumption.
  - intros t' Ht' j. apply top_output_tiling_independent; assumption.
Qed.

(** A 40-channel 8x8 layer on the compiled tile sizes (two input-channel
    tiles) against one tile of 64 channels. *)
Lemma tiling_invariance_witness :
  let c := mkLayer 0 40 16 8 8 3 1 1 in
  valid_layer c /\ resource_compatible zedboard_tiling c /\
  resource_compatible (mkTiling 14 14 64) c /\
  tile_count (in_channels c) (TILE_CH zedboard_tiling) = 2 /\
  tile_count (in_channels c) 64 = 1 /\
  output_fm (cnn_accelerator_top zedboard_tiling c (const_mem 64) (const_mem 16)
                                 (const_mem 256) (const_mem 0) engine_reset) 5
  = output_fm (cnn_accelerator_top (mkTiling 14 14 64) c (const_mem 64) (const_mem 16)
                                   (const_mem 256) (const_mem 0) engine_reset) 5.
Proof.
  cbv zeta.
  assert (Hv : valid_layer (mkLayer 0 40 16 8 8 3 1 1))
    by (unfold valid_layer; cbn; repeat split; discriminate).
  assert (Ht : resource_compatible zedboard_tiling (mkLayer 0 40 16 8 8 3 1 1))
    by (unfold resource_compatible; cbn; repeat split; discriminate).
  assert (Ht' : resource_compatible (mkTiling 14 14 64) (mkLayer 0 40 16 8 8 3 1 1))
    by (unfold resource_compatible; cbn; repeat split; discriminate).
  split; [exact Hv|]. split; [exact Ht|]. split; [exact Ht'|].
  split; [reflexivity|]. split; [reflexivity|].
  destruct (tiling_invariance zedboard_tiling (mkLayer 0 40 16 8 8 3 1 1)
              (const_mem 64) (const_mem 16) (const_mem 256) (const_mem 0)
              engine_reset Hv Ht) as (_ & _ & Hsplit & _).
  apply Hsplit; [exact Ht' | reflexivity | reflexivity].
Defined.

(** A 3-channel 3x3 layer with pooling, run with 2x2x2 tiles (two
    input-channel tiles, four spatial tiles) and with the compiled tile
    sizes (one tile): both leave the same pooled element and the same
    pre-pooling rest in the output map. *)
Example tiling_small_layer :
  let c := mkLayer 1 3 2 3 3 3 1 1 in
  let input_fm := mem_of_list [256; -128; 64; 512; 0; -256; 32; 768; -64;
                               -512; 128; 256; 64; -32; 16; 0; 384; -96;
                               100; -200; 300; -400; 500; -600; 700; -800; 900] in
  let weights := fun i => (i * 37) mod 257 - 128 in
  let bn_scale := mem_of_list [256; 384] in
  let bn_shift := mem_of_list [-64; 32] in
  let split := cnn_accelerator_top (mkTiling 2 2 2) c input_fm weights bn_scale bn_shift
                                   engine_reset in
  let whole := cnn_accelerator_top zedboard_tiling c input_fm weights bn_scale bn_shift
                                   engine_reset in
  tile_count (in_channels c) 2 = 2 /\
  map (output_fm split) (zrange 0 18) = map (output_fm whole) (zrange 0 18) /\
  output_fm split 0
  = max4_hw (direct_layer c input_fm weights bn_scale bn_shift 0 0 0)
            (direct_layer c input_fm weights bn_scale bn_shift 0 0 1)
            (direct_layer c input_fm weights bn_scale bn_shift 0 1 0)
            (direct_layer c input_fm weights bn_scale bn_shift 0 1 1).
Proof. cbv zeta. repeat split; vm_compute; reflexivity. Qed.

(** ** Accumulator lifecycle *)

(** In the tiled engine the lifecycle holds: the value finalized for an
    element of an output tile is the sum, started from zero, of the
    products of all input channels of that element. *)
Lemma engine_accumulates_before_finalize (t : tiling) (c : LayerConfig)
    (input_fm weights bn_scale bn_shift : mem) (oc_t oh_t ow_t : Z) (st : engine)
    (oc oh ow : Z) :
  0 < TILE_H t /\ 0 < TILE_W t /\ 0 < TILE_CH t ->
  0 <= in_channels c -> 0 <= stride c -> 0 <= oh_t -> 0 <= ow_t ->
  in_tile t c oc_t oh_t ow_t oc oh ow ->
  output_fm (process_tile t c input_fm weights bn_scale bn_shift oc_t oh_t ow_t st)
            (idx3 (out_height c) (out_width c) oc oh ow)
  = fused_norm_act c bn_scale bn_shift oc
      (conv_mac c input_fm weights oc oh ow 0 (in_channels c) 0).
Proof.
  intros Ht Hic Hs Hoh How Hin.
  apply (process_tile_spec t c input_fm weights bn_scale bn_shift Ht Hic Hs
           oc_t oh_t ow_t st Hoh How). assumption.
Qed.

(** C4 fails in [conv2d_hw].  Its accumulators [acc_buf] are zeroed on the
    first input-channel tile and written on the last, as the lifecycle asks,
    but the loop over input-channel tiles encloses the loops over output
    pixels, and [acc_buf] has no entry per pixel: with more than
    [PARALLEL_IN_CH] input channels the value written for a pixel carries
    the partial sum of the last pixel of the previous pass instead of its
    own.  Nine input channels, a 1x2 input [1.0, 2.0] in channel 0, a 3x3
    kernel whose centre weight for channel 0 is 1.0: the direct convolution
    gives 1.0 at output pixel 0, [conv2d_hw] writes 2.0; with eight input
    channels it writes 1.0, and so does the tiled engine with two
    input-channel tiles. *)
Theorem conv2d_hw_accumulator_not_per_pixel :
  let input := mem_of_list [256; 512] in
  let weights := mem_of_list [0; 0; 0; 0; 256] in
  let statics := mkConv (const_mem 0) (const_mem 0) (const_mem 0) in
  let c := mkLayer 2 9 1 1 2 3 1 1 in
  tile_count 9 PARALLEL_IN_CH = 2 /\
  Fixed.narrow (direct_conv c input weights 0 0 0) = 256 /\
  conv_output (conv2d_hw (const_mem 0) input weights 9 1 2 1 3 1 1 statics) 0 = 512 /\
  conv_output (conv2d_hw (const_mem 0) input weights 8 1 2 1 3 1 1 statics) 0 = 256 /\
  output_fm (cnn_accelerator_top (mkTiling 14 14 8) c input weights
                                 (const_mem 0) (const_mem 0) engine_reset) 0 = 256.
Proof. cbv zeta. repeat split; vm_compute; reflexivity. Qed.

(** ** Global average pooling *)

(** The reciprocal is stored in the narrow type: it is exact only when
    [height * width] divides 256, and it is zero from 513 elements on. *)
Lemma data_of_recip_values :
  Fixed.data_of_recip 4 = 64 /\ Fixed.data_of_recip 49 = 5 /\
  Fixed.data_of_recip 512 = 1 /\ Fixed.data_of_recip 513 = 0 /\
  Fixed.data_of_recip (224 * 224) = 0.
Proof. repeat split. Qed.

(** From 513 spatial elements on, every channel averages to zero. *)
Lemma global_avgpool_hw_large (input output : mem) (channels height width ch : Z) :
  512 < height * width -> 0 <= ch < channels ->
  global_avgpool_hw input output channels height width ch = 0.
Proof.
  intros Hn Hch. unfold global_avgpool_hw. cbv zeta.
  assert (E : Fixed.data_of_recip (height * width) = 0).
  { unfold Fixed.data_of_recip. change (2 * 2 ^ Fixed.DATA_F) with 512.
    rewrite Z.div_small by lia. reflexivity. }
  rewrite E. unfold for_loop at 1.
  transitivity (Fixed.narrow_prod
                  (for_loop 0 (height * width)
                     (fun j sum => Fixed.acc_add_data sum
                                     (input (ch * (height * width) + j))) 0) 0);
    [|unfold Fixed.narrow_prod; rewrite Z.mul_0_r; reflexivity].
  apply (write_loop_increasing (fun i : Z => i)
           (fun i _ => Fixed.narrow_prod
                         (for_loop 0 (height * width)
                            (fun j sum => Fixed.acc_add_data sum
                                            (input (i * (height * width) + j))) 0) 0)
           (zrange 0 channels) output) with (k := ch).
  - apply increasing_zrange. intros; lia.
  - reflexivity.
  - apply in_zrange. assumption.
Qed.

(** C7 fails in [global_avgpool_hw]: the channel sum is multiplied by
    [data_t(1.0 / (height * width))], and that reciprocal, rounded to 8
    fractional bits, is far from [1 / (height * width)].  A 23x23 channel
    of constant 1.0 averages to 0; a 7x7 channel of constant 100.0 to
    95.7; a 2x2 channel of constant 1.0 to 1.0. *)
Theorem global_avgpool_hw_constant_channel :
  global_avgpool_hw (const_mem 256) (const_mem 0) 1 23 23 0 = 0 /\
  global_avgpool_hw (const_mem 25600) (const_mem 0) 1 7 7 0 = 24500 /\
  global_avgpool_hw (const_mem 256) (const_mem 0) 1 2 2 0 = 256 /\
  ~ (Z.abs (global_avgpool_hw (const_mem 256) (const_mem 0) 1 23 23 0 - 256) <= 1) /\
  ~ (Z.abs (global_avgpool_hw (const_mem 25600) (const_mem 0) 1 7 7 0 - 25600) <= 1).
Proof.
  repeat split; try (vm_compute; reflexivity); vm_compute; intros H; apply H; reflexivity.
Qed.

(* ================================================================== *)
(** * Further properties of the activation functions *)

(** [leaky_relu_hw] maps narrow values to narrow values, is monotone,
    leaves positive values unchanged, and maps every negative value to a
    negative value (the shift rounds towards minus infinity, so a small
    negative input is never flushed to zero). *)
Lemma leaky_relu_hw_facts (x y : Z) :
  Fixed.is_data x -> Fixed.is_data y ->
  Fixed.is_data (leaky_relu_hw x) /\
  (x <= y -> leaky_relu_hw x <= leaky_relu_hw y) /\
  (0 < x -> leaky_relu_hw x = x) /\
  (x < 0 -> x <= leaky_relu_hw x < 0) /\
  leaky_relu_hw 0 = 0.
Proof.
  intros Hx Hy. unfold Fixed.is_data in *.
  destruct sigmoid_constants as (_ & _ & _ & _ & Emin & Emax).
  rewrite Emin, Emax in *.
  destruct (leaky_relu_hw_slope x) as (Ex & _).
  destruct (leaky_relu_hw_slope y) as (Ey & _).
  rewrite Ex, Ey.
  pose proof (Z.div_mod x 8 ltac:(lia)). pose proof (Z.mod_pos_bound x 8 ltac:(lia)).
  pose proof (Z.div_mod y 8 ltac:(lia)). pose proof (Z.mod_pos_bound y 8 ltac:(lia)).
  destruct (Z.gtb_spec x 0); destruct (Z.gtb_spec y 0);
    repeat split; try lia; reflexivity.
Qed.

(** X2. [leaky_relu_hw] maps narrow values to narrow values, is monotone,
    leaves positive values unchanged, and maps every negative value to a
    negative value (the shift rounds towards minus infinity, so a small
    negative input is never flushed to zero). *)
Theorem leaky_relu_hw_shape (x y : Z) :
  Fixed.is_data x -> Fixed.is_data y ->
  Fixed.is_data (leaky_relu_hw x) /\
  (x <= y -> leaky_relu_hw x <= leaky_relu_hw y) /\
  (0 < x -> leaky_relu_hw x = x) /\
  (x < 0 -> x <= leaky_relu_hw x < 0) /\
  leaky_relu_hw 0 = 0.
Proof. exact (leaky_relu_hw_facts x y). Qed.

Lemma leaky_relu_hw_shape_witness :
  leaky_relu_hw (-1) = -1 /\ leaky_relu_hw (-1) <= leaky_relu_hw 5.
Proof.
  assert (H1 : Fixed.is_data (-1)) by (split; discriminate).
  assert (H2 : Fixed.is_data 5) by (split; discriminate).
  destruct (leaky_relu_hw_shape (-1) 5 H1 H2) as (_ & Hmono & _ & Hneg & _).
  split; [|apply Hmono; lia].
  specialize (Hneg ltac:(lia)). lia.
Defined.

Lemma nondecreasing_nth (l : list Z) : nondecreasing l = true ->
  forall i j : nat, (i <= j < length l)%nat -> nth i l 0 <= nth j l 0.
Proof.
  induction l as [|x l IH]; intros Hs i j Hij; [simpl in Hij; lia|].
  destruct l as [|y l]; [simpl in Hij; replace j with O by lia;
                         replace i with O by lia; lia|].
  change (nondecreasing (x :: y :: l)) with ((x <=? y) && nondecreasing (y :: l)) in Hs.
  apply andb_prop in Hs. destruct Hs as [Hxy Hs]. apply Z.leb_le in Hxy.
  cbn [length] in Hij.
  destruct i as [|i], j as [|j]; try lia.
  - change (x <= nth j (y :: l) 0).
    transitivity y; [assumption|].
    apply (IH Hs O j). cbn [length]. lia.
  - change (nth i (y :: l) 0 <= nth j (y :: l) 0).
    apply (IH Hs i j). cbn [length]. lia.
Qed.

Lemma sigmoid_index_monotone x y : x <= y -> sigmoid_index x <= sigmoid_index y.
Proof.
  intros Hxy. rewrite !sigmoid_index_formula.
  pose proof (sigmoid_clamp_range x) as Hx. revert Hx.
  unfold sigmoid_clamp.
  destruct sigmoid_constants as (E1 & E2 & _ & E4 & _). rewrite E1, E2, E4.
  change (2 ^ Fixed.DATA_F) with 256. intros Hx.
  destruct (Z.ltb_spec y (-2048)).
  - destruct (Z.ltb_spec x (-2048)); [reflexivity | lia].
  - destruct (Z.geb_spec y 2048).
    + change ((2032 + 2048) * 16 / 256) with 255.
      match goal with |- ?a / 256 <= 255 =>
        assert (a / 256 < 256) by (apply Z.div_lt_upper_bound; lia) end.
      lia.
    + destruct (Z.ltb_spec x (-2048)).
      * apply Z.div_le_mono; lia.
      * destruct (Z.geb_spec x 2048); [lia|]. apply Z.div_le_mono; lia.
Qed.

(** [sigmoid_hw] is monotone, and its result always lies between 0.0
    and 1.0 (raw 0 and 256), whatever the input. *)
Lemma sigmoid_hw_facts (x y : Z) :
  x <= y ->
  sigmoid_hw x <= sigmoid_hw y /\
  0 <= sigmoid_hw x <= Fixed.data_of_int 1.
Proof.
  intros Hxy.
  assert (Hsorted : nondecreasing SIGMOID_LUT = true) by (vm_compute; reflexivity).
  assert (Hidx : forall z, (Z.to_nat (sigmoid_index z) < length SIGMOID_LUT)%nat).
  { intros z. rewrite sigmoid_index_formula.
    pose proof (sigmoid_clamp_range z) as Hc.
    destruct sigmoid_constants as (E1 & E2 & _). rewrite E1, E2 in Hc. rewrite E2.
    change (length SIGMOID_LUT) with 256%nat. change (2 ^ Fixed.DATA_F) with 256.
    assert ((sigmoid_clamp z + 2048) * 16 / 256 < 256)
      by (apply Z.div_lt_upper_bound; lia). lia. }
  assert (Hpos : forall z, 0 <= sigmoid_index z).
  { intros z. rewrite sigmoid_index_formula.
    pose proof (sigmoid_clamp_range z) as Hc.
    destruct sigmoid_constants as (E1 & E2 & _). rewrite E1, E2 in Hc. rewrite E2.
    change (2 ^ Fixed.DATA_F) with 256. apply Z.div_pos; lia. }
  unfold sigmoid_hw. split; [|split].
  - apply nondecreasing_nth; [assumption|]. split; [|apply Hidx].
    apply Z2Nat.inj_le; auto. apply sigmoid_index_monotone. assumption.
  - change 0 with (nth 0 SIGMOID_LUT 0) at 1.
    apply nondecreasing_nth; [assumption|]. split; [lia | apply Hidx].
  - change (Fixed.data_of_int 1) with (nth 255 SIGMOID_LUT 0).
    apply nondecreasing_nth; [assumption|].
    specialize (Hidx x). change (length SIGMOID_LUT) with 256%nat in *. lia.
Qed.

(** X3. [sigmoid_hw] is monotone, and its result always lies between 0.0
    and 1.0 (raw 0 and 256), whatever the input. *)
Theorem sigmoid_hw_monotone_bounded (x y : Z) :
  x <= y ->
  sigmoid_hw x <= sigmoid_hw y /\
  0 <= sigmoid_hw x <= Fixed.data_of_int 1.
Proof. exact (sigmoid_hw_facts x y). Qed.

Lemma sigmoid_hw_monotone_bounded_witness :
  sigmoid_hw (-300) <= sigmoid_hw 40.
Proof.
  apply (sigmoid_hw_monotone_bounded (-300) 40). lia.
Defined.

(** An in-place loop [for i in 0..n: data[i] = f(data[i])]. *)
Lemma map_in_place (f : Z -> Z) (n : Z) (data : mem) (j : Z) :
  for_loop 0 n (fun i data => upd data i (f (data i))) data j
  = if (0 <=? j) && (j <? n) then f (data j) else data j.
Proof.
  unfold for_loop.
  change (fold_left (fun s i => upd s i (f (s i))) (zrange 0 n) data)
    with (write_loop (fun i => i) (fun i m => f (m i)) (zrange 0 n) data).
  destruct (Z.leb_spec 0 j); destruct (Z.ltb_spec j n); cbn [andb];
    try (apply write_loop_frame; intros k Hk; apply in_zrange in Hk; lia).
  apply (write_loop_increasing (fun i => i) (fun i m => f (m i))).
  - apply increasing_zrange. intros; lia.
  - intros k m1 m2 _ Hm. rewrite (Hm k (Z.le_refl k)). reflexivity.
  - apply in_zrange. lia.
Qed.

(** [apply_activation_hw] rewrites the feature map in place, element
    by element: each of the [channels * height * width] elements becomes
    its activation (LeakyReLU for type 1, sigmoid for type 2, unchanged for
    any other type), every element beyond them is untouched, and narrow
    values stay narrow. *)
Lemma apply_activation_hw_pointwise (data : mem)
    (channels height width activation_type i : Z) :
  let total := channels * height * width in
  let r := apply_activation_hw data channels height width activation_type in
  (0 <= i < total -> r i = apply_activation_elem activation_type (data i)) /\
  (~ (0 <= i < total) -> r i = data i) /\
  (activation_type <> 1 -> activation_type <> 2 -> r i = data i) /\
  (Fixed.is_data (data i) -> Fixed.is_data (r i)).
Proof.
  cbv zeta. unfold apply_activation_hw. rewrite map_in_place.
  assert (Hd : Fixed.is_data (data i) ->
               Fixed.is_data (apply_activation_elem activation_type (data i))).
  { intros Hi. unfold apply_activation_elem.
    destruct (activation_type =? 1).
    - apply (leaky_relu_hw_facts (data i) (data i) Hi Hi).
    - destruct (activation_type =? 2); [|assumption].
      destruct (sigmoid_hw_facts (data i) (data i) (Z.le_refl _))
        as (_ & Hb). unfold Fixed.is_data.
      destruct sigmoid_constants as (_ & _ & _ & _ & Emin & Emax).
      rewrite Emin, Emax. change (Fixed.data_of_int 1) with 256 in Hb. lia. }
  assert (Hid : activation_type <> 1 -> activation_type <> 2 ->
                apply_activation_elem activation_type (data i) = data i).
  { intros H1 H2. unfold apply_activation_elem.
    apply Z.eqb_neq in H1, H2. rewrite H1, H2. reflexivity. }
  destruct (Z.leb_spec 0 i); destruct (Z.ltb_spec i (channels * height * width));
    cbn [andb]; (split; [|split; [|split]]); intros; try lia; auto.
Qed.

(** X4. [apply_activation_hw] rewrites the feature map in place, element
    by element: each of the [channels * height * width] elements becomes
    its activation (LeakyReLU for type 1, sigmoid for type 2, unchanged for
    any other type), every element beyond them is untouched, and narrow
    values stay narrow. *)
Theorem apply_activation_hw_elementwise (data : mem)
    (channels height width activation_type i : Z) :
  let total := channels * height * width in
  let r := apply_activation_hw data channels height width activation_type in
  (0 <= i < total -> r i = apply_activation_elem activation_type (data i)) /\
  (~ (0 <= i < total) -> r i = data i) /\
  (activation_type <> 1 -> activation_type <> 2 -> r i = data i) /\
  (Fixed.is_data (data i) -> Fixed.is_data (r i)).
Proof. exact (apply_activation_hw_pointwise data channels height width activation_type i). Qed.

Lemma apply_activation_hw_elementwise_witness :
  apply_activation_hw (const_mem (-64)) 2 3 3 1 17 = leaky_relu_hw (-64).
Proof.
  destruct (apply_activation_hw_elementwise (const_mem (-64)) 2 3 3 1 17)
    as (H & _).
  apply H. lia.
Defined.

Lemma increasing_rows n s :
  increasing (fun p : Z * Z => fst p * s + snd p)
             (list_prod (zrange 0 n) (zrange 0 s)).
Proof.
  apply increasing_list_prod.
  - intros a _. apply increasing_zrange. intros i j _ Hij _. cbn [fst snd]. lia.
  - apply StronglySorted_zseq. intros i j _ Hij _ b b' Hb Hb'.
    apply in_zrange in Hb, Hb'. cbn [fst snd]. apply radix_lt; lia.
Qed.

(** X5. [batchnorm_relu_hw] rewrites the feature map in place: element [i]
    of channel [c] becomes the LeakyReLU of the narrowed
    [x * scale[c] + shift[c]] (the normalization saturates in the wide
    type and is narrowed before the activation), elements beyond the
    [channels * height * width] first are untouched, and every rewritten
    element is a narrow value that is negative exactly when the narrowed
    normalization is. *)
Theorem batchnorm_relu_hw_elementwise (data scale shift : mem)
    (channels height width c i : Z) :
  0 <= c < channels -> 0 <= i < height * width ->
  let r := batchnorm_relu_hw data scale shift channels height width in
  let idx := c * (height * width) + i in
  let bn_out := Fixed.sat Fixed.ACC_W
                  (data idx * scale c + shift c * 2 ^ Fixed.DATA_F) in
  r idx = leaky_relu_hw (Fixed.narrow bn_out) /\
  Fixed.is_data (r idx) /\
  (r idx < 0 <-> Fixed.narrow bn_out < 0) /\
  (forall j, ~ (0 <= j < channels * (height * width)) -> r j = data j).
Proof.
  intros Hc Hi. cbv zeta. unfold batchnorm_relu_hw. cbv zeta.
  rewrite for_loop_nest2.
  set (S := height * width) in *.
  set (w := fun p : Z * Z => fst p * S + snd p).
  set (val := fun (p : Z * Z) (m : mem) =>
                leaky_relu_hw
                  (Fixed.narrow
                     (Fixed.sat Fixed.ACC_W
                        (m (fst p * S + snd p) * scale (fst p)
                         + Z.shiftl (shift (fst p)) Fixed.DATA_F)))).
  change (fold_left _ (list_prod (zrange 0 channels) (zrange 0 S)) data)
    with (write_loop w val (list_prod (zrange 0 channels) (zrange 0 S)) data).
  assert (Hval : write_loop w val (list_prod (zrange 0 channels) (zrange 0 S)) data
                   (c * S + i)
                 = leaky_relu_hw
                     (Fixed.narrow
                        (Fixed.sat Fixed.ACC_W
                           (data (c * S + i) * scale c + shift c * 2 ^ Fixed.DATA_F)))).
  { rewrite <- Z.shiftl_mul_pow2 by (unfold Fixed.DATA_F; lia).
    apply (write_loop_increasing w val _ data (increasing_rows channels S))
      with (k := (c, i)).
    - intros k m1 m2 _ Hm. pose proof (Hm (w k) (Z.le_refl _)) as E.
      unfold val. unfold w in E. rewrite E. reflexivity.
    - apply in_prod_iff. rewrite !in_zrange. auto. }
  rewrite Hval.
  set (x := Fixed.narrow _).
  pose proof (narrow_is_data
                (Fixed.sat Fixed.ACC_W
                   (data (c * S + i) * scale c + shift c * 2 ^ Fixed.DATA_F))) as Hx.
  fold x in Hx.
  destruct (leaky_relu_hw_facts x x Hx Hx) as (Hd & _ & Hpos & Hneg & H0).
  split; [reflexivity|]. split; [assumption|]. split.
  - split; intros Hlt.
    + destruct (Z.lt_trichotomy x 0) as [L | [E | G]]; [assumption | |].
      * rewrite E, H0 in Hlt. lia.
      * rewrite (Hpos G) in Hlt. lia.
    + apply Hneg. assumption.
  - intros j Hj. apply write_loop_frame. intros [a b] Hk E.
    apply in_prod_iff in Hk. rewrite !in_zrange in Hk. subst w. cbn [fst snd] in E.
    assert (0 <= a * S) by (apply Z.mul_nonneg_nonneg; lia).
    pose proof (radix_lt S a 0 channels b). lia.
Qed.

Lemma batchnorm_relu_hw_elementwise_witness :
  batchnorm_relu_hw (const_mem 256) (const_mem (-512)) (const_mem 128) 2 2 2
                    (1 * (2 * 2) + 3) = -48.
Proof.
  destruct (batchnorm_relu_hw_elementwise (const_mem 256) (const_mem (-512))
              (const_mem 128) 2 2 2 1 3 ltac:(lia) ltac:(lia)) as (H & _).
  rewrite H. reflexivity.
Defined.

(* ================================================================== *)
(** * Pooling and activation together *)

Lemma max4_hw_monotone_map (f : Z -> Z) a b c d :
  (forall x y, x <= y -> f x <= f y) ->
  max4_hw (f a) (f b) (f c) (f d) = f (max4_hw a b c d).
Proof.
  intros Hf. rewrite !max4_hw_max.
  assert (Hmax : forall x y, Z.max (f x) (f y) = f (Z.max x y)).
  { intros x y. destruct (Z.le_ge_cases x y) as [L | L].
    - rewrite (Z.max_r x y L). apply Z.max_r. apply Hf. assumption.
    - rewrite (Z.max_l x y L). apply Z.max_l. apply Hf. assumption. }
  rewrite !Hmax. reflexivity.
Qed.

Lemma apply_activation_elem_monotone t x y :
  Fixed.is_data x -> Fixed.is_data y -> x <= y ->
  apply_activation_elem t x <= apply_activation_elem t y.
Proof.
  intros Hx Hy Hxy. unfold apply_activation_elem.
  destruct (t =? 1); [apply (leaky_relu_hw_facts x y Hx Hy); assumption|].
  destruct (t =? 2); [apply sigmoid_hw_facts|]; assumption.
Qed.

(** X6. Max pooling commutes with the element-wise activations: pooling
    the activated feature map gives, at every pooled position, the
    activation of the pooled element of the original map (LeakyReLU and
    the sigmoid table are monotone). *)
Theorem maxpool_commutes_with_activation (input output output' : mem)
    (channels in_h in_w activation_type c oh ow : Z) :
  (forall j, Fixed.is_data (input j)) ->
  0 <= c < channels -> 0 <= oh < Z.quot in_h 2 -> 0 <= ow < Z.quot in_w 2 ->
  let idx := idx3 (Z.quot in_h 2) (Z.quot in_w 2) c oh ow in
  maxpool2d_hw (apply_activation_hw input channels in_h in_w activation_type)
               output channels in_h in_w idx
  = apply_activation_elem activation_type
      (maxpool2d_hw input output' channels in_h in_w idx).
Proof.
  intros Hdata Hc Hoh How. cbv zeta.
  rewrite !maxpool2d_hw_pointwise by assumption. unfold pool_window.
  pose proof (quot2_bounds in_h ltac:(lia)) as Hh.
  pose proof (quot2_bounds in_w ltac:(lia)) as Hw.
  assert (Hact : forall row col, 0 <= row < in_h -> 0 <= col < in_w ->
            apply_activation_hw input channels in_h in_w activation_type
              (idx3 in_h in_w c row col)
            = apply_activation_elem activation_type (input (idx3 in_h in_w c row col))).
  { intros row col Hr Hcol.
    apply (apply_activation_hw_pointwise input channels in_h in_w activation_type).
    apply idx3_bounds; assumption. }
  rewrite !Hact by lia.
  set (a := input _). set (b := input _). set (d := input _). set (e := input _).
  assert (Ha : Fixed.is_data a) by apply Hdata.
  assert (Hb : Fixed.is_data b) by apply Hdata.
  assert (Hd : Fixed.is_data d) by apply Hdata.
  assert (He : Fixed.is_data e) by apply Hdata.
  rewrite !max4_hw_max.
  assert (Hmax : forall x y, Fixed.is_data x -> Fixed.is_data y ->
            Z.max (apply_activation_elem activation_type x)
                  (apply_activation_elem activation_type y)
            = apply_activation_elem activation_type (Z.max x y)).
  { intros x y Hx Hy. destruct (Z.le_ge_cases x y) as [L | L].
    - rewrite (Z.max_r x y L). apply Z.max_r.
      apply apply_activation_elem_monotone; assumption.
    - rewrite (Z.max_l x y L). apply Z.max_l.
      apply apply_activation_elem_monotone; assumption. }
  assert (Hm : forall x y, Fixed.is_data x -> Fixed.is_data y ->
                           Fixed.is_data (Z.max x y)).
  { intros x y Hx Hy. unfold Fixed.is_data in *. lia. }
  rewrite !Hmax by auto. reflexivity.
Qed.

Lemma maxpool_commutes_with_activation_witness :
  maxpool2d_hw (apply_activation_hw (const_mem (-64)) 1 4 4 1) (const_mem 0) 1 4 4
               (idx3 (Z.quot 4 2) (Z.quot 4 2) 0 1 1)
  = apply_activation_elem 1
      (maxpool2d_hw (const_mem (-64)) (const_mem 7) 1 4 4
                    (idx3 (Z.quot 4 2) (Z.quot 4 2) 0 1 1)).
Proof.
  assert (Hq : 0 <= 1 < Z.quot 4 2) by (vm_compute; split; [discriminate | reflexivity]).
  apply (maxpool_commutes_with_activation (const_mem (-64)) (const_mem 0) (const_mem 7)
           1 4 4 1 0 1 1).
  - intros j. unfold const_mem. split; discriminate.
  - lia.
  - exact Hq.
  - exact Hq.
Defined.

(* ================================================================== *)
(** * Further properties of the pooling functions *)

Lemma for_loop_ind {S} (P : Z -> S -> Prop) (n : Z) (body : Z -> S -> S) (s : S) :
  P 0 s ->
  (forall k s', 0 <= k < n -> P k s' -> P (k + 1) (body k s')) ->
  forall k, 0 <= k <= n -> P k (for_loop 0 k body s).
Proof.
  intros H0 Hstep k [Hk Hkn]. revert Hkn. pattern k.
  apply natlike_ind; [| |assumption].
  - intros _. rewrite for_loop_empty by lia. assumption.
  - intros x Hx IH Hxn. unfold Z.succ. rewrite for_loop_snoc by lia.
    apply Hstep; [lia|]. apply IH. lia.
Qed.

(** The channel sum of narrow values never saturates the accumulator when
    the channel has at most 256 elements. *)
Lemma gap_sum_exact (input : mem) (c n : Z) :
  0 <= n <= 256 ->
  (forall i, 0 <= i < n -> Fixed.is_data (input (c * n + i))) ->
  for_loop 0 n (fun i sum => Fixed.acc_add_data sum (input (c * n + i))) 0
  = 256 * channel_sum input c n
  /\ - 32768 * n <= channel_sum input c n <= 32767 * n.
Proof.
  intros Hn Hd. unfold channel_sum.
  assert (E : forall k, 0 <= k ->
      for_loop 0 k (fun i p => (Fixed.acc_add_data (fst p) (input (c * n + i)),
                                snd p + input (c * n + i))) (0, 0)
      = (for_loop 0 k (fun i sum => Fixed.acc_add_data sum (input (c * n + i))) 0,
         for_loop 0 k (fun i s => s + input (c * n + i)) 0)).
  { intros k Hk. pattern k. apply natlike_ind; [| |assumption].
    - rewrite !for_loop_empty by lia. reflexivity.
    - intros x Hx IH. unfold Z.succ. rewrite !for_loop_snoc by lia.
      rewrite IH. reflexivity. }
  pose (P := fun (k : Z) (p : Z * Z) =>
                fst p = 256 * snd p /\ - 32768 * k <= snd p <= 32767 * k).
  assert (H : forall k, 0 <= k <= n ->
      P k (for_loop 0 k (fun i p => (Fixed.acc_add_data (fst p) (input (c * n + i)),
                                     snd p + input (c * n + i))) (0, 0))).
  { apply (for_loop_ind P); unfold P.
    - simpl. lia.
    - intros k [a b] Hk [Ha Hb]. cbn [fst snd] in *. subst a.
      specialize (Hd k Hk). unfold Fixed.is_data in Hd.
      change Fixed.DATA_MIN with (-32768) in Hd. change Fixed.DATA_MAX with 32767 in Hd.
      split; [|lia].
      unfold Fixed.acc_add_data, Fixed.widen.
      change (Fixed.ACC_F - Fixed.DATA_F) with 8.
      rewrite Z.shiftl_mul_pow2 by lia. change (2 ^ 8) with 256.
      destruct (sat_cases Fixed.ACC_W (256 * b + input (c * n + k) * 256)) as (_ & _ & Es).
      change (2 ^ (Fixed.ACC_W - 1)) with 2147483648 in Es.
      rewrite Es by lia. ring. }
  specialize (H n ltac:(lia)). unfold P in H. rewrite E in H by lia. exact H.
Qed.

(** The reciprocal is exact when the size divides 256. *)
Lemma data_of_recip_exact (n q : Z) :
  0 < n -> n * q = 256 -> Fixed.data_of_recip n = q.
Proof.
  intros Hn Hq. assert (0 < q <= 256) by nia.
  unfold Fixed.data_of_recip. change (2 * 2 ^ Fixed.DATA_F) with 512.
  assert (E : (512 + n) / (2 * n) = q).
  { symmetry. apply (Z.div_unique_pos _ _ q n); lia. }
  rewrite E.
  destruct (sat_cases Fixed.DATA_W q) as (_ & _ & Es).
  change (2 ^ (Fixed.DATA_W - 1)) with 32768 in Es. apply Es. lia.
Qed.

(** X7. When the channel size [height * width] divides 256 (1, 2, 4, ...,
    256 elements), [global_avgpool_hw] stores for every channel the mean
    of its elements rounded to the nearest representable value (ties
    upwards), so a constant channel averages to its constant; it writes
    nothing outside [output[0 .. channels - 1]]. *)
Theorem global_avgpool_hw_exact (input output : mem) (channels height width c : Z) :
  0 < height * width ->
  256 mod (height * width) = 0 ->
  (forall i, 0 <= i < height * width ->
             Fixed.is_data (input (c * (height * width) + i))) ->
  0 <= c < channels ->
  let n := height * width in
  let r := global_avgpool_hw input output channels height width in
  r c = (2 * channel_sum input c n + n) / (2 * n) /\
  (forall v, (forall i, 0 <= i < n -> input (c * n + i) = v) -> r c = v) /\
  (forall j, ~ 0 <= j < channels -> r j = output j).
Proof.
  intros Hn Hdiv Hd Hc n r. subst n.
  set (n := height * width) in *.
  assert (Hq : n * (256 / n) = 256).
  { pose proof (Z.div_mod 256 n ltac:(lia)). lia. }
  set (q := 256 / n) in *. clearbody q.
  assert (Hq0 : 0 < q) by nia.
  assert (Hn256 : n <= 256) by nia.
  assert (Hc1 : r c = (2 * channel_sum input c n + n) / (2 * n)).
  { subst r. unfold global_avgpool_hw. cbv zeta. fold n.
    rewrite (data_of_recip_exact n q) by assumption.
    unfold for_loop at 1.
    transitivity (Fixed.narrow_prod
                    (for_loop 0 n
                       (fun j sum => Fixed.acc_add_data sum (input (c * n + j))) 0) q).
    { apply (write_loop_increasing (fun i : Z => i)
               (fun i _ => Fixed.narrow_prod
                             (for_loop 0 n
                                (fun j sum => Fixed.acc_add_data sum (input (i * n + j))) 0) q)
               (zrange 0 channels) output) with (k := c).
      - apply increasing_zrange. intros; lia.
      - reflexivity.
      - apply in_zrange. assumption. }
    destruct (gap_sum_exact input c n ltac:(lia) Hd) as [Es Hb].
    rewrite Es. set (T := channel_sum input c n) in *.
    unfold Fixed.narrow_prod. rewrite rnd_div by reflexivity.
    change (2 ^ (Fixed.ACC_F - 1)) with 32768. change (2 ^ Fixed.ACC_F) with 65536.
    assert (E : (256 * T * q + 32768) / 65536 = (2 * T + n) / (2 * n)).
    { replace (256 * T * q + 32768) with ((2 * T + n) * (128 * q)) by nia.
      replace 65536 with ((2 * n) * (128 * q)) by nia.
      apply Z.div_mul_cancel_r; lia. }
    rewrite E.
    destruct (sat_cases Fixed.DATA_W ((2 * T + n) / (2 * n))) as (_ & _ & Esat).
    change (2 ^ (Fixed.DATA_W - 1)) with 32768 in Esat. apply Esat.
    split.
    - apply Z.div_le_lower_bound; lia.
    - apply Z.lt_succ_r. apply Z.div_lt_upper_bound; lia. }
  split; [exact Hc1|]. split.
  - intros v Hv. rewrite Hc1.
    assert (ET : channel_sum input c n = n * v).
    { unfold channel_sum.
      apply (for_loop_ind (fun k s => s = k * v) n
               (fun i s => s + input (c * n + i)) 0); [lia| |lia].
      intros k s' Hk ->. rewrite Hv by assumption. ring. }
    rewrite ET. symmetry. apply (Z.div_unique_pos _ _ v n); lia.
  - intros j Hj. subst r. unfold global_avgpool_hw. cbv zeta. unfold for_loop at 1.
    apply (write_loop_frame (fun i : Z => i)
             (fun i _ => Fixed.narrow_prod
                           (for_loop 0 (height * width)
                              (fun j sum => Fixed.acc_add_data sum
                                              (input (i * (height * width) + j))) 0)
                           (Fixed.data_of_recip (height * width)))
             (zrange 0 channels) output j).
    intros k Hk. apply in_zrange in Hk. lia.
Qed.

Lemma global_avgpool_hw_exact_witness :
  global_avgpool_hw (mem_of_list [256; 512; -256; 257]) (const_mem 0) 1 2 2 0 = 192.
Proof.
  destruct (global_avgpool_hw_exact (mem_of_list [256; 512; -256; 257]) (const_mem 0)
              1 2 2 0) as (H & _).
  - reflexivity.
  - reflexivity.
  - intros i Hi. assert (Hc : i = 0 \/ i = 1 \/ i = 2 \/ i = 3) by lia.
    destruct Hc as [-> | [-> | [-> | ->]]]; vm_compute; split; discriminate.
  - lia.
  - rewrite H. reflexivity.
Defined.

(* ================================================================== *)
(** * Further properties of the tiled engine *)

(** The four elements of a pooling window lie inside the map. *)
Lemma pool_window_in_range (h w n ch ph pw a b : Z) :
  0 <= ch < n -> 0 <= ph < Z.quot h 2 -> 0 <= pw < Z.quot w 2 ->
  0 <= a <= 1 -> 0 <= b <= 1 ->
  0 <= idx3 h w ch (2 * ph + a) (2 * pw + b) < n * h * w.
Proof.
  intros Hc Hph Hpw Ha Hb.
  pose proof (quot2_bounds h ltac:(lia)). pose proof (quot2_bounds w ltac:(lia)).
  apply idx3_bounds; lia.
Qed.

Lemma pool_window_ext (m m' : mem) (h w n ch ph pw : Z) :
  0 <= ch < n -> 0 <= ph < Z.quot h 2 -> 0 <= pw < Z.quot w 2 ->
  (forall j, 0 <= j < n * h * w -> m j = m' j) ->
  pool_window m h w ch ph pw = pool_window m' h w ch ph pw.
Proof.
  intros Hc Hph Hpw H. unfold pool_window.
  pose proof (pool_window_in_range h w n ch ph pw 0 0 Hc Hph Hpw ltac:(lia) ltac:(lia)) as H00.
  pose proof (pool_window_in_range h w n ch ph pw 0 1 Hc Hph Hpw ltac:(lia) ltac:(lia)) as H01.
  pose proof (pool_window_in_range h w n ch ph pw 1 0 Hc Hph Hpw ltac:(lia) ltac:(lia)) as H10.
  pose proof (pool_window_in_range h w n ch ph pw 1 1 Hc Hph Hpw ltac:(lia) ltac:(lia)) as H11.
  rewrite !Z.add_0_r in *.
  rewrite (H _ H00), (H _ H01), (H _ H10), (H _ H11). reflexivity.
Qed.

Lemma max4_hw_is_data (a b c d : Z) :
  Fixed.is_data a -> Fixed.is_data b -> Fixed.is_data c -> Fixed.is_data d ->
  Fixed.is_data (max4_hw a b c d).
Proof. unfold Fixed.is_data. rewrite max4_hw_max. lia. Qed.

(** The pooled tensor is not larger than the map it is taken from. *)
Lemma pooled_size_le (n h w : Z) :
  0 <= n -> 0 < h -> 0 < w -> n * Z.quot h 2 * Z.quot w 2 <= n * h * w.
Proof.
  intros Hn Hh Hw.
  assert (0 <= Z.quot h 2 <= h).
  { split; [apply Z.quot_pos; lia|]. rewrite Z.quot_div_nonneg by lia.
    pose proof (Z.div_mod h 2 ltac:(lia)). pose proof (Z.mod_pos_bound h 2 ltac:(lia)). lia. }
  assert (0 <= Z.quot w 2 <= w).
  { split; [apply Z.quot_pos; lia|]. rewrite Z.quot_div_nonneg by lia.
    pose proof (Z.div_mod w 2 ltac:(lia)). pose proof (Z.mod_pos_bound w 2 ltac:(lia)). lia. }
  rewrite <- !Z.mul_assoc. apply Z.mul_le_mono_nonneg_l; [lia|].
  apply Z.mul_le_mono_nonneg; lia.
Qed.

(** The state of a run just before the status register is cleared. *)
Lemma top_output_fm (t : tiling) (c : LayerConfig)
    (input_fm weights bn_scale bn_shift : mem) (st : engine) :
  output_fm (cnn_accelerator_top t c input_fm weights bn_scale bn_shift st)
  = output_fm (if layer_type c =? 1
               then POOL_LOOP c (tile_loops t c input_fm weights bn_scale bn_shift
                                            (set_status 1 st))
               else tile_loops t c input_fm weights bn_scale bn_shift (set_status 1 st)).
Proof. reflexivity. Qed.

(** In a pooled map every index below the pooled size is a pooled position. *)
Lemma pooled_index (c : LayerConfig) (j : Z) :
  0 < out_channels c -> 0 < out_height c -> 0 < out_width c ->
  0 <= j < out_channels c * Z.quot (out_height c) 2 * Z.quot (out_width c) 2 ->
  exists ch ph pw,
    0 <= ch < out_channels c /\ 0 <= ph < Z.quot (out_height c) 2 /\
    0 <= pw < Z.quot (out_width c) 2 /\
    j = idx3 (Z.quot (out_height c) 2) (Z.quot (out_width c) 2) ch ph pw.
Proof.
  intros Hc Hh Hw Hj.
  assert (0 <= Z.quot (out_height c) 2) by (apply Z.quot_pos; lia).
  assert (0 <= Z.quot (out_width c) 2) by (apply Z.quot_pos; lia).
  apply idx3_surj; [nia | nia | assumption].
Qed.

(** X8. A run of [cnn_accelerator_top] on a valid layer changes the output
    feature map only inside [0, out_channels * out_h * out_w), and every
    element it leaves there is a value of the narrow type, with or without
    the pooling pass. *)
Theorem engine_output_footprint (t : tiling) (c : LayerConfig)
    (input_fm weights bn_scale bn_shift : mem) (st : engine) :
  valid_layer c -> resource_compatible t c ->
  let r := cnn_accelerator_top t c input_fm weights bn_scale bn_shift st in
  let size := out_channels c * out_height c * out_width c in
  (forall j, ~ 0 <= j < size -> output_fm r j = output_fm st j) /\
  (forall j, 0 <= j < size -> Fixed.is_data (output_fm r j)).
Proof.
  intros Hvalid Ht r size. subst r size. rewrite top_output_fm.
  pose proof Hvalid as (_ & _ & Hoc & _ & _ & _ & _ & _ & Hoh & How).
  set (pre := tile_loops t c input_fm weights bn_scale bn_shift (set_status 1 st)).
  assert (Hpre : forall j,
            output_fm pre j
            = if (0 <=? j) && (j <? out_channels c * out_height c * out_width c)
              then direct_layer c input_fm weights bn_scale bn_shift
                     (j / out_width c / out_height c) ((j / out_width c) mod out_height c)
                     (j mod out_width c)
              else output_fm st j).
  { intros j. unfold pre. rewrite tile_loops_all_indices by assumption. reflexivity. }
  assert (Hdata : forall j, 0 <= j < out_channels c * out_height c * out_width c ->
                            Fixed.is_data (output_fm pre j)).
  { intros j Hj. rewrite Hpre.
    destruct (Z.leb_spec 0 j); [|lia].
    destruct (Z.ltb_spec j (out_channels c * out_height c * out_width c)); [|lia].
    cbn [andb]. unfold direct_layer. apply finalize_is_data. }
  assert (Hout : forall j, ~ 0 <= j < out_channels c * out_height c * out_width c ->
                           output_fm pre j = output_fm st j).
  { intros j Hj. rewrite Hpre.
    destruct (Z.leb_spec 0 j);
      destruct (Z.ltb_spec j (out_channels c * out_height c * out_width c));
      cbn [andb]; try reflexivity. lia. }
  pose proof (pooled_size_le (out_channels c) (out_height c) (out_width c)
                ltac:(lia) Hoh How) as Hle.
  destruct (layer_type c =? 1); [|split; assumption].
  split.
  - intros j Hj. rewrite POOL_LOOP_frame by lia. apply Hout. assumption.
  - intros j Hj.
    destruct (Z.lt_ge_cases j
                (out_channels c * Z.quot (out_height c) 2 * Z.quot (out_width c) 2))
      as [Hin | Hge].
    + destruct (pooled_index c j Hoc Hoh How ltac:(lia))
        as (ch & ph & pw & Hch & Hph & Hpw & ->).
      rewrite POOL_LOOP_pointwise by assumption. unfold pool_window.
      pose proof (pool_window_in_range (out_height c) (out_width c) (out_channels c)
                    ch ph pw 0 0 Hch Hph Hpw ltac:(lia) ltac:(lia)) as H00.
      pose proof (pool_window_in_range (out_height c) (out_width c) (out_channels c)
                    ch ph pw 0 1 Hch Hph Hpw ltac:(lia) ltac:(lia)) as H01.
      pose proof (pool_window_in_range (out_height c) (out_width c) (out_channels c)
                    ch ph pw 1 0 Hch Hph Hpw ltac:(lia) ltac:(lia)) as H10.
      pose proof (pool_window_in_range (out_height c) (out_width c) (out_channels c)
                    ch ph pw 1 1 Hch Hph Hpw ltac:(lia) ltac:(lia)) as H11.
      rewrite !Z.add_0_r in *.
      apply max4_hw_is_data; apply Hdata; assumption.
    + rewrite POOL_LOOP_frame by lia. apply Hdata. assumption.
Qed.

(** X9. The engine keeps no state between runs: inside the output tensor
    the result of a run is the same from any two engine states, whatever
    the static buffers [input_tile], [weight_tile], [acc_tile] and the
    output feature map held before. *)
Theorem engine_run_stateless (t : tiling) (c : LayerConfig)
    (input_fm weights bn_scale bn_shift : mem) (st st' : engine) (j : Z) :
  valid_layer c -> resource_compatible t c ->
  0 <= j < out_channels c * out_height c * out_width c ->
  output_fm (cnn_accelerator_top t c input_fm weights bn_scale bn_shift st) j
  = output_fm (cnn_accelerator_top t c input_fm weights bn_scale bn_shift st') j.
Proof.
  intros Hvalid Ht Hj. rewrite !top_output_fm.
  pose proof Hvalid as (_ & _ & Hoc & _ & _ & _ & _ & _ & Hoh & How).
  assert (Hpre : forall i, 0 <= i < out_channels c * out_height c * out_width c ->
            output_fm (tile_loops t c input_fm weights bn_scale bn_shift (set_status 1 st)) i
            = output_fm (tile_loops t c input_fm weights bn_scale bn_shift
                                    (set_status 1 st')) i).
  { intros i Hi. rewrite !tile_loops_all_indices by assumption.
    destruct (Z.leb_spec 0 i); [|lia].
    destruct (Z.ltb_spec i (out_channels c * out_height c * out_width c)); [|lia].
    reflexivity. }
  destruct (layer_type c =? 1); [|apply Hpre; assumption].
  destruct (Z.lt_ge_cases j
              (out_channels c * Z.quot (out_height c) 2 * Z.quot (out_width c) 2))
    as [Hin | Hge].
  - destruct (pooled_index c j Hoc Hoh How ltac:(lia))
      as (ch & ph & pw & Hch & Hph & Hpw & ->).
    rewrite !POOL_LOOP_pointwise by assumption.
    apply (pool_window_ext _ _ (out_height c) (out_width c) (out_channels c));
      assumption.
  - rewrite !POOL_LOOP_frame by lia. apply Hpre. assumption.
Qed.

Lemma engine_output_footprint_witness :
  let c := mkLayer 1 3 2 3 3 3 1 1 in
  let st := mkEngine 0 (const_mem 0) (const_mem 0) (const_mem 0) (const_mem 12345) [] in
  let r := cnn_accelerator_top (mkTiling 2 2 2) c (const_mem 64) (const_mem 16)
                               (const_mem 256) (const_mem 0) st in
  output_fm r 18 = 12345 /\ Fixed.is_data (output_fm r 17).
Proof.
  cbv zeta.
  assert (Hv : valid_layer (mkLayer 1 3 2 3 3 3 1 1))
    by (unfold valid_layer; cbn; repeat split; discriminate).
  assert (Ht : resource_compatible (mkTiling 2 2 2) (mkLayer 1 3 2 3 3 3 1 1))
    by (unfold resource_compatible; cbn; repeat split; discriminate).
  destruct (engine_output_footprint (mkTiling 2 2 2) (mkLayer 1 3 2 3 3 3 1 1)
              (const_mem 64) (const_mem 16) (const_mem 256) (const_mem 0)
              (mkEngine 0 (const_mem 0) (const_mem 0) (const_mem 0) (const_mem 12345) [])
              Hv Ht) as [Hf Hd].
  split.
  - rewrite Hf; [reflexivity|]. cbn. lia.
  - apply Hd. cbn. lia.
Defined.

Lemma engine_run_stateless_witness :
  let c := mkLayer 1 3 2 3 3 3 1 1 in
  let st' := mkEngine 1 (const_mem 77) (const_mem (-5)) (const_mem 4096)
                      (const_mem 12345) [] in
  output_fm (cnn_accelerator_top (mkTiling 2 2 2) c (const_mem 64) (const_mem 16)
                                 (const_mem 256) (const_mem 0) engine_reset) 1
  = output_fm (cnn_accelerator_top (mkTiling 2 2 2) c (const_mem 64) (const_mem 16)
                                   (const_mem 256) (const_mem 0) st') 1.
Proof.
  cbv zeta.
  apply engine_run_stateless.
  - unfold valid_layer; cbn; repeat split; discriminate.
  - unfold resource_compatible; cbn; repeat split; discriminate.
  - cbn. lia.
Defined.

(* ================================================================== *)
(** * Packing of four narrow values into a bus word (cnn_accel.h) *)

Lemma bits16_range d : 0 <= bits16 d < 2 ^ 16.
Proof.
  unfold bits16. rewrite Z.land_ones by lia. apply Z.mod_pos_bound. reflexivity.
Qed.

Lemma testbit_small v n : 0 <= v < 2 ^ 16 -> 16 <= n -> Z.testbit v n = false.
Proof.
  intros Hv Hn. destruct (Z.eq_dec v 0) as [->|Hz]; [apply Z.testbit_0_l|].
  apply Z.bits_above_log2; [lia|].
  assert (Z.log2 v < 16) by (apply Z.log2_lt_pow2; lia). lia.
Qed.

Lemma get_set_range16_same lo v x :
  0 <= lo -> 0 <= v < 2 ^ 16 -> get_range16 lo (set_range16 lo v x) = v.
Proof.
  intros Hlo Hv. unfold get_range16, set_range16.
  apply Z.bits_inj'. intros n Hn.
  rewrite Z.land_spec, Z.shiftr_spec, Z.lor_spec, Z.land_spec, Z.lnot_spec,
    !Z.shiftl_spec by lia.
  replace (n + lo - lo) with n by lia.
  destruct (Z.lt_ge_cases n 16) as [L | G].
  - rewrite !Z.ones_spec_low by lia. cbn [negb andb orb].
    rewrite andb_false_r, andb_true_r. reflexivity.
  - rewrite !Z.ones_spec_high by lia. rewrite andb_false_r.
    symmetry. apply testbit_small; assumption.
Qed.

Lemma get_set_range16_other lo lo' v x :
  0 <= lo -> 0 <= lo' -> lo + 16 <= lo' \/ lo' + 16 <= lo -> 0 <= v < 2 ^ 16 ->
  get_range16 lo' (set_range16 lo v x) = get_range16 lo' x.
Proof.
  intros Hlo Hlo' Hd Hv. unfold get_range16, set_range16.
  apply Z.bits_inj'. intros n Hn.
  rewrite !Z.land_spec, !Z.shiftr_spec, Z.lor_spec, Z.land_spec, Z.lnot_spec,
    !Z.shiftl_spec by lia.
  destruct (Z.lt_ge_cases n 16) as [L | G].
  - rewrite (Z.ones_spec_low 16 n) by lia. rewrite !andb_true_r.
    destruct Hd as [Hd | Hd].
    + rewrite (Z.ones_spec_high 16) by lia. cbn [negb]. rewrite andb_true_r.
      rewrite (testbit_small v) by lia. apply orb_false_r.
    + rewrite (Z.testbit_neg_r (Z.ones 16)) by lia.
      rewrite (Z.testbit_neg_r v) by lia. cbn [negb]. rewrite andb_true_r.
      apply orb_false_r.
  - rewrite (Z.ones_spec_high 16 n) by lia. rewrite !andb_false_r. reflexivity.
Qed.

Lemma data_of_bits16_bits16 d : Fixed.is_data d -> data_of_bits16 (bits16 d) = d.
Proof.
  unfold Fixed.is_data. change Fixed.DATA_MIN with (-32768). change Fixed.DATA_MAX with 32767.
  intros Hd. unfold data_of_bits16, bits16. rewrite Z.land_ones by lia.
  change (2 ^ 16) with 65536. change (2 ^ 15) with 32768.
  destruct (Z.lt_ge_cases d 0) as [L | G].
  - assert (E : d mod 65536 = d + 65536).
    { symmetry. apply Z.mod_unique with (q := -1); lia. }
    rewrite E. destruct (Z.ltb_spec (d + 65536) 32768); lia.
  - rewrite Z.mod_small by lia. destruct (Z.ltb_spec d 32768); lia.
Qed.


Lemma set_range16_spec lo v x n :
  0 <= lo -> 0 <= v < 2 ^ 16 -> 0 <= n ->
  Z.testbit (set_range16 lo v x) n
  = if (lo <=? n) && (n <? lo + 16) then Z.testbit v (n - lo) else Z.testbit x n.
Proof.
  intros Hlo Hv Hn. unfold set_range16.
  rewrite Z.lor_spec, Z.land_spec, Z.lnot_spec, !Z.shiftl_spec by lia.
  destruct (Z.leb_spec lo n); destruct (Z.ltb_spec n (lo + 16)); cbn [andb].
  - rewrite Z.ones_spec_low by lia. cbn [negb]. rewrite andb_false_r. reflexivity.
  - rewrite Z.ones_spec_high by lia. rewrite (testbit_small v) by lia.
    cbn [negb]. rewrite andb_true_r. apply orb_false_r.
  - rewrite (Z.testbit_neg_r (Z.ones 16)), (Z.testbit_neg_r v) by lia.
    cbn [negb]. rewrite andb_true_r. apply orb_false_r.
  - lia.
Qed.

Lemma pack_4x16_testbit uninit d0 d1 d2 d3 n :
  0 <= n ->
  Z.testbit (pack_4x16 uninit d0 d1 d2 d3) n
  = if n <? 16 then Z.testbit (bits16 d0) n
    else if n <? 32 then Z.testbit (bits16 d1) (n - 16)
    else if n <? 48 then Z.testbit (bits16 d2) (n - 32)
    else if n <? 64 then Z.testbit (bits16 d3) (n - 48)
    else Z.testbit uninit n.
Proof.
  intros Hn. unfold pack_4x16. cbv zeta.
  rewrite !set_range16_spec by (try apply bits16_range; lia).
  destruct (Z.ltb_spec n 16); destruct (Z.ltb_spec n 32);
    destruct (Z.ltb_spec n 48); destruct (Z.ltb_spec n 64);
    destruct (Z.leb_spec 48 n); destruct (Z.leb_spec 32 n);
    destruct (Z.leb_spec 16 n); destruct (Z.leb_spec 0 n);
    destruct (Z.ltb_spec n (48 + 16)); destruct (Z.ltb_spec n (32 + 16));
    destruct (Z.ltb_spec n (16 + 16)); destruct (Z.ltb_spec n (0 + 16));
    cbn [andb]; try lia; rewrite ?Z.sub_0_r; reflexivity.
Qed.

Lemma testbit_above_64 u n : 0 <= u < 2 ^ 64 -> 64 <= n -> Z.testbit u n = false.
Proof.
  intros Hu Hn. destruct (Z.eq_dec u 0) as [->|Hz]; [apply Z.testbit_0_l|].
  apply Z.bits_above_log2; [lia|].
  assert (Z.log2 u < 64) by (apply Z.log2_lt_pow2; lia). lia.
Qed.

(** X1. [unpack_4x16] recovers the four narrow values packed by
    [pack_4x16], whatever the indeterminate initial content of the packed
    word; the packed word does not depend on that content and fits 64
    bits. *)
Theorem pack_unpack_4x16 (uninit d0 d1 d2 d3 : Z) :
  Fixed.is_data d0 -> Fixed.is_data d1 -> Fixed.is_data d2 -> Fixed.is_data d3 ->
  unpack_4x16 (pack_4x16 uninit d0 d1 d2 d3) = (d0, d1, d2, d3) /\
  (0 <= uninit < 2 ^ 64 ->
   pack_4x16 uninit d0 d1 d2 d3 = pack_4x16 0 d0 d1 d2 d3 /\
   0 <= pack_4x16 uninit d0 d1 d2 d3 < 2 ^ 64).
Proof.
  intros H0 H1 H2 H3.
  pose proof (bits16_range d0) as B0. pose proof (bits16_range d1) as B1.
  pose proof (bits16_range d2) as B2. pose proof (bits16_range d3) as B3.
  split; [|intros Hu; split].
  - unfold unpack_4x16, pack_4x16. cbv zeta.
    rewrite (get_set_range16_same 48) by lia.
    rewrite (get_set_range16_other 48 32), (get_set_range16_same 32) by lia.
    rewrite (get_set_range16_other 48 16), (get_set_range16_other 32 16),
      (get_set_range16_same 16) by lia.
    rewrite (get_set_range16_other 48 0), (get_set_range16_other 32 0),
      (get_set_range16_other 16 0), (get_set_range16_same 0) by lia.
    rewrite !data_of_bits16_bits16 by assumption. reflexivity.
  - apply Z.bits_inj'. intros n Hn. rewrite !pack_4x16_testbit by assumption.
    destruct (n <? 16); [reflexivity|]. destruct (n <? 32); [reflexivity|].
    destruct (n <? 48); [reflexivity|].
    destruct (Z.ltb_spec n 64); [reflexivity|].
    rewrite Z.testbit_0_l. apply testbit_above_64; assumption.
  - assert (E : Z.land (pack_4x16 uninit d0 d1 d2 d3) (Z.ones 64)
                = pack_4x16 uninit d0 d1 d2 d3).
    { apply Z.bits_inj'. intros n Hn. rewrite Z.land_spec.
      destruct (Z.lt_ge_cases n 64).
      - rewrite Z.ones_spec_low by lia. apply andb_true_r.
      - rewrite Z.ones_spec_high by lia. rewrite andb_false_r.
        rewrite pack_4x16_testbit by assumption.
        destruct (Z.ltb_spec n 16); [lia|]. destruct (Z.ltb_spec n 32); [lia|].
        destruct (Z.ltb_spec n 48); [lia|]. destruct (Z.ltb_spec n 64); [lia|].
        symmetry. apply testbit_above_64; assumption. }
    rewrite <- E. rewrite Z.land_ones by lia. apply Z.mod_pos_bound. reflexivity.
Qed.

Lemma pack_unpack_4x16_witness :
  unpack_4x16 (pack_4x16 0xDEADBEEF12345678 256 (-1) (-32768) 32767)
  = (256, -1, -32768, 32767).
Proof.
  destruct (pack_unpack_4x16 0xDEADBEEF12345678 256 (-1) (-32768) 32767) as (H & _);
    [vm_compute; split; discriminate ..|exact H].
Defined.

(* ================================================================== *)
(** * The line buffer of the 3x3 convolution (conv_layer.cpp) *)

(** One call of [line_buffer_3x3], element by element. *)
Lemma line_buffer_3x3_step (p col width : Z) (window line_buf : mem) :
  let s' := line_buffer_3x3 p col width (window, line_buf) in
  (fst s' 0 = window 1 /\ fst s' 1 = window 2 /\ fst s' 2 = line_buf col) /\
  (fst s' 3 = window 4 /\ fst s' 4 = window 5 /\
   fst s' 5 = line_buf (MAX_INPUT_SIZE + col)) /\
  (fst s' 6 = window 7 /\ fst s' 7 = window 8 /\ fst s' 8 = p) /\
  snd s' col = line_buf (MAX_INPUT_SIZE + col) /\
  snd s' (MAX_INPUT_SIZE + col) = p /\
  (forall k, k <> col -> k <> MAX_INPUT_SIZE + col -> snd s' k = line_buf k).
Proof.
  cbv zeta. unfold line_buffer_3x3.
  change (for_loop 0 3) with
    (fun (body : Z -> mem -> mem) (s : mem) => body 2 (body 1 (body 0 s))).
  cbv beta. cbn [fst snd]. change (0 * MAX_INPUT_SIZE + col) with col.
  change (1 * MAX_INPUT_SIZE + col) with (MAX_INPUT_SIZE + col).
  repeat split; try reflexivity.
  - rewrite upd_other by (unfold MAX_INPUT_SIZE; lia). apply upd_same.
  - apply upd_same.
  - intros k H1 H2. rewrite !upd_other by assumption. reflexivity.
Qed.

Lemma push_row_state (img : Z -> Z -> Z) (width r : Z) (s : mem * mem) (c : Z) :
  width <= MAX_INPUT_SIZE -> 0 <= c <= width ->
  row_state (img r) (fun x => snd s (MAX_INPUT_SIZE + x)) (fun x => snd s x)
            width c (push_row img width r c s).
Proof.
  intros Hw Hc. unfold push_row.
  apply (for_loop_ind
           (row_state (img r) (fun x => snd s (MAX_INPUT_SIZE + x)) (fun x => snd s x) width)
           width); [| |assumption].
  - split.
    + intros x Hx. destruct (Z.ltb_spec x 0); [lia|]. split; reflexivity.
    + intros k Hk Hk0. lia.
  - intros k [win lb] Hk [Hlb Hwin].
    destruct (line_buffer_3x3_step (img r k) k width win lb)
      as ((W0 & W1 & W2) & (W3 & W4 & W5) & (W6 & W7 & W8) & L0 & L1 & Lo).
    cbn [fst snd] in *.
    destruct (Hlb k Hk) as [Hk1 Hk0]. rewrite Z.ltb_irrefl in Hk1, Hk0.
    split.
    + intros x Hx. destruct (Z.eq_dec x k) as [-> | Hne].
      * rewrite L0, L1. destruct (Z.ltb_spec k (k + 1)); [|lia].
        split; [reflexivity | assumption].
      * rewrite !Lo by (unfold MAX_INPUT_SIZE in *; lia).
        destruct (Hlb x Hx) as [Hx1 Hx0]. rewrite Hx1, Hx0.
        destruct (Z.ltb_spec x k); destruct (Z.ltb_spec x (k + 1)); try lia;
          split; reflexivity.
    + intros j Hj Hjk.
      assert (Hcase : j = 1 \/ j = 2 \/ j = 3) by lia.
      destruct Hcase as [-> | [-> | ->]].
      * change (3 - 1) with 2. change (6 - 1) with 5. change (9 - 1) with 8.
        rewrite W2, W5, W8. replace (k + 1 - 1) with k by lia.
        repeat split; assumption.
      * change (3 - 2) with 1. change (6 - 2) with 4. change (9 - 2) with 7.
        rewrite W1, W4, W7. replace (k + 1 - 2) with (k - 1) by lia.
        apply (Hwin 1); lia.
      * change (3 - 3) with 0. change (6 - 3) with 3. change (9 - 3) with 6.
        rewrite W0, W3, W6. replace (k + 1 - 3) with (k - 2) by lia.
        apply (Hwin 2); lia.
Qed.

(** After [r] full rows the line buffers hold the last two of them. *)
Lemma push_rows_line_buf (img : Z -> Z -> Z) (width : Z) (s : mem * mem) (r : Z) :
  0 < width <= MAX_INPUT_SIZE -> 0 <= r ->
  let s' := for_loop 0 r (fun y s => push_row img width y width s) s in
  (1 <= r -> forall x, 0 <= x < width -> snd s' (MAX_INPUT_SIZE + x) = img (r - 1) x) /\
  (2 <= r -> forall x, 0 <= x < width -> snd s' x = img (r - 2) x).
Proof.
  intros Hw Hr. cbv zeta.
  apply (for_loop_ind
           (fun r s' =>
              (1 <= r -> forall x, 0 <= x < width ->
                                   snd s' (MAX_INPUT_SIZE + x) = img (r - 1) x) /\
              (2 <= r -> forall x, 0 <= x < width -> snd s' x = img (r - 2) x))
           r); [| |lia].
  - split; intros; lia.
  - intros k s' Hk [H1 H2]. cbv beta.
    destruct (push_row_state img width k s' width ltac:(lia) ltac:(lia)) as [Hlb _].
    split.
    + intros _ x Hx. destruct (Hlb x Hx) as [E _]. refine (eq_trans E _).
      destruct (Z.ltb_spec x width); [|lia]. f_equal. lia.
    + intros Hk2 x Hx. destruct (Hlb x Hx) as [_ E]. refine (eq_trans E _).
      destruct (Z.ltb_spec x width); [|lia].
      rewrite H1 by lia. f_equal. lia.
Qed.

(** X10. Fed the pixels of an image in raster order, [line_buffer_3x3]
    holds, after the pixel at row [r], column [c] (both at least 2), the
    3x3 neighbourhood whose lower right corner is that pixel:
    [window[i][j]] is the pixel at row [r - 2 + i], column [c - 2 + j],
    whatever the buffers held before the first pixel. *)
Theorem line_buffer_3x3_window (img : Z -> Z -> Z) (width r c : Z)
    (s : mem * mem) (i j : Z) :
  0 < width <= MAX_INPUT_SIZE -> 2 <= r -> 2 <= c < width ->
  0 <= i < 3 -> 0 <= j < 3 ->
  fst (push_image img width r c s) (i * 3 + j) = img (r - 2 + i) (c - 2 + j).
Proof.
  intros Hw Hr Hc Hi Hj. unfold push_image.
  set (s' := for_loop 0 r (fun y s => push_row img width y width s) s).
  destruct (push_rows_line_buf img width s r Hw ltac:(lia)) as [H1 H2].
  fold s' in H1, H2.
  destruct (push_row_state img width r s' (c + 1) ltac:(lia) ltac:(lia)) as [_ Hwin].
  destruct (Hwin (3 - j) ltac:(lia) ltac:(lia)) as (E0 & E1 & E2).
  replace (3 - (3 - j)) with j in E0 by lia.
  replace (6 - (3 - j)) with (3 + j) in E1 by lia.
  replace (9 - (3 - j)) with (6 + j) in E2 by lia.
  replace (c + 1 - (3 - j)) with (c - 2 + j) in * by lia.
  assert (Hcase : i = 0 \/ i = 1 \/ i = 2) by lia.
  destruct Hcase as [-> | [-> | ->]].
  - change (0 * 3 + j) with j. rewrite E0, H2 by lia. f_equal. lia.
  - change (1 * 3 + j) with (3 + j). rewrite E1, H1 by lia. f_equal. lia.
  - change (2 * 3 + j) with (6 + j). rewrite E2. f_equal. lia.
Qed.

Lemma line_buffer_3x3_window_witness :
  fst (push_image (fun y x => 10 * y + x) 4 2 3 (const_mem 99, const_mem (-7))) (0 * 3 + 1)
  = 2.
Proof.
  rewrite (line_buffer_3x3_window (fun y x => 10 * y + x) 4 2 3
             (const_mem 99, const_mem (-7)) 0 1); [reflexivity | | | | |];
    unfold MAX_INPUT_SIZE; lia.
Defined.

(* ================================================================== *)
(** * The multiply-accumulate kernels (conv_layer.cpp) *)

(** The product of two narrow values fits the accumulator, so [mac_unit]
    is the saturating multiply-accumulate of the engine. *)
Lemma mac_unit_mac (a w acc : Z) :
  Fixed.is_data a -> Fixed.is_data w -> mac_unit a w acc = Fixed.mac acc a w.
Proof.
  unfold Fixed.is_data. change Fixed.DATA_MIN with (-32768).
  change Fixed.DATA_MAX with 32767. intros Ha Hw.
  unfold mac_unit, Fixed.mac, Fixed.acc_add.
  assert (Hp : Z.abs (a * w) <= 32768 * 32768).
  { rewrite Z.abs_mul. apply Z.mul_le_mono_nonneg; lia. }
  destruct (sat_cases Fixed.ACC_W (a * w)) as (_ & _ & E).
  change (2 ^ (Fixed.ACC_W - 1)) with 2147483648 in E.
  cbv zeta. rewrite E by lia. reflexivity.
Qed.

Lemma abs_sum_snoc (n : Z) (a : mem) :
  0 <= n -> abs_sum (n + 1) a = abs_sum n a + Z.abs (a n).
Proof. intros Hn. unfold abs_sum. rewrite for_loop_snoc by lia. reflexivity. Qed.

Lemma abs_sum_mono (a : mem) (k n : Z) :
  0 <= k <= n -> abs_sum k a <= abs_sum n a.
Proof.
  intros [Hk Hkn]. replace n with (k + (n - k)) by lia.
  assert (Hd : 0 <= n - k) by lia. revert Hd. generalize (n - k) as d.
  intros d Hd. pattern d. apply natlike_ind; [| |assumption].
  - rewrite Z.add_0_r. lia.
  - intros x Hx IH. unfold Z.succ. rewrite Z.add_assoc, abs_sum_snoc by lia. lia.
Qed.

(** A chain of [mac_unit] steps is the exact dot product when the
    activations are narrow values and the absolute weights sum to less
    than 256.0. *)
Lemma mac_chain_exact (n : Z) (a b : mem) :
  0 <= n ->
  (forall k, 0 <= k < n -> Fixed.is_data (a k)) ->
  abs_sum n b <= 65535 ->
  for_loop 0 n (fun k sum => mac_unit (a k) (b k) sum) 0 = dot n a b.
Proof.
  intros Hn Ha Hb.
  assert (H : forall k, 0 <= k -> k <= n ->
            for_loop 0 k (fun k sum => mac_unit (a k) (b k) sum) 0 = dot k a b /\
            Z.abs (dot k a b) <= 32768 * abs_sum k b).
  { intros k Hk. pattern k. apply natlike_ind; [| |assumption].
    - intros _. unfold dot, abs_sum. rewrite !for_loop_empty by lia. simpl. lia.
    - intros x Hx IH Hxn. unfold Z.succ. destruct (IH ltac:(lia)) as [E B].
      pose proof (abs_sum_mono b (x + 1) n ltac:(lia)) as Hm.
      rewrite abs_sum_snoc in * by lia.
      specialize (Ha x ltac:(lia)). unfold Fixed.is_data in Ha.
      change Fixed.DATA_MIN with (-32768) in Ha. change Fixed.DATA_MAX with 32767 in Ha.
      assert (Hp : Z.abs (a x * b x) <= 32768 * Z.abs (b x)).
      { rewrite Z.abs_mul. apply Z.mul_le_mono_nonneg_r; lia. }
      assert (Ed : dot (x + 1) a b = dot x a b + a x * b x).
      { unfold dot. rewrite for_loop_snoc by lia. reflexivity. }
      rewrite for_loop_snoc by lia. rewrite E, Ed.
      split; [|lia].
      unfold mac_unit, Fixed.acc_add. cbv zeta.
      destruct (sat_cases Fixed.ACC_W (a x * b x)) as (_ & _ & E1).
      destruct (sat_cases Fixed.ACC_W (dot x a b + a x * b x)) as (_ & _ & E2).
      change (2 ^ (Fixed.ACC_W - 1)) with 2147483648 in E1, E2.
      rewrite E1 by lia. apply E2. lia. }
  apply H; lia.
Qed.

Lemma conv_3x3_kernel_flat (window kernel : mem) :
  conv_3x3_kernel window kernel
  = for_loop 0 9 (fun k sum => mac_unit (window k) (kernel k) sum) 0.
Proof.
  unfold conv_3x3_kernel. generalize mac_unit. intros f.
  vm_compute. reflexivity.
Qed.

(** X11. [conv_3x3_kernel] returns the exact dot product of the window and
    the kernel when the window holds narrow values and the absolute
    weights sum to less than 256.0: no step saturates. *)
Theorem conv_3x3_kernel_exact (window kernel : mem) :
  (forall k, 0 <= k < 9 -> Fixed.is_data (window k)) ->
  abs_sum 9 kernel <= 65535 ->
  conv_3x3_kernel window kernel = dot 9 window kernel.
Proof.
  intros Hw Hk. rewrite conv_3x3_kernel_flat. apply mac_chain_exact; [lia | |]; assumption.
Qed.

Lemma conv_3x3_kernel_exact_witness :
  conv_3x3_kernel (mem_of_list [256; -512; 128; 0; 32767; -32768; 64; 1; -1])
                  (mem_of_list [256; 128; -64; 1000; 300; 300; 0; -256; 77])
  = dot 9 (mem_of_list [256; -512; 128; 0; 32767; -32768; 64; 1; -1])
          (mem_of_list [256; 128; -64; 1000; 300; 300; 0; -256; 77]).
Proof.
  apply conv_3x3_kernel_exact.
  - intros k Hk.
    assert (Hc : k = 0 \/ k = 1 \/ k = 2 \/ k = 3 \/ k = 4 \/ k = 5 \/ k = 6 \/ k = 7 \/ k = 8)
      by lia.
    destruct Hc as [-> | [-> | [-> | [-> | [-> | [-> | [-> | [-> | ->]]]]]]]];
      vm_compute; split; discriminate.
  - vm_compute. discriminate.
Defined.

Lemma padded_input_is_data (c : LayerConfig) (input_fm : mem) (ic ih iw : Z) :
  (forall j, Fixed.is_data (input_fm j)) -> Fixed.is_data (padded_input c input_fm ic ih iw).
Proof.
  intros H. unfold padded_input.
  destruct (_ && _); [apply H|]. vm_compute. split; discriminate.
Qed.

(** X12. For a layer with a 1x1 kernel, [conv1x1_channel] applied to the
    input pixel of every channel and the weights of one output channel
    returns the accumulator value of the direct convolution, which is what
    the tiled engine normalizes and stores; it is the exact dot product
    when the absolute weights sum to less than 256.0. *)
Theorem conv1x1_channel_direct (t : tiling) (c : LayerConfig)
    (input_fm weights bn_scale bn_shift : mem) (st : engine) (oc oh ow : Z) :
  kernel_size c = 1 ->
  (forall j, Fixed.is_data (input_fm j)) -> (forall j, Fixed.is_data (weights j)) ->
  let pixel := fun ic => padded_input c input_fm ic (oh * stride c - padding c)
                                      (ow * stride c - padding c) in
  let row := fun ic => weights (oc * in_channels c + ic) in
  let sum := conv1x1_channel pixel row (in_channels c) in
  sum = direct_conv c input_fm weights oc oh ow /\
  (0 <= in_channels c -> abs_sum (in_channels c) row <= 65535 ->
   sum = dot (in_channels c) pixel row) /\
  (valid_layer c -> resource_compatible t c -> layer_type c <> 1 ->
   0 <= oc < out_channels c -> 0 <= oh < out_height c -> 0 <= ow < out_width c ->
   output_fm (cnn_accelerator_top t c input_fm weights bn_scale bn_shift st)
             (idx3 (out_height c) (out_width c) oc oh ow)
   = finalize (layer_type c) (bn_scale_val c bn_scale oc) (bn_shift_val c bn_shift oc) sum).
Proof.
  intros Hk Hin Hw pixel row sum.
  assert (E : sum = direct_conv c input_fm weights oc oh ow).
  { subst sum. unfold conv1x1_channel, direct_conv, conv_mac. rewrite Hk.
    apply for_loop_ext. intros ic s _.
    change (for_loop 0 1) with (fun (body : Z -> Z -> Z) (s : Z) => body 0 s).
    cbv beta. subst pixel row. cbv beta.
    rewrite mac_unit_mac by (try apply padded_input_is_data; auto).
    unfold weight_at. rewrite Hk. rewrite !Z.add_0_r, !Z.mul_1_r.
    reflexivity. }
  split; [exact E|]. split.
  - intros Hn Hb. subst sum. unfold conv1x1_channel. apply mac_chain_exact; try assumption.
    intros k _. subst pixel. apply padded_input_is_data. assumption.
  - intros Hv Ht Hlt Hoc Hoh How. rewrite E.
    rewrite top_output_fm. apply Z.eqb_neq in Hlt. rewrite Hlt.
    pose proof Ht as (Hth & Htw & Htc & _).
    pose proof Hv as (_ & Hic & _ & _ & _ & _ & Hs & _ & Hoh' & How').
    apply (tile_loops_spec t c input_fm weights bn_scale bn_shift
             (conj Hth (conj Htw Htc)) ltac:(lia) ltac:(lia)); assumption.
Qed.

Lemma mem_of_list_is_data (l : list Z) (j : Z) :
  Forall Fixed.is_data l -> Fixed.is_data (mem_of_list l j).
Proof.
  intros H. unfold mem_of_list.
  assert (H0 : Fixed.is_data 0) by (vm_compute; split; discriminate).
  destruct (j <? 0); [exact H0|].
  generalize (Z.to_nat j). induction H as [|x l Hx Hl IH]; intros [|n]; simpl; auto.
Qed.

Lemma conv1x1_channel_direct_witness :
  let c := mkLayer 2 3 2 2 2 1 1 0 in
  let input_fm := mem_of_list [256; 512; -256; 128; 64; 32; 16; 8; -1024; 0; 1; 2] in
  let weights := mem_of_list [256; -128; 64; 512; 256; 128] in
  conv1x1_channel (fun ic => padded_input c input_fm ic (1 * stride c - padding c)
                                         (0 * stride c - padding c))
                  (fun ic => weights (1 * in_channels c + ic)) (in_channels c)
  = direct_conv c input_fm weights 1 1 0.
Proof.
  cbv zeta.
  destruct (conv1x1_channel_direct zedboard_tiling (mkLayer 2 3 2 2 2 1 1 0)
           (mem_of_list [256; 512; -256; 128; 64; 32; 16; 8; -1024; 0; 1; 2])
           (mem_of_list [256; -128; 64; 512; 256; 128])
           (const_mem 0) (const_mem 0) engine_reset 1 1 0) as (H & _).
  - reflexivity.
  - intros j. apply mem_of_list_is_data.
    repeat constructor; vm_compute; discriminate.
  - intros j. apply mem_of_list_is_data.
    repeat constructor; vm_compute; discriminate.
  - exact H.
Defined.

(* ================================================================== *)
(** * The ARM driver (cnn_driver.c) *)

Section DriverFacts.

Import Driver.

Ltac reg_lookup :=
  repeat (rewrite upd_other by (vm_compute; discriminate)); apply upd_same.

(** X13. After the register writes of [cnn_accel_run_layer] every layer
    parameter and every buffer address can be read back from its register
    (as a 32-bit word, the upper address words zero), the control register
    holds the start bit, and no other bus address has been written: the
    nineteen registers are pairwise distinct. *)
Theorem run_layer_registers_read_back (cfg : LayerConfig)
    (input_addr output_addr weights_addr bn_scale_addr bn_shift_addr : Z) (regs : mem) :
  let regs' := run_layer_writes cfg input_addr output_addr weights_addr
                                bn_scale_addr bn_shift_addr regs in
  (read_reg CNN_ACCEL_CONTROL_BASE REG_LAYER_TYPE regs' = u32 (layer_type cfg) /\
   read_reg CNN_ACCEL_CONTROL_BASE REG_IN_CHANNELS regs' = u32 (in_channels cfg) /\
   read_reg CNN_ACCEL_CONTROL_BASE REG_OUT_CHANNELS regs' = u32 (out_channels cfg) /\
   read_reg CNN_ACCEL_CONTROL_BASE REG_IN_HEIGHT regs' = u32 (in_height cfg) /\
   read_reg CNN_ACCEL_CONTROL_BASE REG_IN_WIDTH regs' = u32 (in_width cfg) /\
   read_reg CNN_ACCEL_CONTROL_BASE REG_KERNEL_SIZE regs' = u32 (kernel_size cfg) /\
   read_reg CNN_ACCEL_CONTROL_BASE REG_STRIDE regs' = u32 (stride cfg) /\
   read_reg CNN_ACCEL_CONTROL_BASE REG_PADDING regs' = u32 (padding cfg)) /\
  (read_reg CNN_ACCEL_CONTROL_R_BASE REG_INPUT_FM_LO regs' = u32 input_addr /\
   read_reg CNN_ACCEL_CONTROL_R_BASE REG_OUTPUT_FM_LO regs' = u32 output_addr /\
   read_reg CNN_ACCEL_CONTROL_R_BASE REG_WEIGHTS_LO regs' = u32 weights_addr /\
   read_reg CNN_ACCEL_CONTROL_R_BASE REG_BN_SCALE_LO regs' = u32 bn_scale_addr /\
   read_reg CNN_ACCEL_CONTROL_R_BASE REG_BN_SHIFT_LO regs' = u32 bn_shift_addr) /\
  (read_reg CNN_ACCEL_CONTROL_R_BASE REG_INPUT_FM_HI regs' = 0 /\
   read_reg CNN_ACCEL_CONTROL_R_BASE REG_OUTPUT_FM_HI regs' = 0 /\
   read_reg CNN_ACCEL_CONTROL_R_BASE REG_WEIGHTS_HI regs' = 0 /\
   read_reg CNN_ACCEL_CONTROL_R_BASE REG_BN_SCALE_HI regs' = 0 /\
   read_reg CNN_ACCEL_CONTROL_R_BASE REG_BN_SHIFT_HI regs' = 0) /\
  read_reg CNN_ACCEL_CONTROL_BASE REG_AP_CTRL regs' = AP_START /\
  NoDup run_layer_registers /\
  (forall a, ~ In a run_layer_registers -> regs' a = regs a).
Proof.
  cbv zeta.
  unfold run_layer_writes, cnn_accel_start, cnn_accel_set_addresses,
    cnn_accel_configure_layer, write_reg, read_reg.
  repeat match goal with |- _ /\ _ => split end; try reg_lookup.
  - unfold run_layer_registers. cbn [map app].
    repeat (constructor; [cbn [In]; vm_compute; intuition discriminate|]).
    constructor.
  - intros a Ha. unfold run_layer_registers in Ha. cbn [map app In] in Ha.
    repeat (rewrite upd_other by (intros E; apply Ha; rewrite E; tauto)).
    reflexivity.
Qed.

Lemma u32_idem (x : Z) : u32 (u32 x) = u32 x.
Proof. unfold u32. apply Z.mod_mod. discriminate. Qed.

Lemma u32_add_l (x y : Z) : u32 (u32 x + y) = u32 (x + y).
Proof. unfold u32. apply Zplus_mod_idemp_l. Qed.

Lemma bytes_before_cons (size : LayerConfig -> Z) l layers n :
  bytes_before size (l :: layers) (S n) = size l + bytes_before size layers n.
Proof. reflexivity. Qed.

(** The calls made from an arbitrary state of the layer loop. *)
Lemma yolo_layer_loop (layers : list LayerConfig) : forall s0,
  u32 (weight_ptr s0) = weight_ptr s0 ->
  u32 (bn_scale_ptr s0) = bn_scale_ptr s0 ->
  u32 (bn_shift_ptr s0) = bn_shift_ptr s0 ->
  let s := fold_left yolo_layer_step layers s0 in
  exists new,
    calls s = calls s0 ++ new /\
    length new = length layers /\
    (forall i l, nth_error layers i = Some l ->
       exists call,
         nth_error new i = Some call /\
         call_cfg call = l /\
         call_input call = (if Nat.even i then current_input s0 else current_output s0) /\
         call_output call = (if Nat.even i then current_output s0 else current_input s0) /\
         call_weights call = u32 (weight_ptr s0 + bytes_before weight_size layers i) /\
         call_bn_scale call = u32 (bn_scale_ptr s0 + bytes_before bn_size layers i) /\
         call_bn_shift call = u32 (bn_shift_ptr s0 + bytes_before bn_size layers i)) /\
    current_input s
    = (if Nat.even (length layers) then current_input s0 else current_output s0).
Proof.
  induction layers as [|l layers IH]; intros s0 Hw Hs Hh; cbv zeta.
  - exists []. rewrite app_nil_r. repeat split; try reflexivity.
    intros [|i] l' H; discriminate.
  - cbn [fold_left].
    destruct (IH (yolo_layer_step s0 l)) as (new & Hc & Hl & Hn & Hi);
      try apply u32_idem.
    exists (mkCall l (current_input s0) (current_output s0) (weight_ptr s0)
                   (bn_scale_ptr s0) (bn_shift_ptr s0) :: new).
    split; [|split; [|split]].
    + rewrite Hc. cbn [yolo_layer_step calls]. rewrite <- app_assoc. reflexivity.
    + cbn [length]. rewrite Hl. reflexivity.
    + intros [|i] l' Hl'.
      * injection Hl' as <-. eexists. split; [reflexivity|].
        cbn [call_cfg call_input call_output call_weights call_bn_scale call_bn_shift
             Nat.even].
        unfold bytes_before. cbn [firstn map fold_right]. rewrite !Z.add_0_r.
        repeat split; congruence.
      * destruct (Hn i l' Hl') as (call & H1 & H2 & H3 & H4 & H5 & H6 & H7).
        exists call. split; [exact H1|]. split; [exact H2|].
        rewrite H3, H4, H5, H6, H7.
        cbn [yolo_layer_step current_input current_output weight_ptr bn_scale_ptr
             bn_shift_ptr].
        rewrite !bytes_before_cons, !u32_add_l, !Z.add_assoc.
        fold (weight_size l). fold (bn_size l).
        rewrite Nat.even_succ, <- Nat.negb_even.
        destruct (Nat.even i); repeat split; reflexivity.
    + rewrite Hi. cbn [yolo_layer_step current_input current_output length].
      rewrite Nat.even_succ, <- Nat.negb_even.
      destruct (Nat.even (length layers)); reflexivity.
Qed.

(** X14. [cnn_accel_run_yolo_lite] makes one call per layer of its table.
    Call [i] reads its input where call [i - 1] wrote its output: the
    image buffer and [DDR_OUTPUT_FM_ADDR] alternate, so every odd call
    overwrites the image buffer and [output_addr] is never passed to the
    accelerator.  The weight and batch-norm pointers of call [i] are the
    base addresses advanced by the bytes of the layers before it. *)
Theorem run_yolo_lite_calls (layers : list LayerConfig) (image_addr output_addr : Z) :
  let s := cnn_accel_run_yolo_lite layers image_addr output_addr in
  length (calls s) = length layers /\
  (forall i l, nth_error layers i = Some l ->
     exists call,
       nth_error (calls s) i = Some call /\
       call_cfg call = l /\
       call_input call = (if Nat.even i then u32 image_addr else DDR_OUTPUT_FM_ADDR) /\
       call_output call = (if Nat.even i then DDR_OUTPUT_FM_ADDR else u32 image_addr) /\
       call_weights call = u32 (DDR_WEIGHTS_ADDR + bytes_before weight_size layers i) /\
       call_bn_scale call = u32 (DDR_BN_SCALE_ADDR + bytes_before bn_size layers i) /\
       call_bn_shift call = u32 (DDR_BN_SHIFT_ADDR + bytes_before bn_size layers i)) /\
  (forall i a b, nth_error (calls s) i = Some a -> nth_error (calls s) (S i) = Some b ->
     call_input b = call_output a) /\
  current_input s
  = (if Nat.even (length layers) then u32 image_addr else DDR_OUTPUT_FM_ADDR).
Proof.
  cbv zeta. unfold cnn_accel_run_yolo_lite.
  destruct (yolo_layer_loop layers
              (mkYolo (u32 image_addr) DDR_OUTPUT_FM_ADDR DDR_WEIGHTS_ADDR
                      DDR_BN_SCALE_ADDR DDR_BN_SHIFT_ADDR []))
    as (new & Hc & Hl & Hn & Hi); try reflexivity.
  cbn [calls current_input current_output weight_ptr bn_scale_ptr bn_shift_ptr app] in *.
  rewrite Hc. split; [exact Hl|]. split; [exact Hn|]. split; [|exact Hi].
  intros i a b Ha Hb.
  assert (Hlen : (S i < length layers)%nat).
  { rewrite <- Hl. apply nth_error_Some. congruence. }
  destruct (nth_error layers i) as [la|] eqn:Ela;
    [|apply nth_error_None in Ela; lia].
  destruct (nth_error layers (S i)) as [lb|] eqn:Elb;
    [|apply nth_error_None in Elb; lia].
  destruct (Hn i la Ela) as (ca & Hca & _ & _ & Hout & _).
  destruct (Hn (S i) lb Elb) as (cb & Hcb & _ & Hin & _).
  assert (ca = a) by congruence. assert (cb = b) by congruence. subst ca cb.
  rewrite Hin, Hout. rewrite Nat.even_succ, <- Nat.negb_even.
  destruct (Nat.even i); reflexivity.
Qed.

(** X15. The table [yolo_lite_layers] suits the engine: each of its seven
    layers is a valid layer whose tiles fit the buffers compiled into the
    design, each layer leaves the feature map the next one is configured
    for, and the weights and batch-norm parameters the run walks through
    stay inside their DDR regions. *)
Theorem yolo_lite_layers_chain :
  Forall (fun l => valid_layer l /\ resource_compatible zedboard_tiling l)
         yolo_lite_layers /\
  (forall i a b, nth_error yolo_lite_layers i = Some a ->
                 nth_error yolo_lite_layers (S i) = Some b ->
                 layer_output_shape a = layer_input_shape b) /\
  DDR_WEIGHTS_ADDR + bytes_before weight_size yolo_lite_layers 7 <= DDR_BN_SCALE_ADDR /\
  DDR_BN_SCALE_ADDR + bytes_before bn_size yolo_lite_layers 7 <= DDR_BN_SHIFT_ADDR /\
  DDR_BN_SHIFT_ADDR + bytes_before bn_size yolo_lite_layers 7 < 2 ^ 32.
Proof.
  split; [|split; [|split; [|split]]].
  - unfold yolo_lite_layers.
    repeat (constructor;
            [split; [unfold valid_layer | unfold resource_compatible];
             cbn; repeat split; discriminate|]).
    constructor.
  - intros i a b Ha Hb. unfold yolo_lite_layers in *.
    do 7 (destruct i as [|i];
          [cbn in Ha, Hb; try discriminate; injection Ha as <-; injection Hb as <-;
           reflexivity|]).
    cbn in Ha. destruct i; discriminate.
  - vm_compute. discriminate.
  - vm_compute. discriminate.
  - vm_compute. reflexivity.
Qed.

End DriverFacts.

(* ================================================================== *)
(** * The standalone convolution [conv2d_hw] on one input-channel tile *)

Lemma conv2d_hw_parts (uninit input weights : mem)
    (in_ch in_h in_w out_ch kernel stride pad : Z) (st : conv_state) :
  conv2d_hw uninit input weights in_ch in_h in_w out_ch kernel stride pad st
  = let out_h := Z.quot (in_h + 2 * pad - kernel) stride + 1 in
    let out_w := Z.quot (in_w + 2 * pad - kernel) stride + 1 in
    for_step 0 out_ch PARALLEL_OUT_CH (fun oc_tile st =>
      let oc_n := Z.min PARALLEL_OUT_CH (out_ch - oc_tile) in
      for_step 0 in_ch PARALLEL_IN_CH (fun ic_tile st =>
        let ic_n := Z.min PARALLEL_IN_CH (in_ch - ic_tile) in
        let st := conv2d_load_weights weights in_ch kernel oc_tile ic_tile oc_n ic_n st in
        for_loop 0 out_h (fun oh st =>
          for_loop 0 out_w (fun ow st =>
            conv2d_pixel uninit input in_ch in_h in_w kernel stride pad out_h out_w
                         oc_tile ic_tile oc_n ic_n oh ow st) st) st) st) st.
Proof. reflexivity. Qed.

Lemma write_loop_app {K} (w : K -> Z) (val : K -> mem -> Z) (l1 l2 : list K) (m : mem) :
  write_loop w val (l1 ++ l2) m = write_loop w val l2 (write_loop w val l1 m).
Proof. unfold write_loop. apply fold_left_app. Qed.

(** A loop whose every step performs a block of stores with values that
    do not depend on the memory. *)
Lemma fold_write_blocks {S K K2} (out : S -> mem) (Inv : S -> Prop)
    (step : S -> K -> S) (sub : K -> list K2) (w v : K2 -> Z) (keys : list K) :
  (forall s k, In k keys -> Inv s ->
     Inv (step s k) /\
     forall j, out (step s k) j = write_loop w (fun k _ => v k) (sub k) (out s) j) ->
  forall s, Inv s ->
    Inv (fold_left step keys s) /\
    forall j, out (fold_left step keys s) j
              = write_loop w (fun k _ => v k) (flat_map sub keys) (out s) j.
Proof.
  induction keys as [|k keys IH]; intros Hstep s Hs; [split; [assumption | reflexivity]|].
  cbn [fold_left flat_map].
  destruct (Hstep s k (or_introl eq_refl) Hs) as [Hi Ho].
  destruct (IH (fun s k' Hk => Hstep s k' (or_intror Hk)) (step s k) Hi) as [Hi' Ho'].
  split; [exact Hi'|]. intros j. rewrite Ho', write_loop_app.
  apply write_loop_ext_mem; [reflexivity | exact Ho].
Qed.

Lemma for_loop_one {S} (body : Z -> S -> S) (s : S) : for_loop 0 1 body s = body 0 s.
Proof. reflexivity. Qed.

(** A single tile covers the loop when the bound is at most the step. *)
Lemma for_step_single {S} (n step : Z) (body : Z -> S -> S) (s : S) :
  0 < n <= step -> for_step 0 n step body s = body 0 s.
Proof.
  intros Hn. unfold for_step.
  replace ((n - 0 + step - 1) / step) with 1
    by (apply Z.div_unique with (r := n - 1); lia).
  reflexivity.
Qed.

Lemma write_loop_map_ext {K K2} (w v : K2 -> Z) (g : K -> K2) (w' v' : K -> Z)
    (l : list K) : forall m,
  (forall k, In k l -> w' k = w (g k) /\ v' k = v (g k)) ->
  write_loop w' (fun k _ => v' k) l m = write_loop w (fun k _ => v k) (map g l) m.
Proof.
  induction l as [|k l IH]; intros m H; [reflexivity|].
  cbn [map]. rewrite !write_loop_cons.
  destruct (H k (or_introl eq_refl)) as [-> ->].
  apply IH. intros k' Hk'. apply H. right. assumption.
Qed.

Lemma conv_3x3_kernel_ext (w1 w2 k1 k2 : mem) :
  (forall j, 0 <= j < 9 -> w1 j = w2 j) -> (forall j, 0 <= j < 9 -> k1 j = k2 j) ->
  conv_3x3_kernel w1 k1 = conv_3x3_kernel w2 k2.
Proof.
  intros Hw Hk. rewrite !conv_3x3_kernel_flat. apply for_loop_ext.
  intros j s Hj. rewrite Hw, Hk by assumption. reflexivity.
Qed.

Lemma if_upd (b : bool) (m : mem) (k x y : Z) :
  (if b then upd m k x else upd m k y) = upd m k (if b then x else y).
Proof. destruct b; reflexivity. Qed.

(** LOAD_WINDOW of a 3x3 kernel fills all nine entries of the window. *)
Lemma conv2d_load_window_spec (uninit input : mem) (in_h in_w stride pad ch oh ow j : Z) :
  0 <= j < 9 ->
  conv2d_load_window uninit input in_h in_w 3 stride pad ch oh ow j
  = conv_window input in_h in_w stride pad ch oh ow j.
Proof.
  intros Hj. unfold conv2d_load_window.
  change (for_loop 0 3) with
    (fun (body : Z -> mem -> mem) (s : mem) => body 2 (body 1 (body 0 s))).
  cbv beta zeta. rewrite !if_upd.
  change (0 * 3 + 0) with 0. change (0 * 3 + 1) with 1. change (0 * 3 + 2) with 2.
  change (1 * 3 + 0) with 3. change (1 * 3 + 1) with 4. change (1 * 3 + 2) with 5.
  change (2 * 3 + 0) with 6. change (2 * 3 + 1) with 7. change (2 * 3 + 2) with 8.
  assert (Hc : j = 0 \/ j = 1 \/ j = 2 \/ j = 3 \/ j = 4 \/ j = 5 \/ j = 6 \/ j = 7 \/ j = 8)
    by lia.
  unfold conv_window. cbv zeta.
  destruct Hc as [-> | [-> | [-> | [-> | [-> | [-> | [-> | [-> | ->]]]]]]]];
    repeat (rewrite upd_other by discriminate); rewrite upd_same; reflexivity.
Qed.

(** A loop that updates one accumulator per iteration. *)
Lemma acc_loop (n : Z) (g : Z -> mem -> Z -> Z) (st : conv_state) :
  let st' := for_loop 0 n (fun oc st =>
               mkConv (weight_buf st)
                      (upd (acc_buf st) oc (g oc (weight_buf st) (acc_buf st oc)))
                      (conv_output st)) st in
  weight_buf st' = weight_buf st /\ conv_output st' = conv_output st /\
  forall oc, acc_buf st' oc
             = if (0 <=? oc) && (oc <? n) then g oc (weight_buf st) (acc_buf st oc)
               else acc_buf st oc.
Proof.
  cbv zeta. destruct (Z.le_gt_cases n 0) as [Hn | Hn].
  - rewrite for_loop_empty by assumption. repeat split. intros oc.
    destruct (Z.leb_spec 0 oc); destruct (Z.ltb_spec oc n); cbn [andb]; try reflexivity.
    lia.
  - apply (for_loop_ind
             (fun k s => weight_buf s = weight_buf st /\ conv_output s = conv_output st /\
                forall oc, acc_buf s oc
                           = if (0 <=? oc) && (oc <? k)
                             then g oc (weight_buf st) (acc_buf st oc)
                             else acc_buf st oc) n); [| |lia].
    + repeat split. intros oc.
      destruct (Z.leb_spec 0 oc); destruct (Z.ltb_spec oc 0); cbn [andb]; try reflexivity.
      lia.
    + intros k s Hk (Hw & Ho & Ha). cbn [weight_buf conv_output acc_buf].
      split; [exact Hw|]. split; [exact Ho|]. intros oc. unfold upd.
      destruct (Z.eqb_spec oc k) as [-> | Hne].
      * rewrite (Ha k), Hw.
        destruct (Z.leb_spec 0 k); destruct (Z.ltb_spec k k);
          destruct (Z.ltb_spec k (k + 1)); cbn [andb]; lia || reflexivity.
      * rewrite Ha.
        destruct (Z.leb_spec 0 oc); destruct (Z.ltb_spec oc k);
          destruct (Z.ltb_spec oc (k + 1)); cbn [andb]; lia || reflexivity.
Qed.

(** A loop that stores one narrowed accumulator per iteration. *)
Lemma out_loop (n : Z) (wo : Z -> Z) (st : conv_state) :
  let st' := for_loop 0 n (fun oc st =>
               mkConv (weight_buf st) (acc_buf st)
                      (upd (conv_output st) (wo oc) (Fixed.narrow (acc_buf st oc)))) st in
  weight_buf st' = weight_buf st /\
  conv_output st'
  = write_loop wo (fun oc _ => Fixed.narrow (acc_buf st oc)) (zrange 0 n) (conv_output st).
Proof.
  cbv zeta. unfold for_loop. generalize (zrange 0 n) as l. intros l.
  assert (H : forall s,
            let s' := fold_left (fun s oc =>
                        mkConv (weight_buf s) (acc_buf s)
                               (upd (conv_output s) (wo oc) (Fixed.narrow (acc_buf s oc))))
                        l s in
            weight_buf s' = weight_buf s /\ acc_buf s' = acc_buf s /\
            conv_output s'
            = write_loop wo (fun oc _ => Fixed.narrow (acc_buf s oc)) l (conv_output s)).
  { induction l as [|k l IH]; intros s; [repeat split|].
    cbn [fold_left]. cbv zeta in IH.
    destruct (IH (mkConv (weight_buf s) (acc_buf s)
                         (upd (conv_output s) (wo k) (Fixed.narrow (acc_buf s k)))))
      as (E1 & E2 & E3).
    cbn [weight_buf acc_buf conv_output] in *.
    split; [exact E1|]. split; [exact E2|]. rewrite E3. reflexivity. }
  destruct (H st) as (E1 & _ & E3). split; assumption.
Qed.

(** The stores of a whole run of [conv2d_hw], in program order. *)
Lemma conv2d_keys_in (out_ch out_h out_w a b d : Z) :
  In (a, (b, d))
     (flat_map (fun oc_tile =>
        flat_map (fun p => map (fun oc => (oc_tile + oc, (fst p, snd p)))
                               (zrange 0 (Z.min PARALLEL_OUT_CH (out_ch - oc_tile))))
                 (list_prod (zrange 0 out_h) (zrange 0 out_w)))
        (map (fun j => 0 + j * PARALLEL_OUT_CH)
             (zrange 0 ((out_ch - 0 + PARALLEL_OUT_CH - 1) / PARALLEL_OUT_CH))))
  <-> 0 <= a < out_ch /\ 0 <= b < out_h /\ 0 <= d < out_w.
Proof.
  unfold PARALLEL_OUT_CH.
  pose proof (Z.div_mod (out_ch - 0 + 8 - 1) 8 ltac:(lia)) as ET.
  pose proof (Z.mod_pos_bound (out_ch - 0 + 8 - 1) 8 ltac:(lia)) as HT.
  rewrite in_flat_map. split.
  - intros (oc_tile & Ht & H). apply in_map_iff in Ht. destruct Ht as (j & <- & Hj).
    apply in_zrange in Hj. apply in_flat_map in H. destruct H as ([x y] & Hp & H).
    apply in_prod_iff in Hp. rewrite !in_zrange in Hp.
    apply in_map_iff in H. destruct H as (oc & E & Hoc). apply in_zrange in Hoc.
    cbn [fst snd] in E. injection E as <- <- <-. lia.
  - intros (Ha & Hb & Hd).
    pose proof (Z.div_mod a 8 ltac:(lia)) as Ea.
    pose proof (Z.mod_pos_bound a 8 ltac:(lia)) as Hm.
    exists (0 + a / 8 * 8). split.
    + apply in_map_iff. exists (a / 8). split; [reflexivity|]. apply in_zrange.
      split; [apply Z.div_pos; lia|]. lia.
    + apply in_flat_map. exists (b, d). split.
      * apply in_prod_iff. rewrite !in_zrange. lia.
      * apply in_map_iff. exists (a mod 8). cbn [fst snd]. split.
        -- f_equal. lia.
        -- apply in_zrange. lia.
Qed.

(** LOAD_WEIGHTS of [conv2d_hw] for one input-channel tile: the entries
    [kh, kw < kernel] of every staged kernel are loaded, every other entry
    of [weight_buf] keeps its content. *)
Lemma conv2d_load_weights_spec (weights : mem) (in_ch kernel oc_tile oc_n : Z)
    (st : conv_state) :
  in_ch <= PARALLEL_IN_CH -> kernel <= 3 ->
  let st' := conv2d_load_weights weights in_ch kernel oc_tile 0 oc_n in_ch st in
  (forall oc ic kh kw,
     0 <= oc < oc_n -> 0 <= ic < in_ch -> 0 <= kh < kernel -> 0 <= kw < kernel ->
     weight_buf st' (weight_buf_idx oc ic kh kw)
     = weights ((oc_tile + oc) * in_ch * kernel * kernel + ic * kernel * kernel
                + kh * kernel + kw)) /\
  (forall j,
     (forall oc ic kh kw,
        0 <= oc < oc_n -> 0 <= ic < in_ch -> 0 <= kh < kernel -> 0 <= kw < kernel ->
        weight_buf_idx oc ic kh kw <> j) ->
     weight_buf st' j = weight_buf st j) /\
  conv_output st' = conv_output st.
Proof.
  intros Hin Hk. cbv zeta. unfold conv2d_load_weights. cbv zeta. rewrite for_loop_nest4.
  set (keys := list_prod _ _).
  set (wi := fun p : Z * (Z * (Z * Z)) =>
               weight_buf_idx (fst p) (fst (snd p)) (fst (snd (snd p)))
                              (snd (snd (snd p)))).
  set (vi := fun p : Z * (Z * (Z * Z)) =>
               weights ((oc_tile + fst p) * in_ch * kernel * kernel
                        + (0 + fst (snd p)) * kernel * kernel
                        + fst (snd (snd p)) * kernel + snd (snd (snd p)))).
  assert (E : forall l s,
            let s' := fold_left (fun s p => mkConv (upd (weight_buf s) (wi p) (vi p))
                                                   (acc_buf s) (conv_output s)) l s in
            weight_buf s' = write_loop wi (fun p _ => vi p) l (weight_buf s) /\
            conv_output s' = conv_output s).
  { induction l as [|p l IH]; intros s; [split; reflexivity|].
    cbn [fold_left]. destruct (IH (mkConv (upd (weight_buf s) (wi p) (vi p))
                                          (acc_buf s) (conv_output s))) as [E1 E2].
    split; [exact E1 | exact E2]. }
  destruct (E keys st) as [Ew Eo].
  set (st' := fold_left _ keys st) in *.
  assert (Hkeys : forall a b d e, In (a, (b, (d, e))) keys <->
            0 <= a < oc_n /\ 0 <= b < in_ch /\ 0 <= d < kernel /\ 0 <= e < kernel).
  { intros a b d e. subst keys. rewrite !in_prod_iff, !in_zrange. tauto. }
  split; [|split; [|exact Eo]].
  - intros oc ic kh kw Hoc Hic Hkh Hkw. rewrite Ew.
    change (weight_buf_idx oc ic kh kw) with (wi (oc, (ic, (kh, kw)))).
    rewrite (write_loop_const wi vi keys).
    + unfold vi. cbn [fst snd]. reflexivity.
    + intros [a [b [d e]]] [a' [b' [d' e']]] Hp Hp' Hw.
      apply Hkeys in Hp. apply Hkeys in Hp'.
      unfold wi, weight_buf_idx, PARALLEL_IN_CH in Hw. cbn [fst snd] in Hw.
      unfold PARALLEL_IN_CH in Hin.
      assert (a = a' /\ b = b' /\ d = d' /\ e = e') by lia.
      unfold vi. cbn [fst snd]. f_equal. lia.
    + apply Hkeys. auto.
  - intros j Hj. rewrite Ew. apply write_loop_frame.
    intros [a [b [d e]]] Hp. apply Hkeys in Hp. unfold wi. cbn [fst snd].
    apply Hj; tauto.
Qed.

Lemma conv2d_load_weights_output (weights : mem)
    (in_ch kernel oc_tile ic_tile oc_n ic_n : Z) (st : conv_state) :
  conv_output (conv2d_load_weights weights in_ch kernel oc_tile ic_tile oc_n ic_n st)
  = conv_output st.
Proof.
  unfold conv2d_load_weights. cbv zeta.
  apply (for_loop_invariant (fun s => conv_output s = conv_output st)); [|reflexivity].
  intros oc s1 _ H1.
  apply (for_loop_invariant (fun s => conv_output s = conv_output st)); [|exact H1].
  intros ic s2 _ H2.
  apply (for_loop_invariant (fun s => conv_output s = conv_output st)); [|exact H2].
  intros kh s3 _ H3.
  apply (for_loop_invariant (fun s => conv_output s = conv_output st)); [|exact H3].
  intros kw s4 _ H4. exact H4.
Qed.

Section Conv2dOneInputTile.

Variables uninit input weights : mem.
Variables in_ch in_h in_w out_ch kernel stride pad : Z.

Hypothesis Hin_ch : 0 < in_ch <= PARALLEL_IN_CH.

Let out_h := Z.quot (in_h + 2 * pad - kernel) stride + 1.
Let out_w := Z.quot (in_w + 2 * pad - kernel) stride + 1.

(** What [weight_buf] must hold before and after the weights of an
    output-channel tile are loaded, and the per-channel result it gives. *)
Variable ready : mem -> Prop.
Variable loaded : Z -> Z -> mem -> Prop.
Variable partial : Z -> Z -> Z -> Z -> Z.

Hypothesis Hload : forall oc_tile oc_n st,
  oc_n <= PARALLEL_OUT_CH -> ready (weight_buf st) ->
  loaded oc_tile oc_n
         (weight_buf (conv2d_load_weights weights in_ch kernel oc_tile 0 oc_n in_ch st)).

Hypothesis Hready : forall oc_tile oc_n wb, loaded oc_tile oc_n wb -> ready wb.

Hypothesis Hpartial : forall oc_tile oc_n wb oc ic oh ow,
  loaded oc_tile oc_n wb -> 0 <= oc < oc_n -> 0 <= ic < in_ch ->
  conv_3x3_kernel
    (conv2d_load_window uninit input in_h in_w kernel stride pad (0 + ic) oh ow)
    (fun j => wb (weight_buf_idx oc ic 0 0 + j))
  = partial (oc_tile + oc) ic oh ow.

(** The index and the value of the store for output element
    [(oc, (oh, ow))]. *)
Let wk (k : Z * (Z * Z)) : Z := idx3 out_h out_w (fst k) (fst (snd k)) (snd (snd k)).
Let vk (k : Z * (Z * Z)) : Z :=
  Fixed.narrow
    (for_loop 0 in_ch (fun ic acc =>
       Fixed.acc_add acc (partial (fst k) ic (fst (snd k)) (snd (snd k)))) 0).

Lemma conv2d_pixel_spec (oc_tile oc_n oh ow : Z) (st : conv_state) :
  oc_n <= PARALLEL_OUT_CH -> loaded oc_tile oc_n (weight_buf st) ->
  let st' := conv2d_pixel uninit input in_ch in_h in_w kernel stride pad out_h out_w
                          oc_tile 0 oc_n in_ch oh ow st in
  loaded oc_tile oc_n (weight_buf st') /\
  forall j, conv_output st' j
            = write_loop wk (fun k _ => vk k)
                (map (fun oc => (oc_tile + oc, (oh, ow))) (zrange 0 oc_n))
                (conv_output st) j.
Proof.
  intros Hocn Hld. cbv zeta. unfold conv2d_pixel. cbv zeta.
  change (0 =? 0) with true. cbv iota.
  rewrite Z.geb_leb. destruct (Z.leb_spec in_ch (0 + PARALLEL_IN_CH)) as [_ | Hbad];
    [|unfold PARALLEL_IN_CH in *; lia].
  set (st1 := for_loop 0 PARALLEL_OUT_CH _ st).
  destruct (acc_loop PARALLEL_OUT_CH (fun _ _ _ => 0) st) as (W1 & O1 & A1).
  fold st1 in W1, O1, A1.
  set (sum := fun k oc =>
         for_loop 0 k (fun ic acc =>
           Fixed.acc_add acc (partial (oc_tile + oc) ic oh ow)) 0).
  set (st2 := for_loop 0 in_ch _ st1).
  assert (H2 : weight_buf st2 = weight_buf st /\ conv_output st2 = conv_output st /\
               forall oc, 0 <= oc < oc_n -> acc_buf st2 oc = sum in_ch oc).
  { subst st2.
    apply (for_loop_ind
             (fun k s => weight_buf s = weight_buf st /\ conv_output s = conv_output st /\
                forall oc, 0 <= oc < oc_n -> acc_buf s oc = sum k oc) in_ch);
      [| |lia].
    - split; [exact W1|]. split; [exact O1|]. intros oc Hoc. rewrite A1.
      destruct (Z.leb_spec 0 oc); destruct (Z.ltb_spec oc PARALLEL_OUT_CH);
        cbn [andb]; try lia. reflexivity.
    - intros k s Hk (Hw & Ho & Ha).
      destruct (acc_loop oc_n
                  (fun oc wb a =>
                     Fixed.acc_add a
                       (conv_3x3_kernel
                          (conv2d_load_window uninit input in_h in_w kernel stride pad
                                              (0 + k) oh ow)
                          (fun j => wb (weight_buf_idx oc k 0 0 + j)))) s)
        as (W & O & A).
      split; [rewrite <- Hw; exact W|]. split; [rewrite <- Ho; exact O|].
      intros oc Hoc. refine (eq_trans (A oc) _).
      destruct (Z.leb_spec 0 oc); destruct (Z.ltb_spec oc oc_n); cbn [andb]; try lia.
      rewrite Ha by assumption. unfold sum. rewrite for_loop_snoc by lia.
      f_equal. rewrite Hw. apply (Hpartial oc_tile oc_n); assumption. }
  destruct H2 as (W2 & O2 & A2).
  destruct (out_loop oc_n (fun oc => (oc_tile + oc) * out_h * out_w + oh * out_w + ow) st2)
    as (W3 & O3).
  split.
  - refine (eq_ind_r (loaded oc_tile oc_n) _ W3). rewrite W2. exact Hld.
  - intros j. refine (eq_trans (f_equal (fun m => m j) O3) _). rewrite O2.
    rewrite (write_loop_map_ext wk vk (fun oc => (oc_tile + oc, (oh, ow)))); [reflexivity|].
    intros oc Hoc. apply in_zrange in Hoc. split; [reflexivity|].
    rewrite A2 by assumption. reflexivity.
Qed.

(** One output-channel tile. *)
Lemma conv2d_tile_spec (oc_tile oc_n : Z) (st : conv_state) :
  oc_n <= PARALLEL_OUT_CH -> ready (weight_buf st) ->
  let st' :=
    for_step 0 in_ch PARALLEL_IN_CH (fun ic_tile st =>
      let ic_n := Z.min PARALLEL_IN_CH (in_ch - ic_tile) in
      let st := conv2d_load_weights weights in_ch kernel oc_tile ic_tile oc_n ic_n st in
      for_loop 0 out_h (fun oh st =>
        for_loop 0 out_w (fun ow st =>
          conv2d_pixel uninit input in_ch in_h in_w kernel stride pad out_h out_w
                       oc_tile ic_tile oc_n ic_n oh ow st) st) st) st in
  ready (weight_buf st') /\
  forall j, conv_output st' j
            = write_loop wk (fun k _ => vk k)
                (flat_map (fun p => map (fun oc => (oc_tile + oc, (fst p, snd p)))
                                        (zrange 0 oc_n))
                          (list_prod (zrange 0 out_h) (zrange 0 out_w)))
                (conv_output st) j.
Proof.
  intros Hocn Hrdy. cbv zeta. rewrite for_step_single by exact Hin_ch. cbv beta.
  replace (Z.min PARALLEL_IN_CH (in_ch - 0)) with in_ch by lia.
  pose proof (Hload oc_tile oc_n st Hocn Hrdy) as Hld.
  pose proof (conv2d_load_weights_output weights in_ch kernel oc_tile 0 oc_n in_ch st)
    as Ho.
  set (st0 := conv2d_load_weights weights in_ch kernel oc_tile 0 oc_n in_ch st) in *.
  rewrite for_loop_nest2.
  destruct (fold_write_blocks conv_output (fun s => loaded oc_tile oc_n (weight_buf s))
              (fun s p => conv2d_pixel uninit input in_ch in_h in_w kernel stride pad
                            out_h out_w oc_tile 0 oc_n in_ch (fst p) (snd p) s)
              (fun p => map (fun oc => (oc_tile + oc, (fst p, snd p))) (zrange 0 oc_n))
              wk vk (list_prod (zrange 0 out_h) (zrange 0 out_w))) with (s := st0)
    as [Hl H].
  - intros s p _ Hs. apply conv2d_pixel_spec; assumption.
  - exact Hld.
  - split; [exact (Hready oc_tile oc_n _ Hl)|].
    intros j. rewrite H, Ho. reflexivity.
Qed.

(** The whole run: every output element holds its value, nothing else is
    stored. *)
Lemma conv2d_hw_one_input_tile (st : conv_state) :
  ready (weight_buf st) ->
  let r := conv2d_hw uninit input weights in_ch in_h in_w out_ch kernel stride pad st in
  (forall oc oh ow, 0 <= oc < out_ch -> 0 <= oh < out_h -> 0 <= ow < out_w ->
     conv_output r (idx3 out_h out_w oc oh ow) = vk (oc, (oh, ow))) /\
  (forall j, ~ 0 <= j < out_ch * out_h * out_w -> conv_output r j = conv_output st j).
Proof.
  intros Hrdy r. subst r. rewrite conv2d_hw_parts. cbv zeta.
  fold out_h out_w. unfold for_step at 1.
  set (tiles := map _ (zrange 0 _)).
  destruct (fold_write_blocks conv_output (fun s => ready (weight_buf s))
              (fun s oc_tile =>
                 for_step 0 in_ch PARALLEL_IN_CH (fun ic_tile st =>
                   let ic_n := Z.min PARALLEL_IN_CH (in_ch - ic_tile) in
                   let st := conv2d_load_weights weights in_ch kernel oc_tile ic_tile
                               (Z.min PARALLEL_OUT_CH (out_ch - oc_tile)) ic_n st in
                   for_loop 0 out_h (fun oh st =>
                     for_loop 0 out_w (fun ow st =>
                       conv2d_pixel uninit input in_ch in_h in_w kernel stride pad
                         out_h out_w oc_tile ic_tile
                         (Z.min PARALLEL_OUT_CH (out_ch - oc_tile)) ic_n oh ow st) st) st) s)
              (fun oc_tile =>
                 flat_map (fun p => map (fun oc => (oc_tile + oc, (fst p, snd p)))
                                        (zrange 0 (Z.min PARALLEL_OUT_CH (out_ch - oc_tile))))
                          (list_prod (zrange 0 out_h) (zrange 0 out_w)))
              wk vk tiles) with (s := st) as [_ H].
  - intros s oc_tile _ Hs. apply conv2d_tile_spec; [lia | exact Hs].
  - exact Hrdy.
  - split.
    + intros oc oh ow Hoc Hoh How. rewrite H.
      change (idx3 out_h out_w oc oh ow) with (wk (oc, (oh, ow))).
      rewrite (write_loop_const wk vk).
      * reflexivity.
      * intros [a [b d]] [a' [b' d']] Hk Hk' E.
        apply conv2d_keys_in in Hk. apply conv2d_keys_in in Hk'.
        unfold wk in E. cbn [fst snd] in E.
        apply idx3_inj in E; try lia. destruct E as (-> & -> & ->). reflexivity.
      * apply conv2d_keys_in. auto.
    + intros j Hj. rewrite H. apply write_loop_frame.
      intros [a [b d]] Hk E. apply conv2d_keys_in in Hk.
      unfold wk in E. cbn [fst snd] in E.
      pose proof (idx3_bounds out_h out_w out_ch a b d ltac:(lia) ltac:(lia) ltac:(lia)).
      lia.
Qed.

End Conv2dOneInputTile.

(** With at most [PARALLEL_IN_CH] input channels and a 3x3 kernel,
    [conv2d_hw] stores at every output element the narrowed sum of the
    per-channel 3x3 results of its zero-padded window, for any number of
    output channels, any stride and padding and whatever its static
    buffers and the uninitialized window held; it stores nothing outside
    the output tensor. *)
Lemma conv2d_hw_single_tile_stores (uninit input weights : mem)
    (in_ch in_h in_w out_ch stride pad : Z) (st : conv_state) :
  0 < in_ch <= PARALLEL_IN_CH ->
  let out_h := Z.quot (in_h + 2 * pad - 3) stride + 1 in
  let out_w := Z.quot (in_w + 2 * pad - 3) stride + 1 in
  let r := conv2d_hw uninit input weights in_ch in_h in_w out_ch 3 stride pad st in
  (forall oc oh ow, 0 <= oc < out_ch -> 0 <= oh < out_h -> 0 <= ow < out_w ->
     conv_output r (idx3 out_h out_w oc oh ow)
     = conv2d_element input weights in_ch in_h in_w stride pad oc oh ow) /\
  (forall j, ~ 0 <= j < out_ch * out_h * out_w -> conv_output r j = conv_output st j).
Proof.
  intros Hin.
  apply (conv2d_hw_one_input_tile uninit input weights in_ch in_h in_w out_ch 3 stride pad
           Hin (fun _ => True)
           (fun oc_tile oc_n wb =>
              forall oc ic j, 0 <= oc < oc_n -> 0 <= ic < in_ch -> 0 <= j < 9 ->
                wb (weight_buf_idx oc ic 0 0 + j)
                = conv_kernel_at weights in_ch (oc_tile + oc) ic j)
           (fun oc ic oh ow =>
              conv_3x3_kernel (conv_window input in_h in_w stride pad ic oh ow)
                              (conv_kernel_at weights in_ch oc ic))).
  - intros oc_tile oc_n s Hocn _ oc ic j Hoc Hic Hj.
    destruct (conv2d_load_weights_spec weights in_ch 3 oc_tile oc_n s)
      as (Hw & _); [lia | lia |].
    pose proof (Z.div_mod j 3 ltac:(lia)) as Ej.
    pose proof (Z.mod_pos_bound j 3 ltac:(lia)) as Hm.
    assert (Hd : 0 <= j / 3 < 3).
    { split; [apply Z.div_pos; lia | apply Z.div_lt_upper_bound; lia]. }
    replace (weight_buf_idx oc ic 0 0 + j) with (weight_buf_idx oc ic (j / 3) (j mod 3))
      by (unfold weight_buf_idx; lia).
    rewrite Hw by lia. unfold conv_kernel_at. f_equal. lia.
  - intros; exact I.
  - intros oc_tile oc_n wb oc ic oh ow Hld Hoc Hic.
    apply conv_3x3_kernel_ext.
    + intros j Hj. apply conv2d_load_window_spec. assumption.
    + intros j Hj. apply Hld; assumption.
  - exact I.
Qed.








(** The same 1x1 layer after a 3x3 layer has filled [weight_buf]: the
    stale weights multiply the uninitialized window entries, and the
    result depends on both. *)
Example conv2d_hw_1x1_stale_weights :
  let input := mem_of_list [256; 512; 768; 1024] in
  let fresh := mkConv (const_mem 0) (const_mem 0) (const_mem 0) in
  let stale := conv2d_hw (const_mem 0) input (const_mem 256) 1 2 2 1 3 1 1 fresh in
  conv_output (conv2d_hw (const_mem 256) input (mem_of_list [256]) 1 2 2 1 1 1 0 fresh) 0
  = 256 /\
  conv_output (conv2d_hw (const_mem 0) input (mem_of_list [256]) 1 2 2 1 1 1 0 stale) 0
  = 256 /\
  conv_output (conv2d_hw (const_mem 256) input (mem_of_list [256]) 1 2 2 1 1 1 0 stale) 0
  = 2304.
Proof. cbv zeta. repeat split; vm_compute; reflexivity. Qed.



(* ================================================================== *)
(** * The standalone convolution against the tiled engine *)

Lemma abs_sum_nonneg (n : Z) (a : mem) : 0 <= abs_sum n a.
Proof.
  unfold abs_sum. apply (for_loop_invariant (fun s => 0 <= s)); [|lia].
  intros i s _ Hs. lia.
Qed.

Lemma dot_bound (n : Z) (a b : mem) :
  0 <= n -> (forall k, 0 <= k < n -> Fixed.is_data (a k)) ->
  Z.abs (dot n a b) <= 32768 * abs_sum n b.
Proof.
  intros Hn Ha.
  assert (H : forall k, 0 <= k -> k <= n -> Z.abs (dot k a b) <= 32768 * abs_sum k b).
  { intros k Hk. pattern k. apply natlike_ind; [| |assumption].
    - intros _. unfold dot, abs_sum. rewrite !for_loop_empty by lia. simpl. lia.
    - intros x Hx IH Hxn. unfold Z.succ. rewrite abs_sum_snoc by lia.
      unfold dot in *. rewrite for_loop_snoc by lia.
      specialize (Ha x ltac:(lia)). unfold Fixed.is_data in Ha.
      change Fixed.DATA_MIN with (-32768) in Ha. change Fixed.DATA_MAX with 32767 in Ha.
      assert (Hp : Z.abs (a x * b x) <= 32768 * Z.abs (b x)).
      { rewrite Z.abs_mul. apply Z.mul_le_mono_nonneg_r; lia. }
      specialize (IH ltac:(lia)). lia. }
  apply H; lia.
Qed.

(** A chain of the engine's multiply-accumulate steps from [s] adds the
    exact dot product when nothing can saturate. *)
Lemma mac_chain_from (n : Z) (a b : mem) (s : Z) :
  0 <= n -> (forall k, 0 <= k < n -> Fixed.is_data (a k)) ->
  Z.abs s + 32768 * abs_sum n b <= 2147483647 ->
  for_loop 0 n (fun k sum => Fixed.mac sum (a k) (b k)) s = s + dot n a b.
Proof.
  intros Hn Ha Hb.
  assert (H : forall k, 0 <= k -> k <= n ->
            for_loop 0 k (fun k sum => Fixed.mac sum (a k) (b k)) s = s + dot k a b).
  { intros k Hk. pattern k. apply natlike_ind; [| |assumption].
    - intros _. unfold dot. rewrite !for_loop_empty by lia. lia.
    - intros x Hx IH Hxn. unfold Z.succ.
      pose proof (abs_sum_mono b (x + 1) n ltac:(lia)) as Hm.
      pose proof (dot_bound (x + 1) a b ltac:(lia)
                    ltac:(intros k' Hk'; apply Ha; lia)) as Hd.
      rewrite for_loop_snoc, IH by lia.
      assert (Ed : dot (x + 1) a b = dot x a b + a x * b x).
      { unfold dot. rewrite for_loop_snoc by lia. reflexivity. }
      rewrite Ed in *. unfold Fixed.mac.
      destruct (sat_cases Fixed.ACC_W (s + dot x a b + a x * b x)) as (_ & _ & E).
      change (2 ^ (Fixed.ACC_W - 1)) with 2147483648 in E.
      rewrite E by lia. ring. }
  apply H; lia.
Qed.

Lemma conv_window_is_data (input : mem) (in_h in_w stride pad ic oh ow j : Z) :
  (forall i, Fixed.is_data (input i)) ->
  Fixed.is_data (conv_window input in_h in_w stride pad ic oh ow j).
Proof.
  intros H. unfold conv_window. cbv zeta.
  destruct (_ && _); [apply H|]. vm_compute. split; discriminate.
Qed.

Section ConvExact.

Variables input weights : mem.
Variables in_ch in_h in_w stride pad oc oh ow : Z.

Hypothesis Hin_ch : 0 <= in_ch.
Hypothesis Hdata : forall i, Fixed.is_data (input i).
Hypothesis Hweights : kernel_abs_sum weights in_ch oc <= 65535.

Let win (ic : Z) : mem := conv_window input in_h in_w stride pad ic oh ow.
Let ker (ic : Z) : mem := conv_kernel_at weights in_ch oc ic.

Let exact_upto (k : Z) : Z := for_loop 0 k (fun ic s => s + dot 9 (win ic) (ker ic)) 0.
Let abs_upto (k : Z) : Z := for_loop 0 k (fun ic s => s + abs_sum 9 (ker ic)) 0.

Lemma abs_upto_bounds (k : Z) :
  0 <= k < in_ch -> 0 <= abs_upto k /\ abs_upto (k + 1) <= 65535 /\
                    abs_upto (k + 1) = abs_upto k + abs_sum 9 (ker k).
Proof.
  intros Hk.
  assert (Hnn : forall j, 0 <= abs_upto j).
  { intros j. unfold abs_upto. apply (for_loop_invariant (fun s => 0 <= s)); [|lia].
    intros i s _ Hs. pose proof (abs_sum_nonneg 9 (ker i)). lia. }
  assert (Hmono : forall d, 0 <= d -> forall j, 0 <= j -> abs_upto j <= abs_upto (j + d)).
  { intros d Hd. pattern d. apply natlike_ind; [| |assumption].
    - intros j _. rewrite Z.add_0_r. lia.
    - intros x Hx IH j Hj. unfold Z.succ. rewrite Z.add_assoc.
      unfold abs_upto at 2. rewrite for_loop_snoc by lia. fold (abs_upto (j + x)).
      pose proof (abs_sum_nonneg 9 (ker (j + x))). specialize (IH j Hj). lia. }
  split; [apply Hnn|]. split.
  - pose proof (Hmono (in_ch - (k + 1)) ltac:(lia) (k + 1) ltac:(lia)) as H.
    replace (k + 1 + (in_ch - (k + 1))) with in_ch in H by lia.
    assert (Hw' : abs_upto in_ch <= 65535) by exact Hweights.
    lia.
  - unfold abs_upto. rewrite for_loop_snoc by lia. reflexivity.
Qed.

Lemma exact_upto_bound (k : Z) :
  0 <= k <= in_ch -> Z.abs (exact_upto k) <= 32768 * abs_upto k.
Proof.
  intros [Hk Hkn]. revert Hkn. pattern k. apply natlike_ind; [| |assumption].
  - intros _. unfold exact_upto, abs_upto. rewrite !for_loop_empty by lia. simpl. lia.
  - intros x Hx IH Hxn. unfold Z.succ in *.
    destruct (abs_upto_bounds x ltac:(lia)) as (_ & _ & E). rewrite E.
    unfold exact_upto. rewrite for_loop_snoc by lia. fold (exact_upto x).
    pose proof (dot_bound 9 (win x) (ker x) ltac:(lia)
                  ltac:(intros; apply conv_window_is_data; assumption)).
    specialize (IH ltac:(lia)). lia.
Qed.

(** The per-channel sums of [conv2d_hw] do not saturate. *)
Lemma conv2d_element_exact :
  conv2d_element input weights in_ch in_h in_w stride pad oc oh ow
  = Fixed.narrow (conv_exact input weights in_ch in_h in_w stride pad oc oh ow).
Proof.
  unfold conv2d_element, conv_exact. f_equal. fold win ker.
  change (for_loop 0 in_ch (fun ic s => s + dot 9 (win ic) (ker ic)) 0)
    with (exact_upto in_ch).
  assert (H : forall k, 0 <= k -> k <= in_ch ->
            for_loop 0 k (fun ic acc =>
              Fixed.acc_add acc (conv_3x3_kernel (win ic) (ker ic))) 0 = exact_upto k).
  { intros k Hk. pattern k. apply natlike_ind; [| |assumption].
    - intros _. unfold exact_upto. rewrite !for_loop_empty by lia. reflexivity.
    - intros x Hx IH Hxn. unfold Z.succ in *.
      destruct (abs_upto_bounds x ltac:(lia)) as (Hnn & Hle & E).
      pose proof (abs_sum_nonneg 9 (ker x)) as Hk9.
      pose proof (exact_upto_bound (x + 1) ltac:(lia)) as Hb.
      rewrite for_loop_snoc, IH by lia.
      rewrite conv_3x3_kernel_flat, mac_chain_exact;
        [|lia|intros; apply conv_window_is_data; assumption|lia].
      assert (Ed : exact_upto (x + 1) = exact_upto x + dot 9 (win x) (ker x)).
      { unfold exact_upto. rewrite for_loop_snoc by lia. reflexivity. }
      rewrite Ed in *. unfold Fixed.acc_add.
      destruct (sat_cases Fixed.ACC_W (exact_upto x + dot 9 (win x) (ker x)))
        as (_ & _ & Es).
      change (2 ^ (Fixed.ACC_W - 1)) with 2147483648 in Es. apply Es. lia. }
  apply H; lia.
Qed.

(** The engine's single accumulator does not saturate either. *)
Lemma mac_loop_exact :
  for_loop 0 in_ch (fun ic sum =>
    for_loop 0 9 (fun j sum => Fixed.mac sum (win ic j) (ker ic j)) sum) 0
  = conv_exact input weights in_ch in_h in_w stride pad oc oh ow /\
  Z.abs (conv_exact input weights in_ch in_h in_w stride pad oc oh ow) <= 32768 * 65535.
Proof.
  change (conv_exact input weights in_ch in_h in_w stride pad oc oh ow)
    with (exact_upto in_ch).
  assert (H : forall k, 0 <= k -> k <= in_ch ->
            for_loop 0 k (fun ic sum =>
              for_loop 0 9 (fun j sum => Fixed.mac sum (win ic j) (ker ic j)) sum) 0
            = exact_upto k /\ Z.abs (exact_upto k) <= 32768 * 65535).
  { intros k Hk. pattern k. apply natlike_ind; [| |assumption].
    - intros _. unfold exact_upto. rewrite !for_loop_empty by lia. split; [reflexivity|].
      simpl. lia.
    - intros x Hx IH Hxn. unfold Z.succ in *.
      destruct (abs_upto_bounds x ltac:(lia)) as (Hnn & Hle & E).
      pose proof (abs_sum_nonneg 9 (ker x)) as Hk9.
      pose proof (exact_upto_bound x ltac:(lia)) as Hb.
      pose proof (exact_upto_bound (x + 1) ltac:(lia)) as Hb'.
      destruct (IH ltac:(lia)) as [IH1 _].
      split; [|lia].
      rewrite for_loop_snoc, IH1 by lia.
      rewrite mac_chain_from;
        [|lia|intros; apply conv_window_is_data; assumption|lia].
      unfold exact_upto. rewrite for_loop_snoc by lia. reflexivity. }
  apply H; lia.
Qed.

End ConvExact.

Lemma nested_3x3_flat {S} (f : Z -> S -> S) (s : S) :
  for_loop 0 3 (fun kh s => for_loop 0 3 (fun kw s => f (kh * 3 + kw) s) s) s
  = for_loop 0 9 f s.
Proof. vm_compute. reflexivity. Qed.

(** The accumulator of the direct convolution of a 3x3 layer is the exact
    convolution sum when the absolute weights of the output channel sum to
    less than 256.0. *)
Lemma direct_conv_exact (c : LayerConfig) (input_fm weights : mem) (oc oh ow : Z) :
  kernel_size c = 3 -> 0 <= in_channels c ->
  (forall i, Fixed.is_data (input_fm i)) ->
  kernel_abs_sum weights (in_channels c) oc <= 65535 ->
  direct_conv c input_fm weights oc oh ow
  = conv_exact input_fm weights (in_channels c) (in_height c) (in_width c)
               (stride c) (padding c) oc oh ow /\
  Z.abs (conv_exact input_fm weights (in_channels c) (in_height c) (in_width c)
                    (stride c) (padding c) oc oh ow) <= 32768 * 65535.
Proof.
  intros Hk Hn Hd Hw.
  destruct (mac_loop_exact input_fm weights (in_channels c) (in_height c) (in_width c)
              (stride c) (padding c) oc oh ow Hn Hd Hw) as [E B].
  split; [|exact B]. rewrite <- E. unfold direct_conv, conv_mac. rewrite Hk.
  apply for_loop_ext. intros ic s _.
  rewrite <- (nested_3x3_flat
                (fun j sum =>
                   Fixed.mac sum
                     (conv_window input_fm (in_height c) (in_width c) (stride c)
                                  (padding c) ic oh ow j)
                     (conv_kernel_at weights (in_channels c) oc ic j))).
  apply for_loop_ext. intros kh s1 Hkh. apply for_loop_ext. intros kw s2 Hkw.
  assert (Eq : (kh * 3 + kw) / 3 = kh)
    by (symmetry; apply Z.div_unique with (r := kw); lia).
  assert (Er : (kh * 3 + kw) mod 3 = kw)
    by (symmetry; apply Z.mod_unique with (q := kh); lia).
  f_equal.
  - unfold padded_input, conv_window. cbv zeta. rewrite Eq, Er. reflexivity.
  - unfold weight_at, conv_kernel_at. rewrite Hk. f_equal. ring.
Qed.

(** X17. On a conv-only layer with a 3x3 kernel and at most
    [PARALLEL_IN_CH] input channels, the standalone [conv2d_hw] and the
    tiled engine [cnn_accelerator_top] store the same value at every
    output element whose output channel has absolute weights summing to
    less than 256.0: the exact convolution sum of the narrow inputs,
    rounded and saturated once. *)
Theorem conv2d_hw_agrees_with_engine (t : tiling) (c : LayerConfig)
    (input_fm weights bn_scale bn_shift : mem) (st : engine)
    (uninit : mem) (cst : conv_state) (oc oh ow : Z) :
  valid_layer c -> resource_compatible t c ->
  layer_type c = 2 -> kernel_size c = 3 -> in_channels c <= PARALLEL_IN_CH ->
  (forall i, Fixed.is_data (input_fm i)) ->
  kernel_abs_sum weights (in_channels c) oc <= 65535 ->
  0 <= oc < out_channels c -> 0 <= oh < out_height c -> 0 <= ow < out_width c ->
  let idx := idx3 (out_height c) (out_width c) oc oh ow in
  let exact := conv_exact input_fm weights (in_channels c) (in_height c) (in_width c)
                          (stride c) (padding c) oc oh ow in
  conv_output (conv2d_hw uninit input_fm weights (in_channels c) (in_height c)
                         (in_width c) (out_channels c) 3 (stride c) (padding c) cst) idx
  = Fixed.narrow exact /\
  output_fm (cnn_accelerator_top t c input_fm weights bn_scale bn_shift st) idx
  = Fixed.narrow exact.
Proof.
  intros Hv Ht Hlt Hk Hic Hd Hw Hoc Hoh How idx exact. subst idx exact.
  pose proof Hv as (_ & Hic0 & _ & _ & _ & _ & Hs & _ & Hoh' & How').
  pose proof Ht as (Hth & Htw & Htc & _).
  split.
  - destruct (conv2d_hw_single_tile_stores uninit input_fm weights (in_channels c) (in_height c)
                (in_width c) (out_channels c) (stride c) (padding c) cst
                ltac:(lia)) as [Hval _].
    unfold out_height, out_width, out_dim in *. rewrite Hk in *.
    rewrite Hval by assumption.
    apply conv2d_element_exact; [lia | assumption | assumption].
  - rewrite top_output_fm. rewrite Hlt. change (2 =? 1) with false. cbv iota.
    destruct (tile_loops_spec t c input_fm weights bn_scale bn_shift
                (conj Hth (conj Htw Htc)) ltac:(lia) ltac:(lia) (set_status 1 st))
      as (Hval & _).
    rewrite Hval by assumption.
    destruct (direct_conv_exact c input_fm weights oc oh ow Hk ltac:(lia) Hd Hw)
      as [E B].
    unfold direct_layer, finalize, bn_scale_val, bn_shift_val. cbv zeta.
    rewrite Hlt. change (negb (2 =? 2)) with false. cbv iota.
    rewrite E. rewrite scale_shift_identity; [reflexivity|].
    unfold is_acc. change (2 ^ (Fixed.ACC_W - 1)) with 2147483648. lia.
Qed.

Lemma conv2d_hw_agrees_with_engine_witness :
  let c := mkLayer 2 2 9 3 3 3 1 1 in
  let input_fm := mem_of_list [256; 512; -256; 128; 64; 32; 16; 8; 0; 1; 2; 3;
                               300; -300; 40; -40; 5; -5] in
  let weights := fun i => (i * 37) mod 257 - 128 in
  conv_output (conv2d_hw (const_mem 4242) input_fm weights 2 3 3 9 3 1 1
                         (mkConv (const_mem 999) (const_mem (-12345)) (const_mem 77)))
              (idx3 3 3 8 2 1)
  = output_fm (cnn_accelerator_top (mkTiling 2 2 1) c input_fm weights
                                   (const_mem 0) (const_mem 0) engine_reset)
              (idx3 3 3 8 2 1).
Proof.
  cbv zeta.
  destruct (conv2d_hw_agrees_with_engine (mkTiling 2 2 1) (mkLayer 2 2 9 3 3 3 1 1)
              (mem_of_list [256; 512; -256; 128; 64; 32; 16; 8; 0; 1; 2; 3;
                            300; -300; 40; -40; 5; -5])
              (fun i => (i * 37) mod 257 - 128) (const_mem 0) (const_mem 0) engine_reset
              (const_mem 4242)
              (mkConv (const_mem 999) (const_mem (-12345)) (const_mem 77)) 8 2 1)
    as [H1 H2].
  - unfold valid_layer; cbn; repeat split; discriminate.
  - unfold resource_compatible; cbn; repeat split; discriminate.
  - reflexivity.
  - reflexivity.
  - vm_compute. discriminate.
  - intros i. apply mem_of_list_is_data. repeat constructor; vm_compute; discriminate.
  - vm_compute. discriminate.
  - vm_compute. split; discriminate || reflexivity.
  - vm_compute. split; discriminate || reflexivity.
  - vm_compute. split; discriminate || reflexivity.
  - cbv zeta in H1, H2. change (out_height (mkLayer 2 2 9 3 3 3 1 1)) with 3 in H1, H2.
    change (out_width (mkLayer 2 2 9 3 3 3 1 1)) with 3 in H1, H2.
    cbn [in_channels in_height in_width out_channels stride padding] in H1, H2.
    rewrite H1, H2. reflexivity.
Defined.

(* ================================================================== *)
(** * The on-chip buffers of the tiled engine *)

(** LOAD_INPUT stores at the indices below the number of staged elements. *)
Lemma LOAD_INPUT_frame (c : LayerConfig) (input_fm : mem)
    (ic_start ic_end ih_start ih_end iw_start iw_end : Z) (tile : mem) (j : Z) :
  ic_start <= ic_end -> ih_start <= ih_end -> iw_start <= iw_end ->
  ~ 0 <= j < (ic_end - ic_start) * (ih_end - ih_start) * (iw_end - iw_start) ->
  LOAD_INPUT c input_fm ic_start ic_end ih_start ih_end iw_start iw_end tile j = tile j.
Proof.
  intros Hc Hh Hw Hj. unfold LOAD_INPUT. rewrite for_loop_nest3.
  rewrite fold_left_ext_in
    with (g := fun (s : mem * Z) p =>
                 (upd (fst s) (snd s)
                      (padded_input c input_fm (fst p) (fst (snd p)) (snd (snd p))),
                  snd s + 1)).
  2:{ intros [a [b d]] [m n] _. cbn [fst snd]. unfold padded_input.
      destruct ((0 <=? b) && (b <? in_height c) && (0 <=? d) && (d <? in_width c));
        reflexivity. }
  pose proof (fill_fold
                (fun p => padded_input c input_fm (fst p) (fst (snd p)) (snd (snd p)))
                (list_prod (zrange ic_start ic_end)
                           (list_prod (zrange ih_start ih_end) (zrange iw_start iw_end)))
                tile 0) as (_ & _ & Hframe).
  apply Hframe. rewrite !length_prod, !length_zrange.
  rewrite !Nat2Z.inj_mul, !Z2Nat.id by lia. lia.
Qed.

Lemma LOAD_WEIGHTS_frame (c : LayerConfig) (weights : mem)
    (oc_start oc_end ic_start ic_end : Z) (wt : mem) (j : Z) :
  0 <= kernel_size c ->
  ~ 0 <= j < (oc_end - oc_start) * (ic_end - ic_start) * kernel_size c * kernel_size c ->
  LOAD_WEIGHTS c weights oc_start oc_end ic_start ic_end wt j = wt j.
Proof.
  intros Hk Hj. unfold LOAD_WEIGHTS. cbv zeta. rewrite for_loop_nest4.
  set (keys := list_prod _ _).
  set (w := fun p : Z * (Z * (Z * Z)) =>
              (fst p - oc_start) * (ic_end - ic_start) * kernel_size c * kernel_size c
              + (fst (snd p) - ic_start) * kernel_size c * kernel_size c
              + fst (snd (snd p)) * kernel_size c + snd (snd (snd p))).
  set (v := fun p : Z * (Z * (Z * Z)) =>
              weights (fst p * in_channels c * kernel_size c * kernel_size c
                       + fst (snd p) * kernel_size c * kernel_size c
                       + fst (snd (snd p)) * kernel_size c + snd (snd (snd p)))).
  change (write_loop w (fun p _ => v p) keys wt j = wt j).
  apply write_loop_frame. intros [a [b [d e]]] Hp E. apply Hj. subst j.
  subst keys. rewrite !in_prod_iff, !in_zrange in Hp. unfold w. cbn [fst snd].
  destruct Hp as (Ha & Hb & Hd & He).
  replace ((a - oc_start) * (ic_end - ic_start) * kernel_size c * kernel_size c
           + (b - ic_start) * kernel_size c * kernel_size c + d * kernel_size c + e)
    with ((((a - oc_start) * (ic_end - ic_start) + (b - ic_start))
           * kernel_size c + d) * kernel_size c + e) by ring.
  set (occ := oc_end - oc_start) in *. set (icc := ic_end - ic_start) in *.
  set (k := kernel_size c) in *.
  set (x := a - oc_start) in *. set (y := b - ic_start) in *.
  assert (H1 : 0 <= x * icc + y < occ * icc).
  { split; [apply Z.add_nonneg_nonneg; [apply Z.mul_nonneg_nonneg|]; lia|].
    pose proof (radix_lt icc x 0 occ y). lia. }
  assert (H2 : 0 <= (x * icc + y) * k + d < occ * icc * k).
  { split; [apply Z.add_nonneg_nonneg; [apply Z.mul_nonneg_nonneg|]; lia|].
    pose proof (radix_lt k (x * icc + y) 0 (occ * icc) d). lia. }
  split; [apply Z.add_nonneg_nonneg; [apply Z.mul_nonneg_nonneg|]; lia|].
  pose proof (radix_lt k ((x * icc + y) * k + d) 0 (occ * icc * k) e). lia.
Qed.

Lemma COMPUTE_TILE_frame (c : LayerConfig) (it wt : mem)
    (oc_count th tw ic_count tile_ih tile_iw : Z) (acc : mem) (j : Z) :
  ~ 0 <= j < oc_count * th * tw ->
  COMPUTE_TILE c it wt oc_count th tw ic_count tile_ih tile_iw acc j = acc j.
Proof.
  intros Hj. unfold COMPUTE_TILE. cbv zeta. rewrite for_loop_nest3.
  apply (write_loop_frame
           (fun p : Z * (Z * Z) => idx3 th tw (fst p) (fst (snd p)) (snd (snd p)))
           (fun p m => tile_mac c it wt ic_count tile_ih tile_iw
                         (fst p) (fst (snd p)) (snd (snd p))
                         (m (idx3 th tw (fst p) (fst (snd p)) (snd (snd p)))))).
  intros [a [b d]] Hp E. apply in_keys3 in Hp. cbn [fst snd] in E.
  pose proof (idx3_bounds th tw oc_count a b d ltac:(lia) ltac:(lia) ltac:(lia)). lia.
Qed.

Lemma buffers_within_refl (t : tiling) (st : engine) : buffers_within t st st.
Proof. repeat split. Qed.

Lemma buffers_within_trans (t : tiling) (s1 s2 s3 : engine) :
  buffers_within t s1 s2 -> buffers_within t s2 s3 -> buffers_within t s1 s3.
Proof.
  intros (A1 & B1 & C1) (A2 & B2 & C2). split; [|split]; intros j Hj.
  - rewrite A2, A1 by assumption. reflexivity.
  - rewrite B2, B1 by assumption. reflexivity.
  - rewrite C2, C1 by assumption. reflexivity.
Qed.

Lemma WRITE_OUTPUT_buffers (c : LayerConfig) (bn_scale bn_shift : mem)
    (oc_start oc_count oh_start th ow_start tw : Z) (st : engine) :
  let st' := WRITE_OUTPUT c bn_scale bn_shift oc_start oc_count oh_start th
                          ow_start tw st in
  input_tile st' = input_tile st /\ weight_tile st' = weight_tile st /\
  acc_tile st' = acc_tile st.
Proof.
  cbv zeta. unfold WRITE_OUTPUT. cbv zeta.
  apply (for_loop_invariant
           (fun s => input_tile s = input_tile st /\ weight_tile s = weight_tile st /\
                     acc_tile s = acc_tile st)); [|repeat split].
  intros oc s1 _ H1. apply (for_loop_invariant
           (fun s => input_tile s = input_tile st /\ weight_tile s = weight_tile st /\
                     acc_tile s = acc_tile st)); [|exact H1].
  intros oh s2 _ H2. apply (for_loop_invariant
           (fun s => input_tile s = input_tile st /\ weight_tile s = weight_tile st /\
                     acc_tile s = acc_tile st)); [|exact H2].
  intros ow s3 _ H3. exact H3.
Qed.

Lemma POOL_LOOP_buffers (c : LayerConfig) (st : engine) :
  input_tile (POOL_LOOP c st) = input_tile st /\
  weight_tile (POOL_LOOP c st) = weight_tile st /\
  acc_tile (POOL_LOOP c st) = acc_tile st.
Proof.
  rewrite POOL_LOOP_store_loop.
  destruct (store_loop_spec (pool_idx (out_height c) (out_width c))
              (fun p _ m => pool_window m (out_height c) (out_width c)
                              (fst p) (fst (snd p)) (snd (snd p)))
              (pool_keys (out_channels c) (out_height c) (out_width c)) st)
    as (_ & H1 & H2 & H3 & _).
  auto.
Qed.

(** The extent of a tile that the loops visit. *)
Lemma tile_extent (n tile i : Z) :
  0 < tile -> 0 < n -> 0 <= i < tile_count n tile ->
  0 < tile_end (i * tile) tile n - i * tile <= Z.min tile n.
Proof.
  intros Ht Hn Hi. pose proof (tile_start_lt n tile i Ht ltac:(lia) Hi).
  rewrite tile_end_min.
  assert (0 <= i * tile) by (apply Z.mul_nonneg_nonneg; lia). lia.
Qed.

Lemma mul3_le (a b d a' b' d' : Z) :
  0 <= a <= a' -> 0 <= b <= b' -> 0 <= d <= d' -> a * b * d <= a' * b' * d'.
Proof.
  intros Ha Hb Hd.
  assert (0 <= a * b) by (apply Z.mul_nonneg_nonneg; lia).
  assert (a * b <= a' * b') by (apply Z.mul_le_mono_nonneg; lia).
  apply Z.mul_le_mono_nonneg; lia.
Qed.

Section BuffersInBounds.

Variable t : tiling.
Variable c : LayerConfig.
Variables input_fm weights bn_scale bn_shift : mem.

Hypothesis Hvalid : valid_layer c.
Hypothesis Hfit : resource_compatible t c.

Lemma process_tile_buffers (oc_t oh_t ow_t : Z) (st : engine) :
  0 <= oc_t < tile_count (out_channels c) (TILE_CH t) ->
  0 <= oh_t < tile_count (out_height c) (TILE_H t) ->
  0 <= ow_t < tile_count (out_width c) (TILE_W t) ->
  buffers_within t st
    (process_tile t c input_fm weights bn_scale bn_shift oc_t oh_t ow_t st).
Proof.
  intros Hoc Hoh How.
  destruct Hvalid as (_ & Hic & Hocs & _ & _ & Hk & Hs & _ & Hohs & Hows).
  destruct Hfit as (Hth & Htw & Htc & Hin & Hwt).
  pose proof (tile_extent (out_channels c) (TILE_CH t) oc_t Htc Hocs Hoc) as Eoc.
  pose proof (tile_extent (out_height c) (TILE_H t) oh_t Hth Hohs Hoh) as Eoh.
  pose proof (tile_extent (out_width c) (TILE_W t) ow_t Htw Hows How) as Eow.
  unfold process_tile. cbv zeta.
  set (oc_start := oc_t * TILE_CH t) in *.
  set (oc_end := tile_end oc_start (TILE_CH t) (out_channels c)) in *.
  set (oh_start := oh_t * TILE_H t) in *.
  set (oh_end := tile_end oh_start (TILE_H t) (out_height c)) in *.
  set (ow_start := ow_t * TILE_W t) in *.
  set (ow_end := tile_end ow_start (TILE_W t) (out_width c)) in *.
  set (acc0 := INIT_ACC _ (acc_tile st)).
  assert (Hsize : (oc_end - oc_start) * (oh_end - oh_start) * (ow_end - ow_start)
                  <= OUTPUT_TILE_SIZE t).
  { unfold OUTPUT_TILE_SIZE. apply mul3_le; lia. }
  assert (Hloop : forall b,
            let b' := for_loop 0 (tile_count (in_channels c) (TILE_CH t))
                        (ic_tile_step t c input_fm weights oc_start oc_end
                                      oh_start oh_end ow_start ow_end) b in
            (forall j, ~ 0 <= j < INPUT_TILE_SIZE t ->
                       fst (fst b') j = fst (fst b) j) /\
            (forall j, ~ 0 <= j < WEIGHT_BUF_SIZE t ->
                       snd (fst b') j = snd (fst b) j) /\
            (forall j, ~ 0 <= j < OUTPUT_TILE_SIZE t -> snd b' j = snd b j)).
  { intros b. cbv zeta.
    apply (for_loop_invariant
             (fun b' : mem * mem * mem =>
                (forall j, ~ 0 <= j < INPUT_TILE_SIZE t ->
                           fst (fst b') j = fst (fst b) j) /\
                (forall j, ~ 0 <= j < WEIGHT_BUF_SIZE t ->
                           snd (fst b') j = snd (fst b) j) /\
                (forall j, ~ 0 <= j < OUTPUT_TILE_SIZE t -> snd b' j = snd b j)));
      [|repeat split].
    intros ic_t [[it wt] acc] Hict (HA & HB & HC). cbn [fst snd] in *.
    pose proof (tile_extent (in_channels c) (TILE_CH t) ic_t Htc Hic Hict) as Eic.
    unfold ic_tile_step. cbv zeta.
    set (ic_start := ic_t * TILE_CH t) in *.
    set (ic_end := tile_end ic_start (TILE_CH t) (in_channels c)) in *.
    cbn [fst snd].
    assert (Hih : (oh_end - 1) * stride c + kernel_size c - padding c
                  - (oh_start * stride c - padding c)
                  = (oh_end - oh_start - 1) * stride c + kernel_size c) by ring.
    assert (Hiw : (ow_end - 1) * stride c + kernel_size c - padding c
                  - (ow_start * stride c - padding c)
                  = (ow_end - ow_start - 1) * stride c + kernel_size c) by ring.
    assert (Hh1 : 0 <= (oh_end - oh_start - 1) * stride c)
      by (apply Z.mul_nonneg_nonneg; lia).
    assert (Hw1 : 0 <= (ow_end - ow_start - 1) * stride c)
      by (apply Z.mul_nonneg_nonneg; lia).
    assert (Hh2 : (oh_end - oh_start - 1) * stride c
                  <= (Z.min (TILE_H t) (out_height c) - 1) * stride c)
      by (apply Z.mul_le_mono_nonneg_r; lia).
    assert (Hw2 : (ow_end - ow_start - 1) * stride c
                  <= (Z.min (TILE_W t) (out_width c) - 1) * stride c)
      by (apply Z.mul_le_mono_nonneg_r; lia).
    split; [|split]; intros j Hj.
    - rewrite LOAD_INPUT_frame; [apply HA; assumption| lia | lia | lia |].
      rewrite Hih, Hiw. intros Hbad. apply Hj.
      assert ((ic_end - ic_start)
              * ((oh_end - oh_start - 1) * stride c + kernel_size c)
              * ((ow_end - ow_start - 1) * stride c + kernel_size c)
              <= Z.min (TILE_CH t) (in_channels c)
                 * ((Z.min (TILE_H t) (out_height c) - 1) * stride c + kernel_size c)
                 * ((Z.min (TILE_W t) (out_width c) - 1) * stride c + kernel_size c))
        by (apply mul3_le; lia).
      lia.
    - rewrite LOAD_WEIGHTS_frame; [apply HB; assumption | lia |].
      intros Hbad. apply Hj.
      assert ((oc_end - oc_start) * (ic_end - ic_start) * kernel_size c
              <= Z.min (TILE_CH t) (out_channels c) * Z.min (TILE_CH t) (in_channels c)
                 * kernel_size c) by (apply mul3_le; lia).
      assert (0 <= (oc_end - oc_start) * (ic_end - ic_start) * kernel_size c).
      { apply Z.mul_nonneg_nonneg; [apply Z.mul_nonneg_nonneg|]; lia. }
      assert ((oc_end - oc_start) * (ic_end - ic_start) * kernel_size c * kernel_size c
              <= Z.min (TILE_CH t) (out_channels c) * Z.min (TILE_CH t) (in_channels c)
                 * kernel_size c * kernel_size c)
        by (apply Z.mul_le_mono_nonneg_r; lia).
      lia.
    - rewrite COMPUTE_TILE_frame; [apply HC; assumption|]. lia. }
  specialize (Hloop (input_tile st, weight_tile st, acc0)). cbv zeta in Hloop.
  destruct (for_loop 0 (tile_count (in_channels c) (TILE_CH t)) _ _)
    as [[it wt] acc] eqn:Eloop.
  cbn [fst snd] in Hloop. destruct Hloop as (HA & HB & HC).
  destruct (WRITE_OUTPUT_buffers c bn_scale bn_shift oc_start (oc_end - oc_start)
              oh_start (oh_end - oh_start) ow_start (ow_end - ow_start)
              (set_buffers it wt acc st)) as (W1 & W2 & W3).
  split; [|split]; intros j Hj.
  - rewrite W1. cbn [set_buffers input_tile]. apply HA. assumption.
  - rewrite W2. cbn [set_buffers weight_tile]. apply HB. assumption.
  - rewrite W3. cbn [set_buffers acc_tile]. rewrite HC by assumption.
    unfold acc0. rewrite INIT_ACC_spec.
    destruct (Z.leb_spec 0 j); destruct (Z.ltb_spec j
      ((oc_end - oc_start) * (oh_end - oh_start) * (ow_end - ow_start)));
      cbn [andb]; try reflexivity. lia.
Qed.

Lemma tile_loops_buffers (st : engine) :
  buffers_within t st (tile_loops t c input_fm weights bn_scale bn_shift st).
Proof.
  unfold tile_loops. cbv zeta.
  apply (for_loop_invariant (buffers_within t st)); [|apply buffers_within_refl].
  intros oc_t s1 Hoc H1.
  apply (for_loop_invariant (buffers_within t st)); [|exact H1].
  intros oh_t s2 Hoh H2.
  apply (for_loop_invariant (buffers_within t st)); [|exact H2].
  intros ow_t s3 How H3.
  apply (buffers_within_trans t st s3); [exact H3|].
  apply process_tile_buffers; assumption.
Qed.

End BuffersInBounds.

(** X18. A run of [cnn_accelerator_top] on a valid layer whose staged
    window and weight block fit the buffers never stores outside the
    three static arrays: [input_tile], [weight_tile] and [acc_tile] are
    unchanged at every index beyond [INPUT_TILE_SIZE], [WEIGHT_BUF_SIZE]
    and [OUTPUT_TILE_SIZE]. *)
Theorem engine_buffers_in_bounds (t : tiling) (c : LayerConfig)
    (input_fm weights bn_scale bn_shift : mem) (st : engine) :
  valid_layer c -> resource_compatible t c ->
  buffers_within t st (cnn_accelerator_top t c input_fm weights bn_scale bn_shift st).
Proof.
  intros Hv Hf. unfold cnn_accelerator_top. cbv zeta.
  pose proof (tile_loops_buffers t c input_fm weights bn_scale bn_shift Hv Hf
                (set_status 1 st)) as H.
  destruct (layer_type c =? 1).
  - destruct (POOL_LOOP_buffers c
                (tile_loops t c input_fm weights bn_scale bn_shift (set_status 1 st)))
      as (P1 & P2 & P3).
    destruct H as (A & B & C).
    split; [|split]; intros j Hj; cbn [set_status input_tile weight_tile acc_tile].
    + rewrite P1. apply A. assumption.
    + rewrite P2. apply B. assumption.
    + rewrite P3. apply C. assumption.
  - exact H.
Qed.

(** X19. The tile sizes compiled into the design (14 x 14 x 32) hold every
    valid layer of stride 1 with a kernel of at most 3 x 3: its staged
    window and weight block fit [input_tile] and [weight_tile]. *)
Theorem compiled_tiles_fit_stride_one (c : LayerConfig) :
  valid_layer c -> stride c = 1 -> kernel_size c <= 3 ->
  resource_compatible zedboard_tiling c.
Proof.
  intros (_ & Hic & Hoc & _ & _ & Hk & _ & _ & Hoh & How) Hs Hk3.
  unfold resource_compatible, zedboard_tiling, INPUT_TILE_SIZE, WEIGHT_BUF_SIZE.
  cbn [TILE_H TILE_W TILE_CH]. rewrite Hs.
  split; [lia|]. split; [lia|]. split; [lia|]. split.
  - apply mul3_le; lia.
  - replace (32 * 32 * 9) with (32 * 32 * 3 * 3) by reflexivity.
    assert (H3 : Z.min 32 (out_channels c) * Z.min 32 (in_channels c) * kernel_size c
                 <= 32 * 32 * 3) by (apply mul3_le; lia).
    assert (H0 : 0 <= Z.min 32 (out_channels c) * Z.min 32 (in_channels c)
                      * kernel_size c).
    { apply Z.mul_nonneg_nonneg; [apply Z.mul_nonneg_nonneg|]; lia. }
    apply Z.mul_le_mono_nonneg; lia.
Qed.

Lemma engine_buffers_in_bounds_witness :
  let c := mkLayer 1 3 2 3 3 3 1 1 in
  let st := mkEngine 0 (const_mem 11) (const_mem 22) (const_mem 33) (const_mem 0) [] in
  let r := cnn_accelerator_top (mkTiling 2 2 2) c (const_mem 64) (const_mem 16)
                               (const_mem 256) (const_mem 0) st in
  input_tile r 32 = 11 /\ weight_tile r 36 = 22 /\ acc_tile r 8 = 33.
Proof.
  cbv zeta.
  destruct (engine_buffers_in_bounds (mkTiling 2 2 2) (mkLayer 1 3 2 3 3 3 1 1)
              (const_mem 64) (const_mem 16) (const_mem 256) (const_mem 0)
              (mkEngine 0 (const_mem 11) (const_mem 22) (const_mem 33) (const_mem 0) []))
    as (A & B & C).
  - unfold valid_layer; cbn; repeat split; discriminate.
  - unfold resource_compatible; cbn; repeat split; discriminate.
  - rewrite A, B, C by (vm_compute; intros [_ H]; discriminate H).
    repeat split.
Defined.

Lemma compiled_tiles_fit_stride_one_witness :
  resource_compatible zedboard_tiling (mkLayer 1 3 16 224 224 3 1 1).
Proof.
  apply compiled_tiles_fit_stride_one.
  - unfold valid_layer; cbn; repeat split; discriminate.
  - reflexivity.
  - cbn. lia.
Defined.

(* ================================================================== *)
(** * The values of the sigmoid table *)

(** X20. [sigmoid_hw] returns 1.0 for every input from -2.1875 on, in
    particular for 0, and less than 1.0 below -2.1875; its result exceeds
    0.5 from -3.3125 on and is below 0.5 before.  The table reaches its
    upper end at index 93 of 256, not at index 255. *)
Theorem sigmoid_hw_table_shape (x : Z) :
  (-560 <= x -> sigmoid_hw x = Fixed.data_of_int 1) /\
  (x < -560 -> sigmoid_hw x <= 251) /\
  (-848 <= x -> 131 <= sigmoid_hw x) /\
  (x < -848 -> sigmoid_hw x <= 123) /\
  sigmoid_hw 0 = Fixed.data_of_int 1.
Proof.
  split; [|split; [|split; [|split]]].
  - intros H. destruct (sigmoid_hw_facts (-560) x H) as [Hm _].
    destruct (sigmoid_hw_facts x x (Z.le_refl _)) as [_ [_ Hb]].
    change (sigmoid_hw (-560)) with 256 in Hm.
    change (Fixed.data_of_int 1) with 256 in *. lia.
  - intros H. destruct (sigmoid_hw_facts x (-561) ltac:(lia)) as [Hm _].
    change (sigmoid_hw (-561)) with 251 in Hm. exact Hm.
  - intros H. destruct (sigmoid_hw_facts (-848) x H) as [Hm _].
    change (sigmoid_hw (-848)) with 131 in Hm. exact Hm.
  - intros H. destruct (sigmoid_hw_facts x (-849) ltac:(lia)) as [Hm _].
    change (sigmoid_hw (-849)) with 123 in Hm. exact Hm.
  - reflexivity.
Qed.

Lemma sigmoid_hw_table_shape_witness :
  sigmoid_hw (-256) = Fixed.data_of_int 1 /\ sigmoid_hw (-1024) <= 123.
Proof.
  destruct (sigmoid_hw_table_shape (-256)) as (H1 & _).
  destruct (sigmoid_hw_table_shape (-1024)) as (_ & _ & _ & H4 & _).
  split; [apply H1 | apply H4]; lia.
Defined.

(* ================================================================== *)
(** * The staged input window and the size of [input_tile] *)

Lemma tile_count_one (n tile : Z) : 0 < n <= tile -> tile_count n tile = 1.
Proof.
  intros H. rewrite tile_count_div by lia.
  symmetry. apply Z.div_unique with (r := n - 1); lia.
Qed.

(** X21. After a run on a valid layer that fits one tile in every dimension
    and the static buffers, [input_tile] holds the zero-padded input window
    of the layer, densely packed: element [(ic, ih, iw)] of the window is
    at index [ic * tile_ih * tile_iw + ih * tile_iw + iw], an index of the
    array [input_tile[INPUT_TILE_SIZE]]. *)
Theorem single_tile_run_stages_window (t : tiling) (c : LayerConfig)
    (input_fm weights bn_scale bn_shift : mem) (st : engine) (ic ih iw : Z) :
  valid_layer c -> resource_compatible t c ->
  out_channels c <= TILE_CH t -> in_channels c <= TILE_CH t ->
  out_height c <= TILE_H t -> out_width c <= TILE_W t ->
  let tile_ih := (out_height c - 1) * stride c + kernel_size c in
  let tile_iw := (out_width c - 1) * stride c + kernel_size c in
  0 <= ic < in_channels c -> 0 <= ih < tile_ih -> 0 <= iw < tile_iw ->
  0 <= idx3 tile_ih tile_iw ic ih iw < INPUT_TILE_SIZE t /\
  input_tile (cnn_accelerator_top t c input_fm weights bn_scale bn_shift st)
             (idx3 tile_ih tile_iw ic ih iw)
  = padded_input c input_fm ic (ih - padding c) (iw - padding c).
Proof.
  intros Hv Hf Hoc Hic Hoh How tile_ih tile_iw Hic' Hih Hiw.
  destruct Hv as (_ & Hic0 & Hoc0 & _ & _ & Hk & Hs & _ & Hoh0 & How0).
  split.
  { destruct Hf as (_ & _ & _ & Hfit & _).
    rewrite !Z.min_r in Hfit by lia. fold tile_ih tile_iw in Hfit.
    pose proof (idx3_bounds tile_ih tile_iw (in_channels c) ic ih iw Hic' Hih Hiw).
    lia. }
  assert (Etop : input_tile (cnn_accelerator_top t c input_fm weights bn_scale bn_shift st)
                 = input_tile (tile_loops t c input_fm weights bn_scale bn_shift
                                          (set_status 1 st))).
  { unfold cnn_accelerator_top. cbv zeta. cbn [set_status input_tile].
    destruct (layer_type c =? 1); [|reflexivity].
    apply (POOL_LOOP_buffers c). }
  rewrite Etop. unfold tile_loops. cbv zeta.
  rewrite !tile_count_one by lia. rewrite !for_loop_one.
  unfold process_tile. cbv zeta.
  rewrite tile_count_one by lia. rewrite for_loop_one.
  rewrite !tile_end_min. rewrite !Z.mul_0_l, !Z.add_0_l.
  rewrite !Z.min_r by lia.
  unfold ic_tile_step. cbv zeta. cbn [input_tile set_status].
  rewrite tile_end_min. rewrite !Z.mul_0_l, !Z.add_0_l, !Z.sub_0_r.
  rewrite !Z.min_r by lia.
  match goal with
  | |- input_tile (WRITE_OUTPUT ?c ?a ?b ?d ?e ?f ?g ?h ?i ?s) _ = _ =>
      destruct (WRITE_OUTPUT_buffers c a b d e f g h i s) as (W & _)
  end.
  rewrite W. cbn [set_buffers input_tile].
  pose proof (LOAD_INPUT_spec c input_fm 0 (in_channels c)
                (- padding c) ((out_height c - 1) * stride c + kernel_size c - padding c)
                (- padding c) ((out_width c - 1) * stride c + kernel_size c - padding c)
                (input_tile st) ic (ih - padding c) (iw - padding c)
                ltac:(lia) ltac:(subst tile_ih; lia) ltac:(subst tile_iw; lia)) as E.
  replace ((out_height c - 1) * stride c + kernel_size c - padding c - - padding c)
    with tile_ih in E by (subst tile_ih; ring).
  replace ((out_width c - 1) * stride c + kernel_size c - padding c - - padding c)
    with tile_iw in E by (subst tile_iw; ring).
  replace (ic - 0) with ic in E by ring.
  replace (ih - padding c - - padding c) with ih in E by ring.
  replace (iw - padding c - - padding c) with iw in E by ring.
  exact E.
Qed.

(** A stride-2 layer with padding 1 on the compiled tile sizes: element
    [(1, 3, 4)] of the 2 x 7 x 7 window is input element [(1, 2, 3)], and
    element [(0, 0, 0)] lies in the padding. *)
Lemma single_tile_run_stages_window_witness :
  let c := mkLayer 2 2 1 5 5 3 2 1 in
  let r := cnn_accelerator_top zedboard_tiling c (fun i => i) (const_mem 16)
                               (const_mem 0) (const_mem 0) engine_reset in
  input_tile r 74 = 38 /\ input_tile r 0 = 0.
Proof.
  cbv zeta.
  assert (Hv : valid_layer (mkLayer 2 2 1 5 5 3 2 1))
    by (unfold valid_layer; cbn; repeat split; discriminate).
  assert (Hf : resource_compatible zedboard_tiling (mkLayer 2 2 1 5 5 3 2 1))
    by (unfold resource_compatible; cbn; repeat split; discriminate).
  pose proof (single_tile_run_stages_window zedboard_tiling (mkLayer 2 2 1 5 5 3 2 1)
                (fun i => i) (const_mem 16) (const_mem 0) (const_mem 0) engine_reset) as E.
  cbv zeta in E. split.
  - apply (E 1 3 4 Hv Hf); cbn; lia.
  - apply (E 0 0 0 Hv Hf); cbn; lia.
Defined.
